(** * ios-vibe-localizer: the catalog reconciliation engine

    A shallow embedding of the analyzer
    [analyzeStringsForTranslation] (src/helpers/stringAnalyzer.ts) and of
    the merge loop of [run] (src/unnamed/part_001, lines 67-111, the
    action's index.ts), with the properties of the string-catalog
    specification stated and proved about them.

    The code is embedded twice. At the level of values (the first part)
    a catalog is a record and every assignment is an update of the
    working copy; the properties of what is computed are proved there.
    Module [Store] has the same code with objects in a heap and
    variables holding references, to tell the caller's catalog from the
    deep copy.

    Further parts embed other pieces of [run] (the target languages of
    lines 22-38, the decision to write of line 128 and the total of line
    142), the languages and the diagnostics of the provider call
    ([getBatchTranslations], openaiService.ts) and the text written to
    the file ([formatXcstringsJson]). The sources have two revisions of
    the analyzer: src/helpers/stringAnalyzer.ts, and src/unnamed/part_000
    (module [Part000]), which creates the localization entries that the
    merge loop writes to; properties of the merge are stated for any need
    index, or for both.

    Conventions.
    - A JavaScript string is the list of its UTF-16 code units
      ([jsstring]); [js "stale"] is the literal ['stale'].
    - A plain JavaScript object used as a table (the catalog's [strings],
      an entry's [localizations], a response's [translations]) is the list
      of its own properties in enumeration order ([obj V]); a new
      property goes last (none is an array index, which JavaScript
      enumerates first). [getProp] reads an own property; where the code
      reads [localizations[lang]] for a language that the table does not
      have, the read goes on to [Object.prototype] ([readProp]).
    - A JavaScript [Map] is a [gmap].
    - Optional members ([comment?], [localizations?], ...) are [option]s:
      [None] is [undefined]. *)

From Stdlib Require Import NArith String Ascii.
From stdpp Require Import base option list gmap.

(** ** Strings *)

Abbreviation jsstring := (list N).

Definition js (s : string) : jsstring :=
  map N_of_ascii (list_ascii_of_string s).
Arguments js s%_string.

(** ECMAScript [WhiteSpace] and [LineTerminator] code points, the ones
    [String.prototype.trim] strips. *)
Definition isWhiteSpace (c : N) : bool :=
  ((c =? 9) || (c =? 10) || (c =? 11) || (c =? 12) || (c =? 13) || (c =? 32)
   || (c =? 160) || (c =? 5760) || ((8192 <=? c) && (c <=? 8202))
   || (c =? 8232) || (c =? 8233) || (c =? 8239) || (c =? 8287)
   || (c =? 12288) || (c =? 65279))%N.

Fixpoint trimStart (s : jsstring) : jsstring :=
  match s with
  | c :: s' => if isWhiteSpace c then trimStart s' else s
  | [] => []
  end.

Definition trimEnd (s : jsstring) : jsstring :=
  reverse (trimStart (reverse s)).

Definition trim (s : jsstring) : jsstring := trimEnd (trimStart s).

(** [!s] for a string-or-undefined [s]: [undefined] and [''] are falsy. *)
Definition falsyString (s : option jsstring) : bool :=
  match s with
  | None | Some [] => true
  | Some (_ :: _) => false
  end.

(** [s === lit] for a string-or-undefined [s]. *)
Definition strictEq (s : option jsstring) (lit : jsstring) : bool :=
  bool_decide (s = Some lit).

(** ** Plain objects as property tables *)

Abbreviation obj V := (list (jsstring * V)).

Section Obj.
Context {V : Type}.

(** [o[k]] *)
Fixpoint getProp (o : obj V) (k : jsstring) : option V :=
  match o with
  | [] => None
  | (k', v) :: o' => if decide (k' = k) then Some v else getProp o' k
  end.

(** [o[k] = v]: an existing property keeps its place, a new one goes
    last. *)
Fixpoint setProp (o : obj V) (k : jsstring) (v : V) : obj V :=
  match o with
  | [] => [(k, v)]
  | (k', v') :: o' =>
      if decide (k' = k) then (k', v) :: o' else (k', v') :: setProp o' k v
  end.

(** [delete o[k]] *)
Definition deleteProp (o : obj V) (k : jsstring) : obj V :=
  filter (λ p, p.1 ≠ k) o.

(** [Object.keys(o)], also the order of [for (const k in o)]. *)
Definition keys (o : obj V) : list jsstring := o.*1.
End Obj.

(** ** The catalog

    Modelled from the spec: the interfaces [XCStrings],
    [TranslationRequest] and [BatchTranslationResponse] of src/types.ts,
    which is not among the sources. The records have the members the
    specification's data model names; a member the code tests for absence
    ([!x], [x?.y]) is optional. *)

Record StringUnit := mkStringUnit {
  state : option jsstring;
  value : option jsstring
}.

Record Localization := mkLocalization {
  stringUnit : option StringUnit
}.

Record StringEntry := mkStringEntry {
  comment : option jsstring;
  extractionState : option jsstring;
  shouldTranslate : option bool;
  localizations : option (obj Localization)
}.

Record XCStrings := mkXCStrings {
  sourceLanguage : option jsstring;
  strings : obj StringEntry;
  version : option jsstring
}.

(** A JavaScript object has each property name once. *)
Definition wfObj {V} (o : obj V) : Prop := NoDup (keys o).

Record TranslationRequest := mkRequest {
  key : jsstring;
  text : jsstring;
  targetLanguages : list jsstring;
  reqComment : option jsstring
}.

(** The value type of [stringTranslationMap]. *)
Record TranslationInfo := mkInfo {
  languages : list jsstring;
  isNew : gmap jsstring bool
}.

Record TranslationChanges := mkChanges {
  added : list jsstring;
  updated : list jsstring;
  staleRemoved : list jsstring
}.

Record StringAnalysisResult := mkResult {
  translationRequests : list TranslationRequest;
  translationChanges : TranslationChanges;
  stringTranslationMap : gmap jsstring TranslationInfo;
  modifiedXcstringsData : XCStrings;
  xcstringsModified : bool;
  fallbackToKeyCount : nat
}.

(** ** The analyzer (src/helpers/stringAnalyzer.ts) *)

Definition emptyChanges : TranslationChanges := mkChanges [] [] [].

Definition pushStaleRemoved (c : TranslationChanges) (k : jsstring)
  : TranslationChanges :=
  mkChanges (added c) (updated c) (staleRemoved c ++ [k]).

Definition withStrings (d : XCStrings) (s : obj StringEntry) : XCStrings :=
  mkXCStrings (sourceLanguage d) s (version d).

Definition withLocalizations (e : StringEntry) (l : obj Localization)
  : StringEntry :=
  mkStringEntry (comment e) (extractionState e) (shouldTranslate e) (Some l).

(** The names of the properties of [Object.prototype]. A table of the
    catalog is a plain object made by [JSON.parse]: reading [o[k]] for a
    name that is no own property of [o] finds the member of
    [Object.prototype] of that name, when there is one. *)
Definition inheritedName (k : jsstring) : bool :=
  bool_decide (k ∈ [js "constructor"; js "__defineGetter__";
                    js "__defineSetter__"; js "hasOwnProperty";
                    js "__lookupGetter__"; js "__lookupSetter__";
                    js "isPrototypeOf"; js "propertyIsEnumerable";
                    js "toString"; js "valueOf"; js "__proto__";
                    js "toLocaleString"]).

(** What such a member is when it is read where a localization is
    expected: a function, or [Object.prototype] itself for [__proto__].
    It is an object, so truthy, and it has no property [stringUnit]. *)
Definition inheritedMember : Localization := mkLocalization None.

(** [localizations[lang]] *)
Definition readProp (locs : obj Localization) (lang : jsstring)
  : option Localization :=
  match getProp locs lang with
  | Some l => Some l
  | None => if inheritedName lang then Some inheritedMember else None
  end.

(** Lines 68-73: does [lang], whose localization is [targetLocalization]
    ([undefined] when the entry has none), need a translation? *)
Definition needsTranslationForLang (targetLocalization : option Localization)
  : bool :=
  let targetStringUnit := targetLocalization ≫= stringUnit in
  let isMissingOrEmpty :=
    match targetStringUnit with
    | None => true
    | Some u =>
        falsyString (value u)
        || match value u with
           | Some v => bool_decide (length (trim v) = 0)
           | None => true
           end
    end in
  let isNeedsReview := strictEq (targetStringUnit ≫= state) (js "needs_review") in
  isMissingOrEmpty || isNeedsReview.

(** Lines 67-80, one round of [for (const lang of targetLanguages)]; the
    accumulator is [(languagesNeeded, isNewMap)]. *)
Definition checkLanguage (locs : obj Localization)
    (acc : list jsstring * gmap jsstring bool) (lang : jsstring)
  : list jsstring * gmap jsstring bool :=
  let targetLocalization := readProp locs lang in
  if needsTranslationForLang targetLocalization then
    let isNewTranslation := bool_decide (targetLocalization = None) in
    (acc.1 ++ [lang], <[lang := isNewTranslation]> acc.2)
  else acc.

Definition checkLanguages (locs : obj Localization) (targets : list jsstring)
  : list jsstring * gmap jsstring bool :=
  foldl (checkLanguage locs) ([], ∅) targets.

(** Lines 84-86: [sourceTextCandidate]. *)
Definition sourceTextCandidate (sourceLanguageForText : option jsstring)
    (locs : obj Localization) : option jsstring :=
  if falsyString sourceLanguageForText then None
  else
    let sourceLocalization : option Localization :=
      sourceLanguageForText ≫= readProp locs in
    let sourceValue : option jsstring :=
      (sourceLocalization ≫= stringUnit) ≫= value in
    trim <$> sourceValue.

(** Line 87: [useKeyFallback]. *)
Definition useKeyFallback (candidate : option jsstring) : bool :=
  falsyString candidate
  || match candidate with
     | Some s => bool_decide (length s = 0)
     | None => true
     end.

(** Line 91: [sourceText]. *)
Definition sourceText (k : jsstring) (candidate : option jsstring) : jsstring :=
  if useKeyFallback candidate then k else default k candidate.

(** Lines 45-100: the body of [for (const key in modifiedXcstringsData.strings)]
    once [currentStringEntry] is read. The entry is an object of the
    working catalog: writing its [localizations] writes the catalog. *)
Definition analyzeEntry (targets : list jsstring)
    (sourceLanguageForText : option jsstring)
    (st : StringAnalysisResult) (k : jsstring)
    (currentStringEntry : StringEntry) : StringAnalysisResult :=
  let data := modifiedXcstringsData st in
  if strictEq (extractionState currentStringEntry) (js "stale") then
    mkResult (translationRequests st)
             (pushStaleRemoved (translationChanges st) k)
             (stringTranslationMap st)
             (withStrings data (deleteProp (strings data) k))
             true
             (fallbackToKeyCount st)
  else if bool_decide (shouldTranslate currentStringEntry = Some false) then
    st
  else
    let locs := default [] (localizations currentStringEntry) in
    let currentStringEntry := withLocalizations currentStringEntry locs in
    let data := withStrings data (setProp (strings data) k currentStringEntry) in
    let '(languagesNeeded, isNewMap) := checkLanguages locs targets in
    if bool_decide (0 < length languagesNeeded) then
      let candidate := sourceTextCandidate sourceLanguageForText locs in
      mkResult
        (translationRequests st ++
           [mkRequest k (sourceText k candidate) languagesNeeded
                      (comment currentStringEntry)])
        (translationChanges st)
        (<[k := mkInfo languagesNeeded isNewMap]> (stringTranslationMap st))
        data
        (xcstringsModified st)
        (if useKeyFallback candidate
         then fallbackToKeyCount st + 1 else fallbackToKeyCount st)
    else
      mkResult (translationRequests st) (translationChanges st)
               (stringTranslationMap st) data
               (xcstringsModified st) (fallbackToKeyCount st).

(** Line 43 and the loop head: a property deleted before it is reached is
    not visited. *)
Definition analyzeKey (targets : list jsstring)
    (sourceLanguageForText : option jsstring)
    (st : StringAnalysisResult) (k : jsstring) : StringAnalysisResult :=
  match getProp (strings (modifiedXcstringsData st)) k with
  | None => st
  | Some currentStringEntry =>
      analyzeEntry targets sourceLanguageForText st k currentStringEntry
  end.

(** Lines 30-40: the state the loop starts from. [JSON.parse(JSON.stringify(x))]
    builds a structurally equal value out of new objects; as a value the
    working copy starts equal to the argument (section [Store] below keeps
    the two apart as objects). *)
Definition initialResult (xcstringsData : XCStrings) : StringAnalysisResult :=
  mkResult [] emptyChanges ∅ xcstringsData false 0.

Definition analyzeStringsForTranslation (xcstringsData : XCStrings)
    (targets : list jsstring) (sourceLanguageForText : option jsstring)
  : StringAnalysisResult :=
  foldl (analyzeKey targets sourceLanguageForText)
        (initialResult xcstringsData)
        (keys (strings xcstringsData)).

(** ** The merge loop of [run] (src/unnamed/part_001, lines 85-110)

    [batchResponse] is what [fetchBatchTranslations] returned; the
    provider is outside the sources and its response is a parameter. *)

Record BatchItem := mkItem {
  itemKey : jsstring;
  translations : obj jsstring
}.

Record MergeState := mkMerge {
  updatedXcstringsData : XCStrings;
  changes : TranslationChanges;
  warnings : list jsstring
}.

(** How a loop ends: normally, or with the [TypeError] of a property
    write on [undefined]; either way with the state reached so far. *)
Inductive completion :=
  | Normal (st : MergeState)
  | TypeError (st : MergeState).

Definition finalState (c : completion) : MergeState :=
  match c with Normal st | TypeError st => st end.

(** [`${key} (${lang})`] *)
Definition changeKey (k lang : jsstring) : jsstring :=
  k ++ js " (" ++ lang ++ js ")".

Definition unknownKeyWarning (k : jsstring) : jsstring :=
  js "Received translation for unknown key: " ++ k.

Definition withStringUnit (l : Localization) (u : StringUnit) : Localization :=
  mkLocalization (Some u).

(** Lines 96-108, one round of the loop over
    [Object.entries(translationResult.translations)]. [stringEntry] is
    the entry object of [k] inside the working catalog. The write of
    line 97 goes to the object that [stringEntry.localizations[lang]]
    is: the entry of the catalog when [lang] is an own property; the
    member of [Object.prototype] when [lang] is the name of one and no
    own property, an object outside the catalog; and it throws when the
    read gives [undefined], or when there is no [localizations]. *)
Definition applyTranslation (k : jsstring) (translationInfo : TranslationInfo)
    (st : MergeState) (p : jsstring * jsstring) : completion :=
  let '(lang, translatedValue) := p in
  if bool_decide (lang ∈ languages translationInfo) then
    let data := updatedXcstringsData st in
    match getProp (strings data) k with
    | None => TypeError st
    | Some stringEntry =>
        match localizations stringEntry with
        | None => TypeError st
        | Some locs =>
            let c := changes st in
            let c := if bool_decide (isNew translationInfo !! lang = Some true)
                     then mkChanges (added c ++ [changeKey k lang]) (updated c) (staleRemoved c)
                     else mkChanges (added c) (updated c ++ [changeKey k lang]) (staleRemoved c) in
            match getProp locs lang with
            | Some loc =>
                let loc := withStringUnit loc
                             (mkStringUnit (Some (js "translated")) (Some translatedValue)) in
                let stringEntry := withLocalizations stringEntry (setProp locs lang loc) in
                let data := withStrings data (setProp (strings data) k stringEntry) in
                Normal (mkMerge data c (warnings st))
            | None =>
                if inheritedName lang then Normal (mkMerge data c (warnings st))
                else TypeError st
            end
        end
    end
  else Normal st.

Fixpoint applyTranslations (k : jsstring) (translationInfo : TranslationInfo)
    (ps : list (jsstring * jsstring)) (st : MergeState) : completion :=
  match ps with
  | [] => Normal st
  | p :: ps' =>
      match applyTranslation k translationInfo st p with
      | Normal st' => applyTranslations k translationInfo ps' st'
      | TypeError st' => TypeError st'
      end
  end.

(** Lines 86-109, one round of
    [for (const translationResult of batchResponse.translations)]. The
    need index has records only for keys of the catalog (the analyzer
    makes them in its loop over the catalog's keys): for a key that is
    no own property of [strings], whatever [strings[key]] finds, there
    is no record and the test of line 91 gives the warning. *)
Definition mergeItem (needs : gmap jsstring TranslationInfo)
    (st : MergeState) (translationResult : BatchItem) : completion :=
  let k := itemKey translationResult in
  let stringEntry := getProp (strings (updatedXcstringsData st)) k in
  let translationInfo := needs !! k in
  match stringEntry, translationInfo with
  | Some _, Some translationInfo =>
      applyTranslations k translationInfo (translations translationResult) st
  | _, _ =>
      Normal (mkMerge (updatedXcstringsData st) (changes st)
                      (warnings st ++ [unknownKeyWarning k]))
  end.

Fixpoint mergeTranslations (needs : gmap jsstring TranslationInfo)
    (response : list BatchItem) (st : MergeState) : completion :=
  match response with
  | [] => Normal st
  | item :: rest =>
      match mergeItem needs st item with
      | Normal st' => mergeTranslations needs rest st'
      | TypeError st' => TypeError st'
      end
  end.

(** The merge as [run] starts it: on the analyzer's working copy, ledger
    and need index. *)
Definition mergeStart (r : StringAnalysisResult) : MergeState :=
  mkMerge (modifiedXcstringsData r) (translationChanges r) [].

(** Lines 80-111: the provider is called, and its response merged, only
    when there are requests. *)
Definition merge (r : StringAnalysisResult) (response : list BatchItem)
  : completion :=
  if bool_decide (0 < length (translationRequests r)) then
    mergeTranslations (stringTranslationMap r) response (mergeStart r)
  else Normal (mergeStart r).

(** ** The analyzer of src/unnamed/part_000

    Another revision of stringAnalyzer.ts: a language is needed when its
    localization, string unit or value is missing, the localization entry
    of a needed language is created during the analysis (lines 76-81),
    and there is no fallback counter. [run] imports
    ./helpers/stringAnalyzer, the revision above. *)

Module Part000.

Record StringAnalysisResult := mkResult {
  translationRequests : list TranslationRequest;
  translationChanges : TranslationChanges;
  stringTranslationMap : gmap jsstring TranslationInfo;
  modifiedXcstringsData : XCStrings;
  xcstringsModified : bool
}.

(** Lines 66-69. *)
Definition needsTranslationForLang (l : option Localization) : bool :=
  match l with
  | None => true
  | Some l =>
      match stringUnit l with
      | None => true
      | Some u => falsyString (value u)
      end
  end.

(** Lines 65-83, one round; the accumulator is
    [(localizations, languagesNeeded, isNewMap)]. *)
Definition checkLanguage
    (acc : obj Localization * list jsstring * gmap jsstring bool)
    (lang : jsstring)
  : obj Localization * list jsstring * gmap jsstring bool :=
  let '(locs, languagesNeeded, isNewMap) := acc in
  if needsTranslationForLang (readProp locs lang) then
    let isNewTranslation := bool_decide (readProp locs lang = None) in
    let locs :=
      if bool_decide (readProp locs lang = None)
      then setProp locs lang
             (mkLocalization (Some (mkStringUnit (Some (js "translated")) (Some []))))
      else locs in
    (locs, languagesNeeded ++ [lang], <[lang := isNewTranslation]> isNewMap)
  else acc.

Definition analyzeEntry (targets : list jsstring)
    (sourceLanguageForText : option jsstring)
    (st : StringAnalysisResult) (k : jsstring)
    (currentStringEntry : StringEntry) : StringAnalysisResult :=
  let data := modifiedXcstringsData st in
  if strictEq (extractionState currentStringEntry) (js "stale") then
    mkResult (translationRequests st)
             (pushStaleRemoved (translationChanges st) k)
             (stringTranslationMap st)
             (withStrings data (deleteProp (strings data) k))
             true
  else if bool_decide (shouldTranslate currentStringEntry = Some false) then
    st
  else
    let locs := default [] (localizations currentStringEntry) in
    let '(locs, languagesNeeded, isNewMap) :=
      foldl checkLanguage (locs, [], ∅) targets in
    let currentStringEntry := withLocalizations currentStringEntry locs in
    let data := withStrings data (setProp (strings data) k currentStringEntry) in
    if bool_decide (0 < length languagesNeeded) then
      let candidate := sourceTextCandidate sourceLanguageForText locs in
      let sourceText :=
        if negb (falsyString candidate) then default k candidate else k in
      mkResult
        (translationRequests st ++
           [mkRequest k sourceText languagesNeeded (comment currentStringEntry)])
        (translationChanges st)
        (<[k := mkInfo languagesNeeded isNewMap]> (stringTranslationMap st))
        data
        (xcstringsModified st)
    else
      mkResult (translationRequests st) (translationChanges st)
               (stringTranslationMap st) data (xcstringsModified st).

Definition analyzeKey (targets : list jsstring)
    (sourceLanguageForText : option jsstring)
    (st : StringAnalysisResult) (k : jsstring) : StringAnalysisResult :=
  match getProp (strings (modifiedXcstringsData st)) k with
  | None => st
  | Some currentStringEntry =>
      analyzeEntry targets sourceLanguageForText st k currentStringEntry
  end.

Definition analyzeStringsForTranslation (xcstringsData : XCStrings)
    (targets : list jsstring) (sourceLanguageForText : option jsstring)
  : StringAnalysisResult :=
  foldl (analyzeKey targets sourceLanguageForText)
        (mkResult [] emptyChanges ∅ xcstringsData false)
        (keys (strings xcstringsData)).

(** The merge loop of [run] on this analyzer's result. *)
Definition merge (r : StringAnalysisResult) (response : list BatchItem)
  : completion :=
  if bool_decide (0 < length (translationRequests r)) then
    mergeTranslations (stringTranslationMap r) response
      (mkMerge (modifiedXcstringsData r) (translationChanges r) [])
  else Normal (mkMerge (modifiedXcstringsData r) (translationChanges r) []).

End Part000.

(** ** Running the code on small catalogs *)

Definition entryWith (locs : option (obj Localization)) : StringEntry :=
  mkStringEntry None None None locs.

Definition unit_ (st v : string) : Localization :=
  mkLocalization (Some (mkStringUnit (Some (js st)) (Some (js v)))).

Definition catalogOf (s : obj StringEntry) : XCStrings :=
  mkXCStrings (Some (js "en")) s (Some (js "1.0")).

Definition helloCatalog : XCStrings :=
  catalogOf [(js "Hello", entryWith (Some []))].


(** A catalog with a partly translated entry, a stale entry that is also
    opted out, an opted-out entry and an entry without [localizations]. *)
Definition sampleCatalog : XCStrings :=
  catalogOf
    [(js "Hello",
      mkStringEntry (Some (js "greeting")) None None
        (Some [(js "en", unit_ "translated" " Hello there ");
               (js "fr", unit_ "translated" "Bonjour");
               (js "de", unit_ "needs_review" "Hallo");
               (js "es", unit_ "translated" "  ")]));
     (js "Old", mkStringEntry None (Some (js "stale")) (Some false) (Some []));
     (js "Brand", mkStringEntry None None (Some false) None);
     (js "Bye", entryWith None)].

Definition sampleTargets : list jsstring := [js "fr"; js "de"; js "es"; js "it"].

Definition sampleHint : option jsstring := Some (js "en").

Definition helloResponse : list BatchItem :=
  [mkItem (js "Hello") [(js "fr", js "Bonjour")]].

(** A response that answers for [Hello] in German and Italian, for a key
    that was never asked and for a language that was not needed. *)
Definition sampleResponse : list BatchItem :=
  [mkItem (js "Nope") [(js "fr", js "Non")];
   mkItem (js "Hello") [(js "fr", js "Salut"); (js "de", js "Hallo!")]].

(** ** The same code with objects kept by reference

    In [Store] a catalog is a graph of objects in a heap and a variable
    holds a reference: [JSON.parse(JSON.stringify(x))] builds new objects,
    and every write of the analyzer and of the merge loop is a write to
    an object of the heap. Property values are [undefined], booleans,
    strings and references to objects, the values a string catalog has.

    The heap has the objects of the two catalogs and nothing else. The
    members of [Object.prototype] are not in it: a read of
    [localizations[lang]] that finds one of them in the code is the read
    of a missing property here, and the write of line 97 that follows,
    which in the code changes that member, an object of neither catalog,
    is the throw here. *)

Module Store.

Inductive val :=
| VUndefined
| VBool (b : bool)
| VString (s : jsstring)
| VObject (l : nat).

#[global] Instance val_eq_dec : EqDecision val.
Proof. solve_decision. Defined.

Abbreviation object := (obj val).

(** The heap: the object at address [l] is the [l]-th one. *)
Abbreviation heap := (list object).

Inductive outcome (A : Type) :=
| Return (a : A)
| Throw.
Arguments Return {A} a.
Arguments Throw {A}.

(** Computations that read and write the heap and may throw. *)
Definition M (A : Type) : Type := heap → outcome A * heap.

Definition ret {A} (a : A) : M A := λ h, (Return a, h).

Definition throw {A} : M A := λ h, (Throw, h).

Definition bind {A B} (m : M A) (f : A → M B) : M B :=
  λ h, match m h with
       | (Return a, h') => f a h'
       | (Throw, h') => (Throw, h')
       end.

Notation "'do' x <- m ; k" := (bind m (λ x, k))
  (at level 10, x name, m at level 100, k at level 200, only parsing).

Fixpoint foldM {A B} (f : A → B → M A) (a : A) (l : list B) : M A :=
  match l with
  | [] => ret a
  | b :: l' => do a' <- f a b; foldM f a' l'
  end.

(** [{...}]: a new object. *)
Definition alloc (o : object) : M val :=
  λ h, (Return (VObject (length h)), h ++ [o]).

(** [v[k]]: a [TypeError] on [undefined]; booleans and strings have none
    of the properties read here. *)
Definition get (v : val) (k : jsstring) : M val :=
  λ h, match v with
       | VUndefined => (Throw, h)
       | VObject l =>
           match h !! l with
           | Some o => (Return (default VUndefined (getProp o k)), h)
           | None => (Throw, h)
           end
       | _ => (Return VUndefined, h)
       end.

(** [v?.[k]] *)
Definition getOpt (v : val) (k : jsstring) : M val :=
  match v with
  | VUndefined => ret VUndefined
  | _ => get v k
  end.

(** [v[k] = x], in strict mode. *)
Definition set (v : val) (k : jsstring) (x : val) : M unit :=
  λ h, match v with
       | VObject l =>
           match h !! l with
           | Some o => (Return (), <[l := setProp o k x]> h)
           | None => (Throw, h)
           end
       | _ => (Throw, h)
       end.

(** [delete v[k]] *)
Definition delete (v : val) (k : jsstring) : M unit :=
  λ h, match v with
       | VUndefined => (Throw, h)
       | VObject l =>
           match h !! l with
           | Some o => (Return (), <[l := deleteProp o k]> h)
           | None => (Throw, h)
           end
       | _ => (Return (), h)
       end.

(** The keys [for (const k in v)] starts with. *)
Definition ownKeys (v : val) : M (list jsstring) :=
  λ h, match v with
       | VObject l =>
           match h !! l with
           | Some o => (Return (keys o), h)
           | None => (Throw, h)
           end
       | _ => (Return [], h)
       end.

(** Is [k] still a property of [v]? ([for...in] skips a property deleted
    before it is reached.) *)
Definition hasOwn (v : val) (k : jsstring) : M bool :=
  λ h, match v with
       | VObject l =>
           match h !! l with
           | Some o => (Return (bool_decide (is_Some (getProp o k))), h)
           | None => (Throw, h)
           end
       | _ => (Return false, h)
       end.

(** [!!v] *)
Definition truthy (v : val) : bool :=
  match v with
  | VUndefined => false
  | VBool b => b
  | VString s => bool_decide (s ≠ [])
  | VObject _ => true
  end.

(** [v.trim()] *)
Definition trimOf (v : val) : M jsstring :=
  match v with
  | VString s => ret (trim s)
  | _ => throw
  end.

(** [v?.trim()] *)
Definition trimOpt (v : val) : M val :=
  match v with
  | VUndefined => ret VUndefined
  | VString s => ret (VString (trim s))
  | _ => throw
  end.

(** *** [JSON.parse(JSON.stringify(x))] *)

#[warnings="-register-all"]
Inductive json :=
| JBool (b : bool)
| JString (s : jsstring)
| JObject (members : list (jsstring * json)).

(** The members of an object, left to right; a member whose value is
    [undefined] is left out. *)
Definition stringifyMembers (stringify : val → option (option json))
  : object → option (list (jsstring * json)) :=
  fix members (o : object) :=
    match o with
    | [] => Some []
    | (k, x) :: o' =>
        match stringify x, members o' with
        | Some (Some j), Some ms => Some ((k, j) :: ms)
        | Some None, Some ms => Some ms
        | _, _ => None
        end
    end.

(** [JSON.stringify]: [Some None] is [undefined], [None] the [TypeError]
    of a circular structure, found when the nesting is deeper than the
    heap has objects. *)
Fixpoint stringify (fuel : nat) (h : heap) (v : val) : option (option json) :=
  match v with
  | VUndefined => Some None
  | VBool b => Some (Some (JBool b))
  | VString s => Some (Some (JString s))
  | VObject l =>
      match fuel with
      | 0 => None
      | S fuel =>
          match h !! l with
          | None => None
          | Some o =>
              match stringifyMembers (stringify fuel h) o with
              | Some ms => Some (Some (JObject ms))
              | None => None
              end
          end
      end
  end.

(** The members of an object of the text, defined one after the other on
    the object [o] under construction. *)
Definition parseMembers (parse : json → M val)
  : list (jsstring * json) → object → M object :=
  fix members (ms : list (jsstring * json)) (o : object) :=
    match ms with
    | [] => ret o
    | (k, j) :: ms' => do v <- parse j; members ms' (setProp o k v)
    end.

(** [JSON.parse]: every object of the text becomes a new object. *)
Fixpoint parse (j : json) : M val :=
  match j with
  | JBool b => ret (VBool b)
  | JString s => ret (VString s)
  | JObject ms => do o <- parseMembers parse ms []; alloc o
  end.

Definition jsonClone (v : val) : M val :=
  λ h, match stringify (length h) h v with
       | Some (Some j) => parse j h
       | _ => (Throw, h)
       end.

(** The JSON text of a typed catalog. *)

Definition optMember (k : string) (v : option json) : list (jsstring * json) :=
  match v with
  | Some j => [(js k, j)]
  | None => []
  end.

Definition unitJson (u : StringUnit) : json :=
  JObject (optMember "state" (JString <$> state u)
           ++ optMember "value" (JString <$> value u)).

Definition localizationJson (l : Localization) : json :=
  JObject (optMember "stringUnit" (unitJson <$> stringUnit l)).

Definition entryJson (e : StringEntry) : json :=
  JObject (optMember "comment" (JString <$> comment e)
           ++ optMember "extractionState" (JString <$> extractionState e)
           ++ optMember "shouldTranslate" (JBool <$> shouldTranslate e)
           ++ optMember "localizations"
                ((λ ls, JObject (prod_map id localizationJson <$> ls))
                   <$> localizations e)).

Definition catalogJson (d : XCStrings) : json :=
  JObject (optMember "sourceLanguage" (JString <$> sourceLanguage d)
           ++ [(js "strings", JObject (prod_map id entryJson <$> strings d))]
           ++ optMember "version" (JString <$> version d)).

(** The requests of the value-level analyzer, before this module's own. *)
Abbreviation ValueRequest := TranslationRequest.
Abbreviation mkValueRequest := mkRequest.

(** *** The analyzer *)

Record TranslationRequest := mkRequest {
  key : jsstring;
  text : jsstring;
  targetLanguages : list jsstring;
  comment : val
}.

Record StringAnalysisResult := mkResult {
  translationRequests : list TranslationRequest;
  translationChanges : TranslationChanges;
  stringTranslationMap : gmap jsstring TranslationInfo;
  modifiedXcstringsData : val;
  xcstringsModified : bool;
  fallbackToKeyCount : nat
}.

(** Lines 68-79. *)
Definition checkLanguage (currentStringEntry : val)
    (acc : list jsstring * gmap jsstring bool) (lang : jsstring)
  : M (list jsstring * gmap jsstring bool) :=
  do locs <- get currentStringEntry (js "localizations");
  do targetLocalization <- get locs lang;
  do targetStringUnit <- getOpt targetLocalization (js "stringUnit");
  do isMissingOrEmpty <-
    (if negb (truthy targetStringUnit) then ret true
     else
       do v <- get targetStringUnit (js "value");
       if negb (truthy v) then ret true
       else do t <- trimOf v; ret (bool_decide (length t = 0)));
  do st <- getOpt targetStringUnit (js "state");
  let isNeedsReview := bool_decide (st = VString (js "needs_review")) in
  if isMissingOrEmpty || isNeedsReview then
    let isNewTranslation := negb (truthy targetLocalization) in
    ret (acc.1 ++ [lang], <[lang := isNewTranslation]> acc.2)
  else ret acc.

(** Lines 84-86. *)
Definition sourceTextCandidate (sourceLanguageForText : option jsstring)
    (currentStringEntry : val) : M val :=
  match sourceLanguageForText with
  | Some (c :: h) =>
      do locs <- get currentStringEntry (js "localizations");
      do l <- getOpt locs (c :: h);
      do u <- getOpt l (js "stringUnit");
      do v <- getOpt u (js "value");
      trimOpt v
  | _ => ret VUndefined
  end.

(** Lines 43-100. *)
Definition analyzeKey (targets : list jsstring)
    (sourceLanguageForText : option jsstring)
    (st : StringAnalysisResult) (k : jsstring) : M StringAnalysisResult :=
  do strs <- get (modifiedXcstringsData st) (js "strings");
  do present <- hasOwn strs k;
  if negb present then ret st
  else
    do currentStringEntry <- get strs k;
    do es <- get currentStringEntry (js "extractionState");
    if bool_decide (es = VString (js "stale")) then
      do _ <- delete strs k;
      ret (mkResult (translationRequests st)
                    (pushStaleRemoved (translationChanges st) k)
                    (stringTranslationMap st) (modifiedXcstringsData st)
                    true (fallbackToKeyCount st))
    else
      do sh <- get currentStringEntry (js "shouldTranslate");
      if bool_decide (sh = VBool false) then ret st
      else
        do locs <- get currentStringEntry (js "localizations");
        do _ <- (if negb (truthy locs)
                 then do o <- alloc [];
                      set currentStringEntry (js "localizations") o
                 else ret ());
        do r <- foldM (checkLanguage currentStringEntry) ([], ∅) targets;
        if bool_decide (0 < length r.1) then
          do candidate <- sourceTextCandidate sourceLanguageForText currentStringEntry;
          let useKeyFallback := negb (truthy candidate) in
          let sourceText :=
            match candidate with
            | VString s => if useKeyFallback then k else s
            | _ => k
            end in
          do c <- get currentStringEntry (js "comment");
          ret (mkResult
                 (translationRequests st ++ [mkRequest k sourceText r.1 c])
                 (translationChanges st)
                 (<[k := mkInfo r.1 r.2]> (stringTranslationMap st))
                 (modifiedXcstringsData st)
                 (xcstringsModified st)
                 (if useKeyFallback
                  then fallbackToKeyCount st + 1 else fallbackToKeyCount st))
        else ret st.

Definition analyzeStringsForTranslation (xcstringsData : val)
    (targets : list jsstring) (sourceLanguageForText : option jsstring)
  : M StringAnalysisResult :=
  do modifiedXcstringsData <- jsonClone xcstringsData;
  do strs <- get modifiedXcstringsData (js "strings");
  do ks <- ownKeys strs;
  foldM (analyzeKey targets sourceLanguageForText)
        (mkResult [] emptyChanges ∅ modifiedXcstringsData false 0) ks.

(** *** The merge loop of [run] *)

(** Lines 96-108. *)
Definition applyTranslation (k : jsstring) (stringEntry : val)
    (translationInfo : TranslationInfo) (c : TranslationChanges)
    (p : jsstring * jsstring) : M TranslationChanges :=
  let '(lang, translatedValue) := p in
  if bool_decide (lang ∈ languages translationInfo) then
    do locs <- get stringEntry (js "localizations");
    do loc <- get locs lang;
    do u <- alloc [(js "state", VString (js "translated"));
                   (js "value", VString translatedValue)];
    do _ <- set loc (js "stringUnit") u;
    ret (if bool_decide (isNew translationInfo !! lang = Some true)
         then mkChanges (added c ++ [changeKey k lang]) (updated c) (staleRemoved c)
         else mkChanges (added c) (updated c ++ [changeKey k lang]) (staleRemoved c))
  else ret c.

(** Lines 86-109; the ledger and the warnings are the accumulator. *)
Definition mergeItem (r : StringAnalysisResult)
    (acc : TranslationChanges * list jsstring) (translationResult : BatchItem)
  : M (TranslationChanges * list jsstring) :=
  let k := itemKey translationResult in
  do strs <- get (modifiedXcstringsData r) (js "strings");
  do stringEntry <- get strs k;
  match stringTranslationMap r !! k with
  | Some translationInfo =>
      if truthy stringEntry then
        do c <- foldM (applyTranslation k stringEntry translationInfo) acc.1
                      (translations translationResult);
        ret (c, acc.2)
      else ret (acc.1, acc.2 ++ [unknownKeyWarning k])
  | None => ret (acc.1, acc.2 ++ [unknownKeyWarning k])
  end.

(** Lines 67-111 of [run]: the analysis, then, when there are requests,
    the merge of the provider's [response]. *)
Definition run (xcstringsData : val) (targets : list jsstring)
    (sourceLanguageForText : option jsstring) (response : list BatchItem)
  : M (StringAnalysisResult * TranslationChanges * list jsstring) :=
  do r <- analyzeStringsForTranslation xcstringsData targets sourceLanguageForText;
  if bool_decide (0 < length (translationRequests r)) then
    do m <- foldM (mergeItem r) (translationChanges r, []) response;
    ret (r, m.1, m.2)
  else ret (r, translationChanges r, []).

(** *** Catalogs in the heap *)

(** The caller's catalog: [JSON.parse] of the file, in an empty heap. *)
Definition load (d : XCStrings) : outcome val * heap := parse (catalogJson d) [].

(** [v] refers to an object of the heap, if to any. *)
Definition within (h : heap) (v : val) : Prop :=
  match v with
  | VObject l => l < length h
  | _ => True
  end.

#[global] Instance within_dec h v : Decision (within h v).
Proof. destruct v; simpl; apply _. Defined.


(** [v] is no reference to an object at an address below [n]. *)
Definition fresh (n : nat) (v : val) : Prop :=
  match v with
  | VObject l => n ≤ l
  | _ => True
  end.

Definition freshObject (n : nat) (o : object) : Prop :=
  ∀ k v, (k, v) ∈ o → fresh n v.



(** Nesting depth of the objects of a text. *)
Fixpoint depth (j : json) : nat :=
  match j with
  | JObject ms => S (foldr (λ m d, depth m.2 `max` d) 0 ms)
  | _ => 0
  end.

(** A text whose objects name each member once. *)
Fixpoint wfJson (j : json) : Prop :=
  match j with
  | JObject ms => NoDup ms.*1 ∧ foldr (λ m P, wfJson m.2 ∧ P) True ms
  | _ => True
  end.

(** A catalog whose tables name each key and each language once. *)
Definition wfCatalog (d : XCStrings) : Prop :=
  wfObj (strings d)
  ∧ Forall (λ p : jsstring * StringEntry,
              from_option wfObj True (localizations p.2)) (strings d).

(** [JSON.parse] of the text [j] returns, allocating at least as many
    objects as [j] is deep, and [JSON.stringify] of what it returns is
    [j] again, in that heap and in any later heap that only has more
    objects. *)
Definition roundTrips (j : json) : Prop :=
  ∀ h, ∃ v t,
    parse j h = (Return v, h ++ t)
    ∧ depth j ≤ length t
    ∧ fresh (length h) v
    ∧ ∀ t' fuel, depth j ≤ fuel →
        stringify fuel (h ++ t ++ t') v = Some (Some j).

(** The heap and the reference [JSON.parse] of a catalog's text gives. *)
Definition loaded (d : XCStrings) : val * heap :=
  match load d with
  | (Return v, h) => (v, h)
  | (Throw, h) => (VUndefined, h)
  end.

(** A request of this module as a request of the value-level analyzer. *)
Definition requestValue (q : TranslationRequest) : ValueRequest :=
  mkValueRequest (key q) (text q) (targetLanguages q)
    (match comment q with
     | VString s => Some s
     | _ => None
     end).

End Store.

(** ** Vocabulary of the specification *)

Definition isStale (e : StringEntry) : bool :=
  strictEq (extractionState e) (js "stale").

Definition optedOut (e : StringEntry) : bool :=
  bool_decide (shouldTranslate e = Some false).

(** Empty or whitespace-only. *)
Definition blank (s : jsstring) : Prop := Forall (λ c, isWhiteSpace c = true) s.

Definition valueOf (l : Localization) : option jsstring := stringUnit l ≫= value.
Definition stateOf (l : Localization) : option jsstring := stringUnit l ≫= state.

(** The specification's condition for a language to need translation,
    given the key's localization entry for it, if any: the entry is
    absent, or its value is absent, empty or whitespace-only, or its
    state is [needs_review]. *)
Definition needsWork (l : option Localization) : Prop :=
  match l with
  | None => True
  | Some l =>
      valueOf l = None
      ∨ (∃ v, valueOf l = Some v ∧ blank v)
      ∨ stateOf l = Some (js "needs_review")
  end.

(** The localization entry of [lang] in a catalog entry. *)
Definition localizationOf (e : StringEntry) (lang : jsstring) : option Localization :=
  localizations e ≫= (λ locs, getProp locs lang).

(** The languages the need index holds for key [k] (none when it has no
    record for [k]). *)
Definition languagesNeededFor (r : StringAnalysisResult) (k : jsstring) : list jsstring :=
  from_option languages [] (stringTranslationMap r !! k).

Definition isNewFor (r : StringAnalysisResult) (k lang : jsstring) : option bool :=
  stringTranslationMap r !! k ≫= (λ i, isNew i !! lang).

(** What the loop makes of one entry. *)
Definition normalized (e : StringEntry) : StringEntry :=
  withLocalizations e (default [] (localizations e)).

Definition keptEntry (p : jsstring * StringEntry) : option (jsstring * StringEntry) :=
  if isStale p.2 then None
  else if optedOut p.2 then Some p
  else Some (p.1, normalized p.2).

Definition infoOf (targets : list jsstring) (e : StringEntry) : option TranslationInfo :=
  if isStale e then None
  else if optedOut e then None
  else
    let r := checkLanguages (default [] (localizations e)) targets in
    if bool_decide (0 < length r.1) then Some (mkInfo r.1 r.2) else None.

Definition candidateOf (hint : option jsstring) (e : StringEntry) : option jsstring :=
  sourceTextCandidate hint (default [] (localizations e)).

Definition requestOf (targets : list jsstring) (hint : option jsstring)
    (p : jsstring * StringEntry) : option TranslationRequest :=
  (λ i, mkRequest p.1 (sourceText p.1 (candidateOf hint p.2)) (languages i) (comment p.2))
    <$> infoOf targets p.2.

(** The request for this entry, if any, used the key as its text. *)
Definition fellBack (targets : list jsstring) (hint : option jsstring)
    (p : jsstring * StringEntry) : bool :=
  bool_decide (is_Some (infoOf targets p.2)) && useKeyFallback (candidateOf hint p.2).

(** A source-language hint is supplied when [sourceLanguageForText] is
    truthy: a string that is not empty (the caller passes
    [sourceLanguageInput || undefined]). *)
Definition hintSupplied (hint : option jsstring) (h : jsstring) : Prop :=
  hint = Some h ∧ h ≠ [].

(** The entry that stays in the working copy, if it stays. *)
Definition keptOf (e : StringEntry) : option StringEntry :=
  if isStale e then None
  else if optedOut e then Some e
  else Some (normalized e).

(** Number of times [k] occurs in [l]. *)
Definition occurrences (k : jsstring) (l : list jsstring) : nat :=
  length (filter (λ x, x = k) l).

(** The request [q], built for the catalog entry [e], took the key as
    its text. *)
Definition keyFallback (hint : option jsstring) (e : StringEntry) : bool :=
  useKeyFallback (candidateOf hint e).

Definition requestFellBack (data : XCStrings) (hint : option jsstring)
    (q : TranslationRequest) : bool :=
  from_option (keyFallback hint) false (getProp (strings data) (key q)).

(** The records the loop leaves in the need index for a run of entries. *)
Definition recordNeeds (targets : list jsstring)
    (m : gmap jsstring TranslationInfo) (s : obj StringEntry)
  : gmap jsstring TranslationInfo :=
  foldl (λ m p, match infoOf targets p.2 with
                | Some i => <[p.1 := i]> m
                | None => m
                end) m s.

Definition staleKeys (s : obj StringEntry) : list jsstring :=
  keys (filter (λ p, isStale p.2 = true) s).

Definition translatedUnit (v : jsstring) : StringUnit :=
  mkStringUnit (Some (js "translated")) (Some v).

(** Every identifier in the ledger was built from a key of the need index
    and one of the languages that key needs. *)
Definition ledgerSound (needs : gmap jsstring TranslationInfo)
    (st : MergeState) : Prop :=
  ∀ id, id ∈ added (changes st) ∨ id ∈ updated (changes st) →
    ∃ k lang info, id = changeKey k lang ∧ needs !! k = Some info
                   ∧ lang ∈ languages info.

(** What [added] and [updated] are made of: an identifier of [added] is
    of a needed language recorded as new, one of [updated] of a needed
    language not recorded as new. *)
Definition classified (needs : gmap jsstring TranslationInfo)
    (st : MergeState) : Prop :=
  (∀ id, id ∈ added (changes st) →
     ∃ k lang info, id = changeKey k lang ∧ needs !! k = Some info
       ∧ lang ∈ languages info ∧ isNew info !! lang = Some true)
  ∧ (∀ id, id ∈ updated (changes st) →
       ∃ k lang info, id = changeKey k lang ∧ needs !! k = Some info
         ∧ lang ∈ languages info ∧ isNew info !! lang ≠ Some true).

(** The code unit of ["("]. *)
Definition lparen : N := 40.

(** Two keys and two language codes, one with a parenthesis, whose
    identifiers coincide. *)
Definition collisionCatalog : XCStrings :=
  catalogOf
    [(js "a", entryWith (Some [(js "b) (c", unit_ "translated" "")]));
     (js "a (b)", entryWith (Some []))].

Definition collisionResponse : list BatchItem :=
  [mkItem (js "a") [(js "b) (c", js "x")];
   mkItem (js "a (b)") [(js "c", js "y")]].

(** ** Vocabulary of the merge loop *)

(** The localization a catalog has for a key and a language. *)
Definition locOf (s : obj StringEntry) (k lang : jsstring) : option Localization :=
  getProp s k ≫= λ e, localizationOf e lang.

(** What the merge never writes of an entry. *)
Definition metaOf (s : obj StringEntry) (k : jsstring)
  : option (option jsstring * option jsstring * option bool) :=
  (λ e, (comment e, extractionState e, shouldTranslate e)) <$> getProp s k.

(** A translation of the response with the key of its item:
    (key, (language, value)). *)
Abbreviation answer := (jsstring * (jsstring * jsstring))%type.

(** The translations of a response item that pass the tests of lines 91
    and 96: the item's key is in the catalog and in the need index, and
    the language is one the key needs. *)
Definition acceptedOf (needs : gmap jsstring TranslationInfo)
    (s : obj StringEntry) (item : BatchItem) : list answer :=
  match getProp s (itemKey item), needs !! itemKey item with
  | Some _, Some info =>
      (itemKey item,.) <$> filter (λ p, p.1 ∈ languages info) (translations item)
  | _, _ => []
  end.

Definition accepted (needs : gmap jsstring TranslationInfo)
    (s : obj StringEntry) (response : list BatchItem) : list answer :=
  response ≫= acceptedOf needs s.

(** The keys of the response that fail the test of line 91. *)
Definition unknownKeys (needs : gmap jsstring TranslationInfo)
    (s : obj StringEntry) (response : list BatchItem) : list jsstring :=
  filter (λ k, getProp s k = None ∨ needs !! k = None) (itemKey <$> response).

(** The languages of the [localizations] table of a key, in the table's
    order. *)
Definition tableKeys (s : obj StringEntry) (k : jsstring) : option (list jsstring) :=
  keys <$> (getProp s k ≫= localizations).

(** Does the write of line 97 find an object to write to: the key's
    entry has a [localizations] table, and the table has the language or
    the language is the name of a member of [Object.prototype]. *)
Definition lands (s : obj StringEntry) (t : answer) : bool :=
  match tableKeys s t.1 with
  | Some langs => bool_decide (t.2.1 ∈ langs) || inheritedName t.2.1
  | None => false
  end.

(** The accepted translations up to the first one whose write throws. *)
Fixpoint writable (s : obj StringEntry) (ts : list answer) : list answer :=
  match ts with
  | [] => []
  | t :: ts' => if lands s t then t :: writable s ts' else []
  end.

(** A localization after the writes of the loop: an entry that exists
    takes the value written to it, with state [translated]; where there
    is no entry there is none afterwards. *)
Definition written (l : option Localization) (v : option jsstring)
  : option Localization :=
  match l, v with
  | Some _, Some v => Some (mkLocalization (Some (translatedUnit v)))
  | _, _ => l
  end.

(** The last value among [ts] for a key and a language. *)
Definition answerOf (ts : list answer) (k lang : jsstring) : option jsstring :=
  last (omap (λ t : answer,
                if bool_decide (t.1 = k ∧ t.2.1 = lang) then Some t.2.2 else None) ts).

Definition recordedNew (needs : gmap jsstring TranslationInfo) (t : answer) : bool :=
  bool_decide (needs !! t.1 ≫= (λ i, isNew i !! t.2.1) = Some true).

Definition ledgerId (t : answer) : jsstring := changeKey t.1 t.2.1.

(** [st'] is [st] after the writes of [ts]. *)
Definition mergedFrom (needs : gmap jsstring TranslationInfo)
    (st : MergeState) (ts : list answer) (st' : MergeState) : Prop :=
  keys (strings (updatedXcstringsData st')) = keys (strings (updatedXcstringsData st))
  ∧ sourceLanguage (updatedXcstringsData st') = sourceLanguage (updatedXcstringsData st)
  ∧ version (updatedXcstringsData st') = version (updatedXcstringsData st)
  ∧ (∀ k, metaOf (strings (updatedXcstringsData st')) k
          = metaOf (strings (updatedXcstringsData st)) k)
  ∧ (∀ k, tableKeys (strings (updatedXcstringsData st')) k
          = tableKeys (strings (updatedXcstringsData st)) k)
  ∧ (∀ k lang, locOf (strings (updatedXcstringsData st')) k lang
               = written (locOf (strings (updatedXcstringsData st)) k lang)
                         (answerOf ts k lang))
  ∧ staleRemoved (changes st') = staleRemoved (changes st)
  ∧ added (changes st')
    = added (changes st) ++ (ledgerId <$> filter (λ t, recordedNew needs t = true) ts)
  ∧ updated (changes st')
    = updated (changes st) ++ (ledgerId <$> filter (λ t, recordedNew needs t = false) ts).

Definition isNormal (c : completion) : bool :=
  match c with Normal _ => true | TypeError _ => false end.

(** A catalog whose only key has a German translation to review and an
    empty French one, and a response that answers both. *)
Definition reviewCatalog : XCStrings :=
  catalogOf
    [(js "Hello",
      entryWith (Some [(js "en", unit_ "translated" "Hello");
                       (js "de", unit_ "needs_review" "Hallo");
                       (js "fr", unit_ "translated" "")]))].

Definition reviewTargets : list jsstring := [js "de"; js "fr"].

Definition reviewResponse : list BatchItem :=
  [mkItem (js "Hello") [(js "de", js "Hallo!"); (js "fr", js "Bonjour")]].

(** Two target languages for [reviewCatalog], one with an empty
    translation and one without an entry, and a response for both. *)
Definition mixedTargets : list jsstring := [js "fr"; js "it"].

Definition mixedResponse : list BatchItem :=
  [mkItem (js "Hello") [(js "fr", js "Bonjour"); (js "it", js "Ciao")]].

(** A response for [helloCatalog] asked for the language [constructor]. *)
Definition constructorResponse : list BatchItem :=
  [mkItem (js "Hello") [(js "constructor", js "Konstruktor")]].

(** ** Vocabulary of the analyzer of part_000 *)

(** Every language of the accumulator's list has an entry in its
    localizations, or is the name of a member of [Object.prototype]. *)
Definition materialized (acc : obj Localization * list jsstring * gmap jsstring bool)
  : Prop :=
  ∀ lang, lang ∈ acc.1.2 →
    is_Some (getProp acc.1.1 lang) ∨ inheritedName lang = true.

(** Every language the need index lists for a key has a localization
    entry under that key in the working copy, or is the name of a member
    of [Object.prototype] and the key has a [localizations] table: the
    write of line 97 finds an object to write to. *)
Definition entriesMaterialized (st : Part000.StringAnalysisResult) : Prop :=
  ∀ k info lang e,
    Part000.stringTranslationMap st !! k = Some info → lang ∈ languages info →
    getProp (strings (Part000.modifiedXcstringsData st)) k = Some e →
    is_Some (localizationOf e lang)
    ∨ (is_Some (localizations e) ∧ inheritedName lang = true).

(** ** The inputs of [run] (src/unnamed/part_001, index.ts) *)

(** The code unit of [","]. *)
Definition comma : N := 44.

(** [s.split(sep)] for a separator of one code unit: the pieces between
    its occurrences, one more than there are occurrences. *)
Fixpoint split (sep : N) (s : jsstring) : list jsstring :=
  match s with
  | [] => [[]]
  | c :: s' =>
      if (c =? sep)%N then [] :: split sep s'
      else match split sep s' with
           | p :: ps => (c :: p) :: ps
           | [] => [[c]]
           end
  end.

(** [l.join(sep)] *)
Fixpoint join (sep : jsstring) (l : list jsstring) : jsstring :=
  match l with
  | [] => []
  | x :: l' =>
      match l' with
      | [] => x
      | _ :: _ => x ++ sep ++ join sep l'
      end
  end.

(** Line 23:
    [targetLanguagesInput.split(',').map(lang => lang.trim()).filter(lang => lang)]. *)
Definition targetLanguagesOf (targetLanguagesInput : jsstring) : list jsstring :=
  filter (λ lang, falsyString (Some lang) = false)
         (trim <$> split comma targetLanguagesInput).

(** A language code as line 23 yields them. *)
Definition cleanCode (lang : jsstring) : Prop :=
  lang ≠ [] ∧ (comma ∉ lang) ∧ trim lang = lang.

(** [core.getInput(name, { required: true })]. [core] is the library
    @actions/core, which is not among the sources; this is its contract
    for a required input: the value is the one the workflow gives, the
    empty string when it gives none; an empty value throws an [Error]
    with the message below, and any other value is returned with the
    whitespace at its ends removed. *)
Definition requiredInputMessage (name : jsstring) : jsstring :=
  js "Input required and not supplied: " ++ name.

Definition getRequiredInput (name value : jsstring) : jsstring + jsstring :=
  if falsyString (Some value) then inr (requiredInputMessage name)
  else inl (trim value).

(** How lines 22-38 of [run] end: with the target languages, or with a
    failure reported by [core.setFailed], at line 36 or, for the error
    that line 22 throws, at line 200 with the error's message. *)
Inductive TargetsResult :=
  | Targets (targetLanguages : list jsstring)
  | SetFailed (message : jsstring).

(** Lines 22, 23 and 35-38, for the value the workflow gives to the
    input [target_languages]. The inputs read at lines 21 and 24-26 are
    not required and reading them does not throw. *)
Definition readTargetLanguages (value : jsstring) : TargetsResult :=
  match getRequiredInput (js "target_languages") value with
  | inr message => SetFailed message
  | inl targetLanguagesInput =>
      let targetLanguages := targetLanguagesOf targetLanguagesInput in
      if bool_decide (length targetLanguages = 0)
      then SetFailed (js "No target languages specified.")
      else Targets targetLanguages
  end.

(** Line 128: is the catalog written to the file? *)
Definition fileWritten (xcstringsModified : bool) (c : TranslationChanges) : bool :=
  xcstringsModified
  || bool_decide (0 < length (added c))
  || bool_decide (0 < length (updated c)).

(** Line 142. *)
Definition totalChanges (c : TranslationChanges) : nat :=
  length (added c) + length (updated c) + length (staleRemoved c).

(** ** The provider call (src/unnamed/part_001, openaiService.ts) *)

(** [[...new Set(l)]]: the elements of [l], each once, in the order of
    their first occurrence. *)
Definition setOf (l : list jsstring) : list jsstring :=
  foldl (λ seen x, if bool_decide (x ∈ seen) then seen else seen ++ [x]) [] l.

(** Line 251:
    [[...new Set(requests.flatMap(req => req.targetLanguages))]]. *)
Definition allTargetLanguages (requests : list TranslationRequest) : list jsstring :=
  setOf (requests ≫= targetLanguages).

(** Lines 350-352: the requested keys that no item of the response has. *)
Definition missingKeys (requests : list TranslationRequest)
    (batchResponse : list BatchItem) : list jsstring :=
  filter (λ k, k ∉ itemKey <$> batchResponse) (key <$> requests).

(** Line 355: [missingKeys.slice(0, 10)]. *)
Definition missingPreview (requests : list TranslationRequest)
    (batchResponse : list BatchItem) : list jsstring :=
  take 10 (missingKeys requests batchResponse).

(** ** Writing the catalog (src/unnamed/part_001, formatXcstringsJson) *)

(** The code units of the double quote, the backslash, the colon, the
    space, the line feed and the two braces. *)
Definition dquote : N := 34.
Definition backslash : N := 92.
Definition colon : N := 58.
Definition space : N := 32.
Definition lineFeed : N := 10.
Definition lbrace : N := 123.
Definition rbrace : N := 125.

(** *** [JSON.stringify(obj, null, 2)] *)

(** A hexadecimal digit, in lower case. *)
Definition hexDigit (n : N) : N := (if n <? 10 then 48 + n else 87 + n)%N.

(** [UnicodeEscape]: a backslash, [u] and four hexadecimal digits. *)
Definition unicodeEscape (c : N) : jsstring :=
  [backslash; 117%N; hexDigit (c / 4096 mod 16); hexDigit (c / 256 mod 16);
   hexDigit (c / 16 mod 16); hexDigit (c mod 16)].

Definition isLeadingSurrogate (c : N) : bool := ((55296 <=? c) && (c <=? 56319))%N.
Definition isTrailingSurrogate (c : N) : bool := ((56320 <=? c) && (c <=? 57343))%N.

(** [QuoteJSONString] between its two quotes: the seven short escapes,
    [UnicodeEscape] for the other code units below the space and for a
    surrogate that is not part of a pair, and every other code unit as
    it is. *)
Fixpoint quoteBody (s : jsstring) : jsstring :=
  match s with
  | [] => []
  | c :: s' =>
      if (c =? 8)%N then backslash :: 98%N :: quoteBody s'
      else if (c =? 9)%N then backslash :: 116%N :: quoteBody s'
      else if (c =? 10)%N then backslash :: 110%N :: quoteBody s'
      else if (c =? 12)%N then backslash :: 102%N :: quoteBody s'
      else if (c =? 13)%N then backslash :: 114%N :: quoteBody s'
      else if (c =? 34)%N then backslash :: dquote :: quoteBody s'
      else if (c =? 92)%N then backslash :: backslash :: quoteBody s'
      else if (c <? 32)%N then unicodeEscape c ++ quoteBody s'
      else if isLeadingSurrogate c then
        match s' with
        | d :: s'' =>
            if isTrailingSurrogate d then c :: d :: quoteBody s''
            else unicodeEscape c ++ quoteBody s'
        | [] => unicodeEscape c
        end
      else if isTrailingSurrogate c then unicodeEscape c ++ quoteBody s'
      else c :: quoteBody s'
  end.

Definition quoteJSONString (s : jsstring) : jsstring :=
  dquote :: quoteBody s ++ [dquote].

(** The indentation of nesting level [n], with a gap of two spaces. *)
Definition indentation (n : nat) : jsstring := replicate (2 * n) space.

(** [SerializeJSONProperty] with a gap: [sep] stands between a member's
    name and its value, a colon and a space in [JSON.stringify]. *)
Fixpoint serialize (sep : jsstring) (level : nat) (j : Store.json) : jsstring :=
  match j with
  | Store.JBool b => if b then js "true" else js "false"
  | Store.JString s => quoteJSONString s
  | Store.JObject ms =>
      match ms with
      | [] => js "{}"
      | _ :: _ =>
          [lbrace; lineFeed] ++ indentation (S level)
          ++ join ([comma; lineFeed] ++ indentation (S level))
               ((λ m, quoteJSONString m.1 ++ sep ++ serialize sep (S level) m.2) <$> ms)
          ++ [lineFeed] ++ indentation level ++ [rbrace]
      end
  end.

Definition stringify2 (obj : Store.json) : jsstring := serialize [colon; space] 0 obj.

(** One member of an object at nesting level [level], and what stands
    between two members. *)
Definition memberText (level : nat) (sep : jsstring) (m : jsstring * Store.json)
  : jsstring :=
  quoteJSONString m.1 ++ sep ++ serialize sep (S level) m.2.

Definition memberSeparator (level : nat) : jsstring :=
  [comma; lineFeed] ++ indentation (S level).

(** *** The replacement of line 16 *)

(** [.] without the [s] flag matches no line terminator. *)
Definition isLineTerminator (c : N) : bool :=
  ((c =? 10) || (c =? 13) || (c =? 8232) || (c =? 8233))%N.

(** The string part of the pattern of line 16 on the text after an
    opening quote: any number of characters that are neither a quote nor
    a backslash, or of pairs of a backslash and a character, and then a
    quote. The result is what was matched, closing quote included, and
    the text after it. The two alternatives begin with different
    characters and neither matches a quote, so the match from a given
    start is the only one. *)
Fixpoint scanString (t : jsstring) : option (jsstring * jsstring) :=
  match t with
  | [] => None
  | c :: t' =>
      if (c =? dquote)%N then Some ([dquote], t')
      else if (c =? backslash)%N then
        match t' with
        | d :: t'' =>
            if isLineTerminator d then None
            else (λ r, (c :: d :: r.1, r.2)) <$> scanString t''
        | [] => None
        end
      else (λ r, (c :: r.1, r.2)) <$> scanString t'
  end.

(** [\s*:] *)
Definition colonNext (t : jsstring) : option jsstring :=
  match trimStart t with
  | c :: t' => if (c =? colon)%N then Some t' else None
  | [] => None
  end.

(** The pattern of line 16 at the start of [t]: a string, whitespace,
    a colon. The result is group 1 and the text after the match. *)
Definition matchKey (t : jsstring) : option (jsstring * jsstring) :=
  match t with
  | c :: t' =>
      if (c =? dquote)%N then
        match scanString t' with
        | Some (body, rest) => (λ rest', (dquote :: body, rest')) <$> colonNext rest
        | None => None
        end
      else None
  | [] => None
  end.

(** The global replacement of line 16, of each match by its group 1, a
    space and a colon: the matches are taken from left to right, each
    search starting where the match before it ended. [fuel] bounds the
    number of steps; the length of [t] is enough. *)
Fixpoint replaceKeys (fuel : nat) (t : jsstring) : jsstring :=
  match fuel with
  | 0 => t
  | S fuel =>
      match matchKey t with
      | Some (group1, rest) => group1 ++ [space; colon] ++ replaceKeys fuel rest
      | None =>
          match t with
          | c :: t' => c :: replaceKeys fuel t'
          | [] => []
          end
      end
  end.

Definition replaceAll (t : jsstring) : jsstring := replaceKeys (length t) t.

(** Lines 13-17. *)
Definition formatXcstringsJson (obj : Store.json) : jsstring :=
  let jsonString := stringify2 obj in
  replaceAll jsonString.

(** A member name that, after whitespace that [JSON.stringify] writes as
    it is, begins with a colon. *)
Fixpoint colonFirst (k : jsstring) : bool :=
  match k with
  | [] => false
  | c :: k' =>
      if (c =? colon)%N then true
      else if isWhiteSpace c && (32 <=? c)%N then colonFirst k'
      else false
  end.

(** No member name of the text, at any depth, begins with a colon. *)
Fixpoint plainKeys (j : Store.json) : Prop :=
  match j with
  | Store.JObject ms => foldr (λ m P, colonFirst m.1 = false ∧ plainKeys m.2 ∧ P) True ms
  | _ => True
  end.

(** A catalog whose keys and language codes do not begin with a colon. *)
Definition plainCatalog (d : XCStrings) : Prop :=
  Forall (λ p : jsstring * StringEntry,
            colonFirst p.1 = false
            ∧ from_option (Forall (λ q : jsstring * Localization,
                                     colonFirst q.1 = false))
                          True (localizations p.2))
         (strings d).

(** An object whose second member has a name that begins with a colon. *)
Definition colonObject : Store.json :=
  Store.JObject [(js "a", Store.JString (js "v")); (js ":b", Store.JBool true)].

(** What [QuoteJSONString] writes between the quotes: characters that
    are neither a quote nor a backslash, and pairs of a backslash and a
    character that is no line terminator. *)
Inductive escaped : jsstring → Prop :=
| escaped_nil : escaped []
| escaped_plain c t : c ≠ dquote → c ≠ backslash → escaped t → escaped (c :: t)
| escaped_pair d t :
    isLineTerminator d = false → escaped t → escaped (backslash :: d :: t).

(** * Properties *)

(** ** Strings *)

Lemma trimStart_nil_iff s : trimStart s = [] ↔ blank s.
Proof.
  unfold blank. induction s as [|c s IH]; simpl.
  - split; [constructor | done].
  - destruct (isWhiteSpace c) eqn:E.
    + rewrite IH. split; [by constructor | by inversion 1].
    + split; [done | inversion 1; congruence].
Qed.

Lemma trimStart_head s c s' : trimStart s = c :: s' → isWhiteSpace c = false.
Proof.
  induction s as [|d s IH]; simpl; [done|].
  destruct (isWhiteSpace d) eqn:E; [done | congruence].
Qed.

Lemma trimStart_split s :
  ∃ pre, s = pre ++ trimStart s ∧ blank pre.
Proof.
  induction s as [|c s (pre & Hs & Hpre)]; simpl.
  - exists []. split; [done | constructor].
  - destruct (isWhiteSpace c) eqn:E.
    + exists (c :: pre). split; [simpl; congruence | by constructor].
    + exists []. split; [done | constructor].
Qed.

Lemma blank_reverse s : blank (reverse s) ↔ blank s.
Proof. apply Forall_reverse. Qed.

Lemma trim_nil_iff s : trim s = [] ↔ blank s.
Proof.
  unfold trim, trimEnd. split.
  - intros H. apply (f_equal reverse) in H. rewrite reverse_involutive in H.
    apply trimStart_nil_iff in H. apply (proj1 (blank_reverse _)) in H.
    destruct (trimStart s) as [|c s'] eqn:E; [by apply trimStart_nil_iff|].
    apply trimStart_head in E. apply Forall_cons in H as [H _]. congruence.
  - intros H. apply trimStart_nil_iff in H. by rewrite H.
Qed.

Lemma trim_length_0 s : length (trim s) = 0 ↔ blank s.
Proof. rewrite <-trim_nil_iff. apply length_zero_iff_nil. Qed.

(** [trim] removes a whitespace prefix and a whitespace suffix and nothing
    else: what is left neither starts nor ends with whitespace. *)
Lemma trim_spec s :
  ∃ pre post,
    s = pre ++ trim s ++ post ∧ blank pre ∧ blank post
    ∧ (∀ c, head (trim s) = Some c → isWhiteSpace c = false)
    ∧ (∀ c, last (trim s) = Some c → isWhiteSpace c = false).
Proof.
  destruct (trimStart_split s) as (pre & Hs & Hpre).
  destruct (trimStart_split (reverse (trimStart s))) as (post & Hr & Hpost).
  exists pre, (reverse post). unfold trim, trimEnd.
  split; [|split; [done|split; [by apply blank_reverse|split]]].
  - rewrite <-reverse_app, <-Hr, reverse_involutive. done.
  - intros c Hc. rewrite head_reverse in Hc.
    apply (f_equal reverse) in Hr. rewrite reverse_involutive, reverse_app in Hr.
    destruct (trimStart (reverse (trimStart s))) as [|d t] eqn:E; [done|].
    destruct (trimStart s) as [|d' t'] eqn:E'; [done|].
    pose proof (trimStart_head _ _ _ E') as Hd.
    destruct (reverse (d :: t)) as [|x y] eqn:E2.
    { apply (f_equal length) in E2. rewrite length_reverse in E2. done. }
    assert (head (x :: y) = Some d') as Hh.
    { simpl in Hr. inversion Hr. done. }
    rewrite <-E2, head_reverse in Hh. congruence.
  - intros c Hc. rewrite last_reverse in Hc.
    destruct (trimStart (reverse (trimStart s))) as [|d t] eqn:E; [done|].
    pose proof (trimStart_head _ _ _ E) as Hd. simpl in Hc. congruence.
Qed.

(** ** Property tables *)

Section ObjFacts.
Context {V : Type}.
Implicit Types (o : obj V) (k : jsstring) (v : V).

Lemma getProp_None o k : getProp o k = None ↔ k ∉ keys o.
Proof.
  unfold keys. induction o as [|[k' v'] o IH]; simpl.
  - split; [intros _; apply not_elem_of_nil | done].
  - rewrite not_elem_of_cons. destruct (decide (k' = k)) as [->|Hne].
    + split; [done | intros [? _]; congruence].
    + rewrite IH. intuition congruence.
Qed.

Lemma getProp_is_Some o k : is_Some (getProp o k) ↔ k ∈ keys o.
Proof.
  rewrite <-not_eq_None_Some, getProp_None.
  split; [apply dec_stable | by intros ? ?].
Qed.

Lemma getProp_Some_elem o k v : getProp o k = Some v → (k, v) ∈ o.
Proof.
  induction o as [|[k' v'] o IH]; simpl; [done|].
  destruct (decide (k' = k)) as [->|Hne].
  - intros [= ->]. apply list_elem_of_here.
  - intros H. apply list_elem_of_further. auto.
Qed.

Lemma getProp_elem o k v : wfObj o → (k, v) ∈ o → getProp o k = Some v.
Proof.
  unfold wfObj, keys. induction o as [|[k' v'] o IH]; simpl.
  - intros _ H. by apply elem_of_nil in H.
  - rewrite NoDup_cons. intros [Hk Hnd] H.
    apply elem_of_cons in H as [[= -> ->]|H].
    + by rewrite decide_True.
    + rewrite decide_False; [auto|]. intros ->. apply Hk.
      apply list_elem_of_fmap. by exists (k, v).
Qed.

Lemma getProp_app o1 o2 k :
  getProp (o1 ++ o2) k = match getProp o1 k with
                         | Some v => Some v
                         | None => getProp o2 k
                         end.
Proof.
  induction o1 as [|[k' v'] o1 IH]; simpl; [done|].
  by destruct (decide (k' = k)).
Qed.

Lemma getProp_middle o1 o2 k v :
  k ∉ keys o1 → getProp (o1 ++ (k, v) :: o2) k = Some v.
Proof.
  intros H. apply getProp_None in H. rewrite getProp_app, H. simpl.
  by rewrite decide_True.
Qed.

Lemma deleteProp_notin o k : k ∉ keys o → deleteProp o k = o.
Proof.
  unfold deleteProp, keys. induction o as [|[k' v'] o IH]; [done|].
  rewrite fmap_cons, not_elem_of_cons. intros [Hne H].
  rewrite filter_cons_True by (simpl in *; congruence). by rewrite IH.
Qed.

Lemma deleteProp_middle o1 o2 k v :
  k ∉ keys o1 → k ∉ keys o2 → deleteProp (o1 ++ (k, v) :: o2) k = o1 ++ o2.
Proof.
  intros H1 H2. unfold deleteProp.
  rewrite filter_app, filter_cons_False by (simpl; auto).
  fold (deleteProp o1 k) (deleteProp o2 k).
  by rewrite !deleteProp_notin.
Qed.

Lemma setProp_middle o1 o2 k v v' :
  k ∉ keys o1 → setProp (o1 ++ (k, v) :: o2) k v' = o1 ++ (k, v') :: o2.
Proof.
  unfold keys. induction o1 as [|[k1 v1] o1 IH]; simpl.
  - intros _. by rewrite decide_True.
  - rewrite not_elem_of_cons. intros [Hne H].
    rewrite decide_False by congruence. by rewrite IH.
Qed.

Lemma getProp_setProp o k v k' :
  getProp (setProp o k v) k' = if decide (k = k') then Some v else getProp o k'.
Proof.
  induction o as [|[k1 v1] o IH]; simpl.
  - by destruct (decide (k = k')).
  - destruct (decide (k1 = k)) as [->|Hne]; simpl.
    + by destruct (decide (k = k')).
    + rewrite IH. destruct (decide (k1 = k')) as [->|]; [|done].
      by rewrite decide_False.
Qed.

Lemma keys_setProp_in o k v : k ∈ keys o → keys (setProp o k v) = keys o.
Proof.
  unfold keys. induction o as [|[k1 v1] o IH]; simpl.
  - intros H. by apply elem_of_nil in H.
  - intros H. destruct (decide (k1 = k)) as [->|Hne]; simpl; [done|].
    apply elem_of_cons in H as [?|H]; [congruence|]. f_equal. by apply IH.
Qed.

Lemma getProp_deleteProp o k k' :
  getProp (deleteProp o k) k' = if decide (k = k') then None else getProp o k'.
Proof.
  unfold deleteProp. induction o as [|[k1 v1] o IH].
  - simpl. by destruct (decide (k = k')).
  - destruct (decide (k1 = k)) as [->|Hne].
    + rewrite filter_cons_False by (simpl; auto). rewrite IH. simpl.
      by destruct (decide (k = k')).
    + rewrite filter_cons_True by (simpl; auto). simpl. rewrite IH.
      destruct (decide (k1 = k')) as [->|]; [|done].
      by rewrite decide_False.
Qed.
End ObjFacts.

(** ** The inner loop over the target languages *)

(** A member of [Object.prototype] read where a localization is
    expected has no string unit: for the need test and for the source
    text it is as if there were nothing, for [isNew] it is something. *)
Lemma readProp_stringUnit locs lang :
  readProp locs lang ≫= stringUnit = getProp locs lang ≫= stringUnit.
Proof.
  unfold readProp. destruct (getProp locs lang); [done|].
  by destruct (inheritedName lang).
Qed.

Lemma needsTranslationForLang_readProp locs lang :
  needsTranslationForLang (readProp locs lang)
  = needsTranslationForLang (getProp locs lang).
Proof.
  unfold needsTranslationForLang. by rewrite readProp_stringUnit.
Qed.

Lemma readProp_None locs lang :
  readProp locs lang = None
  ↔ getProp locs lang = None ∧ inheritedName lang = false.
Proof.
  unfold readProp. destruct (getProp locs lang); [by intuition|].
  destruct (inheritedName lang); by intuition.
Qed.

Lemma checkLanguages_fold locs targets acc :
  (foldl (checkLanguage locs) acc targets).1
  = acc.1 ++ filter (λ l, needsTranslationForLang (getProp locs l) = true) targets
  ∧ ∀ l, (foldl (checkLanguage locs) acc targets).2 !! l =
      if decide (l ∈ targets ∧ needsTranslationForLang (getProp locs l) = true)
      then Some (bool_decide (readProp locs l = None))
      else acc.2 !! l.
Proof.
  revert acc. induction targets as [|t targets IH]; intros acc.
  - split; [by rewrite app_nil_r|]. intros l.
    destruct (decide (l ∈ [] ∧ _)) as [[H _]|_]; [by apply elem_of_nil in H | done].
  - destruct (IH (checkLanguage locs acc t)) as [IH1 IH2].
    split.
    + simpl. rewrite IH1. unfold checkLanguage.
      rewrite needsTranslationForLang_readProp.
      destruct (needsTranslationForLang (getProp locs t)) eqn:E; simpl.
      * rewrite filter_cons_True by done. by rewrite <-app_assoc.
      * rewrite filter_cons_False by congruence. done.
    + intros l. simpl. rewrite IH2. unfold checkLanguage.
      rewrite needsTranslationForLang_readProp.
      destruct (decide (l ∈ targets ∧ _)) as [[Hin Hn]|Hno].
      * rewrite decide_True; [done|]. split; [by apply list_elem_of_further | done].
      * destruct (needsTranslationForLang (getProp locs t)) eqn:E; simpl.
        -- destruct (decide (t = l)) as [->|Hne].
           ++ rewrite lookup_insert_eq, decide_True; [done|].
              split; [apply list_elem_of_here | done].
           ++ rewrite lookup_insert_ne by done.
              rewrite decide_False; [done|]. intros [Hin Hn].
              apply elem_of_cons in Hin as [?|?]; [congruence | tauto].
        -- rewrite decide_False; [done|]. intros [Hin Hn].
           apply elem_of_cons in Hin as [->|?]; [congruence | tauto].
Qed.

Lemma checkLanguages_languages locs targets :
  (checkLanguages locs targets).1
  = filter (λ l, needsTranslationForLang (getProp locs l) = true) targets.
Proof. apply (checkLanguages_fold locs targets ([], ∅)). Qed.

Lemma checkLanguages_isNew locs targets l :
  (checkLanguages locs targets).2 !! l =
    if decide (l ∈ targets ∧ needsTranslationForLang (getProp locs l) = true)
    then Some (bool_decide (readProp locs l = None))
    else None.
Proof.
  destruct (checkLanguages_fold locs targets ([], ∅)) as [_ H].
  unfold checkLanguages. rewrite H. simpl. by rewrite lookup_empty.
Qed.

(** The code's test agrees with the specification's condition. *)
Lemma needsTranslationForLang_spec l :
  needsTranslationForLang l = true ↔ needsWork l.
Proof.
  unfold needsTranslationForLang, needsWork, valueOf, stateOf, strictEq.
  destruct l as [[[[st v]|]]|]; simpl; [| by intuition | done].
  rewrite orb_true_iff, orb_true_iff, bool_decide_eq_true.
  destruct v as [v|]; simpl.
  - rewrite bool_decide_eq_true, trim_length_0. split.
    + intros [[Hf|Hb]|Hs]; [|by right; left; eauto|by right; right].
      destruct v; [|done]. right; left. eexists; split; [done | constructor].
    + intros [?|[(v' & [= <-] & Hb)|Hs]]; [done| |]; auto.
  - split; auto.
Qed.

(** ** The loop over the catalog keys *)

Section AnalyzerLoop.
Variables (targets : list jsstring) (hint : option jsstring).

Lemma result_eta (st : StringAnalysisResult) :
  st = mkResult (translationRequests st) (translationChanges st)
                (stringTranslationMap st) (modifiedXcstringsData st)
                (xcstringsModified st) (fallbackToKeyCount st).
Proof. by destruct st. Qed.

Lemma withStrings_id d : withStrings d (strings d) = d.
Proof. by destruct d. Qed.

Lemma changes_eta c : mkChanges (added c) (updated c) (staleRemoved c) = c.
Proof. by destruct c. Qed.

Lemma staleKeys_cons k e rest :
  staleKeys ((k, e) :: rest)
  = if isStale e then k :: staleKeys rest else staleKeys rest.
Proof.
  unfold staleKeys, keys. rewrite filter_cons. simpl.
  destruct (isStale e); by repeat case_decide.
Qed.

Lemma fellBack_cons p rest :
  length (filter (λ p, fellBack targets hint p = true) (p :: rest))
  = (if fellBack targets hint p then 1 else 0)
    + length (filter (λ p, fellBack targets hint p = true) rest).
Proof.
  rewrite filter_cons. destruct (fellBack targets hint p); by case_decide.
Qed.

Lemma anyStale_cons k e rest :
  bool_decide (Exists (λ p : jsstring * StringEntry, isStale p.2 = true) ((k, e) :: rest))
  = isStale e || bool_decide (Exists (λ p : jsstring * StringEntry, isStale p.2 = true) rest).
Proof.
  destruct (isStale e) eqn:E; simpl.
  - apply bool_decide_eq_true_2. by apply Exists_cons_hd.
  - apply bool_decide_ext. rewrite Exists_cons. simpl. intuition congruence.
Qed.

(** One round of the loop on an entry still in place. *)
Lemma analyzeKey_at pre rest st k e :
  k ∉ keys pre → k ∉ keys rest →
  strings (modifiedXcstringsData st) = pre ++ (k, e) :: rest →
  analyzeKey targets hint st k =
    mkResult
      (translationRequests st ++ option_list (requestOf targets hint (k, e)))
      (mkChanges (added (translationChanges st))
                 (updated (translationChanges st))
                 (staleRemoved (translationChanges st)
                  ++ if isStale e then [k] else []))
      (match infoOf targets e with
       | Some i => <[k := i]> (stringTranslationMap st)
       | None => stringTranslationMap st
       end)
      (withStrings (modifiedXcstringsData st)
                   (pre ++ option_list (keptEntry (k, e)) ++ rest))
      (xcstringsModified st || isStale e)
      (fallbackToKeyCount st + if fellBack targets hint (k, e) then 1 else 0).
Proof.
  intros Hk1 Hk2 Hs. unfold analyzeKey. rewrite Hs, getProp_middle by done.
  unfold analyzeEntry, requestOf, keptEntry, fellBack, infoOf, candidateOf,
    normalized, isStale, optedOut. simpl. rewrite Hs.
  destruct (strictEq (extractionState e) (js "stale")) eqn:Estale; simpl.
  { rewrite deleteProp_middle, app_nil_r, orb_true_r, Nat.add_0_r by done. done. }
  destruct (bool_decide (shouldTranslate e = Some false)) eqn:Eopt; simpl.
  { rewrite <-Hs, withStrings_id, !app_nil_r, orb_false_r, Nat.add_0_r, changes_eta.
    apply result_eta. }
  rewrite setProp_middle by done.
  destruct (checkLanguages (default [] (localizations e)) targets)
    as [ls m] eqn:Echeck. simpl.
  destruct (bool_decide (0 < length ls)) eqn:Elen; simpl.
  - rewrite app_nil_r, orb_false_r, changes_eta.
    destruct (useKeyFallback _); [done | by rewrite Nat.add_0_r].
  - by rewrite !app_nil_r, orb_false_r, Nat.add_0_r, changes_eta.
Qed.

(** The loop from a state whose working catalog is [pre ++ rest], with
    the entries of [rest] still to visit, in closed form. *)
Lemma analyze_loop rest : ∀ pre st,
  NoDup (keys (pre ++ rest)) →
  strings (modifiedXcstringsData st) = pre ++ rest →
  foldl (analyzeKey targets hint) st (keys rest) =
    mkResult
      (translationRequests st ++ omap (requestOf targets hint) rest)
      (mkChanges (added (translationChanges st))
                 (updated (translationChanges st))
                 (staleRemoved (translationChanges st) ++ staleKeys rest))
      (recordNeeds targets (stringTranslationMap st) rest)
      (withStrings (modifiedXcstringsData st) (pre ++ omap keptEntry rest))
      (xcstringsModified st
       || bool_decide (Exists (λ p : jsstring * StringEntry, isStale p.2 = true) rest))
      (fallbackToKeyCount st
       + length (filter (λ p, fellBack targets hint p = true) rest)).
Proof.
  induction rest as [|[k e] rest IH]; intros pre st Hnd Hs.
  - simpl. unfold staleKeys. rewrite filter_nil. simpl.
    rewrite <-Hs, withStrings_id, !app_nil_r, orb_false_r, Nat.add_0_r, changes_eta.
    apply result_eta.
  - assert ((k ∉ keys pre) ∧ (k ∉ keys rest)) as [Hk1 Hk2].
    { unfold keys in *. rewrite fmap_app, fmap_cons in Hnd.
      apply NoDup_app in Hnd as (_ & H1 & H2). apply NoDup_cons in H2 as [H2 _].
      split; [|done]. intros Hin. apply (H1 _ Hin). apply list_elem_of_here. }
    change (keys ((k, e) :: rest)) with (k :: keys rest).
    change (foldl (analyzeKey targets hint) st (k :: keys rest))
      with (foldl (analyzeKey targets hint) (analyzeKey targets hint st k) (keys rest)).
    rewrite (analyzeKey_at pre rest st k e) by done.
    rewrite (IH (pre ++ option_list (keptEntry (k, e)))); simpl.
    + rewrite staleKeys_cons, fellBack_cons, anyStale_cons.
      change (recordNeeds targets (stringTranslationMap st) ((k, e) :: rest))
        with (recordNeeds targets
                (match infoOf targets e with
                 | Some i => <[k := i]> (stringTranslationMap st)
                 | None => stringTranslationMap st
                 end) rest).
      rewrite <-!app_assoc, orb_assoc, Nat.add_assoc.
      destruct (requestOf targets hint (k, e)), (keptEntry (k, e)), (isStale e);
        done.
    + revert Hnd. unfold keys, keptEntry. simpl.
      destruct (isStale e); simpl.
      { rewrite app_nil_r, !fmap_app, fmap_cons, !NoDup_app, NoDup_cons.
        intros (? & H1 & _ & ?). split; [done|]. split; [|done].
        intros x Hx Hx'. apply (H1 x Hx). by apply list_elem_of_further. }
      by destruct (optedOut e); rewrite <-app_assoc, !fmap_app, !fmap_cons.
    + by rewrite app_assoc.
Qed.

(** The analyzer in closed form. *)
Lemma analyze_closed_form data :
  wfObj (strings data) →
  analyzeStringsForTranslation data targets hint =
    mkResult
      (omap (requestOf targets hint) (strings data))
      (mkChanges [] [] (staleKeys (strings data)))
      (recordNeeds targets ∅ (strings data))
      (withStrings data (omap keptEntry (strings data)))
      (bool_decide (Exists (λ p, isStale p.2 = true) (strings data)))
      (length (filter (λ p, fellBack targets hint p = true) (strings data))).
Proof.
  intros Hwf. unfold analyzeStringsForTranslation.
  by rewrite (analyze_loop (strings data) [] (initialResult data)).
Qed.

Lemma recordNeeds_lookup s : ∀ m k,
  wfObj s →
  recordNeeds targets m s !! k =
    match getProp s k ≫= infoOf targets with
    | Some i => Some i
    | None => m !! k
    end.
Proof.
  unfold wfObj, keys, recordNeeds.
  induction s as [|[k' e] s IH]; intros m k Hnd; [done|].
  rewrite fmap_cons in Hnd. apply NoDup_cons in Hnd as [Hk' Hnd].
  simpl. rewrite IH by done.
  destruct (decide (k' = k)) as [->|Hne]; simpl.
  - assert (getProp s k = None) as -> by by apply getProp_None.
    simpl. destruct (infoOf targets e); [by rewrite lookup_insert_eq | done].
  - destruct (getProp s k ≫= infoOf targets); [done|].
    destruct (infoOf targets e); [by rewrite lookup_insert_ne | done].
Qed.
End AnalyzerLoop.

(** ** Consequences of the closed form *)

Section AnalyzerFacts.
Variables (data : XCStrings) (targets : list jsstring) (hint : option jsstring).
Hypothesis Hwf : wfObj (strings data).

Let r := analyzeStringsForTranslation data targets hint.

Lemma analyze_strings :
  strings (modifiedXcstringsData r) = omap keptEntry (strings data).
Proof. unfold r. by rewrite analyze_closed_form. Qed.

Lemma analyze_requests :
  translationRequests r = omap (requestOf targets hint) (strings data).
Proof. unfold r. by rewrite analyze_closed_form. Qed.

Lemma analyze_changes :
  translationChanges r = mkChanges [] [] (staleKeys (strings data)).
Proof. unfold r. by rewrite analyze_closed_form. Qed.

Lemma analyze_modified :
  xcstringsModified r
  = bool_decide (Exists (λ p : jsstring * StringEntry, isStale p.2 = true) (strings data)).
Proof. unfold r. by rewrite analyze_closed_form. Qed.

Lemma analyze_fallbackCount :
  fallbackToKeyCount r
  = length (filter (λ p, fellBack targets hint p = true) (strings data)).
Proof. unfold r. by rewrite analyze_closed_form. Qed.

Lemma analyze_need k :
  stringTranslationMap r !! k = getProp (strings data) k ≫= infoOf targets.
Proof.
  unfold r. rewrite analyze_closed_form by done. simpl.
  rewrite recordNeeds_lookup by done.
  by destruct (getProp (strings data) k ≫= infoOf targets).
Qed.
End AnalyzerFacts.

Lemma keptEntry_keptOf p : keptEntry p = (p.1,.) <$> keptOf p.2.
Proof.
  unfold keptEntry, keptOf. destruct p as [k e]. simpl.
  by destruct (isStale e), (optedOut e).
Qed.

Lemma omap_cons' {A B} (f : A → option B) x l :
  omap f (x :: l) = match f x with
                    | Some y => y :: omap f l
                    | None => omap f l
                    end.
Proof. done. Qed.

Lemma getProp_kept (s : obj StringEntry) (k : jsstring) :
  wfObj s → getProp (omap keptEntry s) k = getProp s k ≫= keptOf.
Proof.
  unfold wfObj, keys. induction s as [|[k' e] s IH]; [done|].
  rewrite fmap_cons, NoDup_cons. intros [Hk Hnd].
  rewrite omap_cons', keptEntry_keptOf. simpl in *.
  destruct (decide (k' = k)) as [->|Hne].
  - change (Some e ≫= keptOf) with (keptOf e).
    destruct (keptOf e); simpl; [by rewrite decide_True|].
    rewrite IH by done.
    assert (getProp s k = None) as -> by by apply getProp_None. done.
  - destruct (keptOf e); simpl; [rewrite decide_False by done|]; auto.
Qed.

Lemma elem_of_kept (s : obj StringEntry) (k : jsstring) (e : StringEntry) :
  (k, e) ∈ omap keptEntry s ↔ ∃ e0, (k, e0) ∈ s ∧ keptOf e0 = Some e.
Proof.
  rewrite list_elem_of_omap. split.
  - intros ([k0 e0] & Hin & Hk). rewrite keptEntry_keptOf in Hk. simpl in Hk.
    destruct (keptOf e0) eqn:E; simplify_eq/=. eauto.
  - intros (e0 & Hin & Hk). exists (k, e0). split; [done|].
    rewrite keptEntry_keptOf. simpl. by rewrite Hk.
Qed.

Lemma isStale_normalized e : isStale (normalized e) = isStale e.
Proof. done. Qed.

Lemma keptOf_not_stale e e' : keptOf e = Some e' → isStale e' = false.
Proof.
  unfold keptOf. destruct (isStale e) eqn:E; [done|].
  destruct (optedOut e); intros [= <-]; [done|]. by rewrite isStale_normalized.
Qed.

Lemma infoOf_stale targets e : isStale e = true → infoOf targets e = None.
Proof. unfold infoOf. by intros ->. Qed.

Lemma infoOf_optedOut targets e : optedOut e = true → infoOf targets e = None.
Proof. unfold infoOf. intros ->. by destruct (isStale e). Qed.

Lemma request_origin targets hint (s : obj StringEntry) (q : TranslationRequest) :
  q ∈ omap (requestOf targets hint) s →
  ∃ e i, (key q, e) ∈ s ∧ infoOf targets e = Some i
         ∧ q = mkRequest (key q) (sourceText (key q) (candidateOf hint e))
                         (languages i) (comment e).
Proof.
  rewrite list_elem_of_omap. intros ([k e] & Hin & Hq).
  unfold requestOf in Hq. simpl in Hq.
  destruct (infoOf targets e) as [i|] eqn:E; simplify_eq/=. eauto.
Qed.

Lemma occurrences_notin (k : jsstring) (l : list jsstring) :
  k ∉ l → occurrences k l = 0.
Proof.
  unfold occurrences. induction l as [|x l IH]; [done|].
  rewrite not_elem_of_cons, filter_cons. intros [Hne Hl].
  rewrite decide_False by congruence. auto.
Qed.

Lemma occurrences_NoDup (k : jsstring) (l : list jsstring) :
  NoDup l → k ∈ l → occurrences k l = 1.
Proof.
  induction 1 as [|x l Hx Hnd IH]; intros Hin.
  - by apply elem_of_nil in Hin.
  - unfold occurrences. rewrite filter_cons.
    destruct (decide (x = k)) as [->|Hne].
    + simpl. f_equal. by apply occurrences_notin.
    + apply elem_of_cons in Hin as [?|Hin]; [congruence | by apply IH].
Qed.

Lemma staleKeys_elem (s : obj StringEntry) (k : jsstring) : k ∈ staleKeys s ↔ ∃ e, (k, e) ∈ s ∧ isStale e = true.
Proof.
  unfold staleKeys, keys. rewrite list_elem_of_fmap. split.
  - intros ([k' e] & -> & Hin). apply list_elem_of_filter in Hin as [? ?]. eauto.
  - intros (e & Hin & Hs). exists (k, e). split; [done|].
    by apply list_elem_of_filter.
Qed.

Lemma staleKeys_NoDup (s : obj StringEntry) : wfObj s → NoDup (staleKeys s).
Proof.
  unfold wfObj, staleKeys, keys. induction s as [|[k e] s IH]; [constructor|].
  rewrite fmap_cons, NoDup_cons. intros [Hk Hnd]. rewrite filter_cons.
  case_decide; [|auto]. rewrite fmap_cons, NoDup_cons. split; [|auto].
  intros Hin. apply Hk. apply list_elem_of_fmap in Hin as (p & -> & Hp).
  apply list_elem_of_filter in Hp as [_ Hp]. by apply list_elem_of_fmap_2.
Qed.

Lemma isStale_true e : isStale e = true ↔ extractionState e = Some (js "stale").
Proof. apply bool_decide_eq_true. Qed.

Lemma isStale_false e : isStale e = false ↔ extractionState e ≠ Some (js "stale").
Proof. apply bool_decide_eq_false. Qed.

(** Well-formedness of a concrete table, by evaluation. *)
Ltac solve_wf :=
  unfold wfObj, keys; apply (bool_decide_unpack _); vm_compute; exact I.

Lemma sampleCatalog_wf : wfObj (strings sampleCatalog).
Proof. solve_wf. Qed.

(** ** Stale removal *)

(** C3. Stale removal is exhaustive: after the analysis no entry of the
    working copy has extraction state [stale]; every key whose entry was
    stale is gone from the working copy, occurs exactly once in
    [staleRemoved], has no translation request and no record in the need
    index. *)
Theorem stale_removal_exhaustive data targets hint :
  wfObj (strings data) →
  let r := analyzeStringsForTranslation data targets hint in
  (∀ k e, (k, e) ∈ strings (modifiedXcstringsData r) →
          extractionState e ≠ Some (js "stale"))
  ∧ (∀ k e, getProp (strings data) k = Some e →
            extractionState e = Some (js "stale") →
            getProp (strings (modifiedXcstringsData r)) k = None
            ∧ occurrences k (staleRemoved (translationChanges r)) = 1
            ∧ (∀ q, q ∈ translationRequests r → key q ≠ k)
            ∧ stringTranslationMap r !! k = None).
Proof.
  intros Hwf r. subst r. split.
  - intros k e Hin. rewrite analyze_strings in Hin by done.
    apply elem_of_kept in Hin as (e0 & _ & Hk).
    apply keptOf_not_stale in Hk. by apply isStale_false.
  - intros k e Hget Hst. apply isStale_true in Hst.
    split; [|split; [|split]].
    + rewrite analyze_strings, getProp_kept, Hget by done. simpl.
      unfold keptOf. by rewrite Hst.
    + rewrite analyze_changes by done. simpl.
      apply occurrences_NoDup; [by apply staleKeys_NoDup|].
      apply staleKeys_elem. exists e. split; [by apply getProp_Some_elem | done].
    + intros q Hq <-. rewrite analyze_requests in Hq by done.
      apply request_origin in Hq as (e' & i & Hin & Hi & _).
      apply (getProp_elem _ _ _ Hwf) in Hin. simplify_eq.
      by rewrite infoOf_stale in Hi.
    + rewrite analyze_need, Hget by done. simpl. by apply infoOf_stale.
Qed.

Lemma stale_removal_exhaustive_witness :
  getProp (strings (modifiedXcstringsData
     (analyzeStringsForTranslation sampleCatalog sampleTargets sampleHint)))
     (js "Old") = None
  ∧ occurrences (js "Old") (staleRemoved (translationChanges
     (analyzeStringsForTranslation sampleCatalog sampleTargets sampleHint))) = 1.
Proof.
  destruct (stale_removal_exhaustive sampleCatalog sampleTargets sampleHint)
    as [_ H].
  - solve_wf.
  - destruct (H (js "Old")
        (mkStringEntry None (Some (js "stale")) (Some false) (Some [])))
      as (H1 & H2 & _); [by vm_compute | by vm_compute |].
    split; [exact H1 | exact H2].
Defined.

(** C10. Stale removal comes before the opt-out: an entry whose
    extraction state is [stale] is deleted and its key recorded in
    [staleRemoved] also when it has [shouldTranslate === false]; the round
    of the loop for such an entry is the removal, whatever
    [shouldTranslate] says. *)
Theorem stale_before_opt_out data targets hint k e :
  wfObj (strings data) →
  getProp (strings data) k = Some e →
  extractionState e = Some (js "stale") →
  shouldTranslate e = Some false →
  let r := analyzeStringsForTranslation data targets hint in
  getProp (strings (modifiedXcstringsData r)) k = None
  ∧ k ∈ staleRemoved (translationChanges r)
  ∧ xcstringsModified r = true
  ∧ ∀ st, getProp (strings (modifiedXcstringsData st)) k = Some e →
      analyzeKey targets hint st k =
        mkResult (translationRequests st)
                 (pushStaleRemoved (translationChanges st) k)
                 (stringTranslationMap st)
                 (withStrings (modifiedXcstringsData st)
                    (deleteProp (strings (modifiedXcstringsData st)) k))
                 true
                 (fallbackToKeyCount st).
Proof.
  intros Hwf Hget Hst Hopt r. subst r. apply isStale_true in Hst.
  split; [|split; [|split]].
  - rewrite analyze_strings, getProp_kept, Hget by done. simpl.
    unfold keptOf. by rewrite Hst.
  - rewrite analyze_changes by done. simpl. apply staleKeys_elem.
    exists e. split; [by apply getProp_Some_elem | done].
  - rewrite analyze_modified by done. apply bool_decide_eq_true.
    apply Exists_exists. exists (k, e). split; [by apply getProp_Some_elem | done].
  - intros st Hst'. unfold analyzeKey. rewrite Hst'. unfold analyzeEntry.
    unfold isStale in Hst. by rewrite Hst.
Qed.

Lemma stale_before_opt_out_witness :
  getProp (strings (modifiedXcstringsData
     (analyzeStringsForTranslation sampleCatalog sampleTargets sampleHint)))
     (js "Old") = None
  ∧ js "Old" ∈ staleRemoved (translationChanges
     (analyzeStringsForTranslation sampleCatalog sampleTargets sampleHint)).
Proof.
  destruct (stale_before_opt_out sampleCatalog sampleTargets sampleHint (js "Old")
              (mkStringEntry None (Some (js "stale")) (Some false) (Some [])))
    as (H1 & H2 & _).
  - solve_wf.
  - by vm_compute.
  - by vm_compute.
  - by vm_compute.
  - split; [exact H1 | exact H2].
Defined.

(** ** The modified flag *)

(** C9. The flag [xcstringsModified] the analysis returns is true exactly
    when a stale entry was removed; a round of the loop on an entry that
    is not stale, whether it creates the [localizations] table or flags
    languages, leaves the flag as it was. *)
Theorem modified_iff_stale_removed data targets hint :
  wfObj (strings data) →
  let r := analyzeStringsForTranslation data targets hint in
  (xcstringsModified r = true ↔ staleRemoved (translationChanges r) ≠ [])
  ∧ (xcstringsModified r = true ↔
       ∃ k e, getProp (strings data) k = Some e
              ∧ extractionState e = Some (js "stale"))
  ∧ ∀ st k,
      (∀ e, getProp (strings (modifiedXcstringsData st)) k = Some e →
            extractionState e ≠ Some (js "stale")) →
      xcstringsModified (analyzeKey targets hint st k) = xcstringsModified st.
Proof.
  intros Hwf r. subst r.
  assert (xcstringsModified (analyzeStringsForTranslation data targets hint) = true
          ↔ ∃ k e, getProp (strings data) k = Some e
                   ∧ extractionState e = Some (js "stale")) as Hflag.
  { rewrite analyze_modified by done. rewrite bool_decide_eq_true, Exists_exists.
    split.
    - intros ([k e] & Hin & Hs). exists k, e.
      split; [by apply getProp_elem | by apply isStale_true].
    - intros (k & e & Hget & Hs). exists (k, e).
      split; [by apply getProp_Some_elem | by apply isStale_true]. }
  split; [|split; [done|]].
  - rewrite Hflag, analyze_changes by done. simpl. split.
    + intros (k & e & Hget & Hs) Hnil.
      assert (k ∈ staleKeys (strings data)) as Hin.
      { apply staleKeys_elem. exists e.
        split; [by apply getProp_Some_elem | by apply isStale_true]. }
      rewrite Hnil in Hin. by apply elem_of_nil in Hin.
    + intros Hne. destruct (staleKeys (strings data)) as [|k l] eqn:E; [done|].
      assert (k ∈ staleKeys (strings data)) as Hin
        by (rewrite E; apply list_elem_of_here).
      apply staleKeys_elem in Hin as (e & Hin & Hs). exists k, e.
      split; [by apply getProp_elem | by apply isStale_true].
  - intros st k Hns. unfold analyzeKey.
    destruct (getProp (strings (modifiedXcstringsData st)) k) as [e|]; [|done].
    specialize (Hns e eq_refl). apply isStale_false in Hns.
    unfold analyzeEntry. unfold isStale in Hns. rewrite Hns.
    destruct (bool_decide (shouldTranslate e = Some false)); [done|].
    destruct (checkLanguages _ _) as [ls m].
    by destruct (bool_decide (0 < length ls)).
Qed.

Lemma modified_iff_stale_removed_witness :
  xcstringsModified
    (analyzeStringsForTranslation sampleCatalog sampleTargets sampleHint) = true
  ↔ staleRemoved (translationChanges
      (analyzeStringsForTranslation sampleCatalog sampleTargets sampleHint)) ≠ [].
Proof.
  destruct (modified_iff_stale_removed sampleCatalog sampleTargets sampleHint)
    as [H _].
  - solve_wf.
  - exact H.
Defined.

(** ** Opt-out *)

(** C6. Opt-out is inert: for an entry with [shouldTranslate === false]
    that is not stale, the analysis leaves the entry as it is in the
    working copy, makes no request and no need record for its key, and its
    round of the loop changes nothing at all in the analysis state (no
    [localizations] table created, nothing deleted, flag and counters
    untouched). *)
Theorem opt_out_inert data targets hint k e :
  wfObj (strings data) →
  getProp (strings data) k = Some e →
  shouldTranslate e = Some false →
  extractionState e ≠ Some (js "stale") →
  let r := analyzeStringsForTranslation data targets hint in
  getProp (strings (modifiedXcstringsData r)) k = Some e
  ∧ (∀ q, q ∈ translationRequests r → key q ≠ k)
  ∧ stringTranslationMap r !! k = None
  ∧ ∀ st, getProp (strings (modifiedXcstringsData st)) k = Some e →
      analyzeKey targets hint st k = st.
Proof.
  intros Hwf Hget Hopt Hns r. subst r. apply isStale_false in Hns.
  assert (optedOut e = true) as Ho by by apply bool_decide_eq_true.
  split; [|split; [|split]].
  - rewrite analyze_strings, getProp_kept, Hget by done. simpl.
    unfold keptOf. by rewrite Hns, Ho.
  - intros q Hq <-. rewrite analyze_requests in Hq by done.
    apply request_origin in Hq as (e' & i & Hin & Hi & _).
    apply (getProp_elem _ _ _ Hwf) in Hin. simplify_eq.
    by rewrite infoOf_optedOut in Hi.
  - rewrite analyze_need, Hget by done. simpl. by apply infoOf_optedOut.
  - intros st Hst. unfold analyzeKey. rewrite Hst. unfold analyzeEntry.
    unfold isStale in Hns. unfold optedOut in Ho. by rewrite Hns, Ho.
Qed.

Lemma opt_out_inert_witness :
  getProp (strings (modifiedXcstringsData
     (analyzeStringsForTranslation sampleCatalog sampleTargets sampleHint)))
     (js "Brand") = Some (mkStringEntry None None (Some false) None)
  ∧ stringTranslationMap
      (analyzeStringsForTranslation sampleCatalog sampleTargets sampleHint)
      !! js "Brand" = None.
Proof.
  destruct (opt_out_inert sampleCatalog sampleTargets sampleHint (js "Brand")
              (mkStringEntry None None (Some false) None))
    as (H1 & _ & H2 & _).
  - solve_wf.
  - by vm_compute.
  - by vm_compute.
  - by vm_compute.
  - split; [exact H1 | exact H2].
Defined.

(** ** Need detection *)

Lemma getProp_default e lang :
  getProp (default [] (localizations e)) lang = localizationOf e lang.
Proof. unfold localizationOf. by destruct (localizations e). Qed.

Lemma infoOf_processed targets e :
  isStale e = false → optedOut e = false →
  infoOf targets e =
    let c := checkLanguages (default [] (localizations e)) targets in
    if bool_decide (0 < length c.1) then Some (mkInfo c.1 c.2) else None.
Proof. unfold infoOf. by intros -> ->. Qed.

Lemma processed_languages targets e :
  isStale e = false → optedOut e = false →
  from_option languages [] (infoOf targets e)
  = filter (λ l, needsTranslationForLang (localizationOf e l) = true) targets.
Proof.
  intros Hs Ho. rewrite infoOf_processed by done. simpl.
  rewrite checkLanguages_languages.
  erewrite (list_filter_iff _ (λ l, needsTranslationForLang (localizationOf e l) = true))
    by (intros l; by rewrite getProp_default).
  case_bool_decide as Hlen; [done|]. simpl.
  destruct (filter _ targets); [done | simpl in Hlen; lia].
Qed.

Lemma processed_isNew targets e lang :
  isStale e = false → optedOut e = false →
  lang ∈ targets → needsTranslationForLang (localizationOf e lang) = true →
  infoOf targets e ≫= (λ i, isNew i !! lang)
  = Some (bool_decide (localizationOf e lang = None ∧ inheritedName lang = false)).
Proof.
  intros Hs Ho Hin Hn. rewrite infoOf_processed by done. simpl.
  rewrite bool_decide_eq_true_2.
  - simpl. rewrite checkLanguages_isNew, getProp_default.
    rewrite decide_True by done. f_equal. apply bool_decide_ext.
    by rewrite readProp_None, getProp_default.
  - rewrite checkLanguages_languages.
    assert (lang ∈ filter (λ l, needsTranslationForLang
              (getProp (default [] (localizations e)) l) = true) targets) as H.
    { apply list_elem_of_filter. by rewrite getProp_default. }
    destruct (filter _ targets); [by apply elem_of_nil in H | simpl; lia].
Qed.

(** C2. Need detection at a target language that is the name of a member
    of [Object.prototype]. The catalog has the key [Hello] with an empty
    [localizations] table and the caller asks for the language
    [constructor]: the key has no localization entry for it and the
    language is put in [languagesNeeded], as the claim says, but [isNew]
    is recorded false, in both revisions of the analyzer: the test
    [!localizations[lang]] of the code finds the member of
    [Object.prototype]. *)
Theorem isNew_inherited_name :
  let r := analyzeStringsForTranslation helloCatalog [js "constructor"] None in
  let r0 := Part000.analyzeStringsForTranslation helloCatalog [js "constructor"] None in
  (getProp (strings helloCatalog) (js "Hello")
     ≫= λ e, Some (localizationOf e (js "constructor"))) = Some None
  ∧ languagesNeededFor r (js "Hello") = [js "constructor"]
  ∧ isNewFor r (js "Hello") (js "constructor") = Some false
  ∧ (Part000.stringTranslationMap r0 !! js "Hello"
       ≫= λ i, Some (languages i, isNew i !! js "constructor"))
    = Some ([js "constructor"], Some false).
Proof. by vm_compute. Qed.

(** X25. Need detection, for every target language: for a key that is
    neither stale nor opted out, the language is put in the key's
    [languagesNeeded] exactly when the key's localization for it is
    absent, or has an absent, empty or whitespace-only value, or is in
    state [needs_review]; a localization in state [translated] with a
    value that is not blank is not flagged; and [isNew] is recorded true
    exactly when the key has no localization entry for the language and
    the language is not the name of a member of [Object.prototype]. *)
Theorem need_detection data targets hint k e lang :
  wfObj (strings data) →
  getProp (strings data) k = Some e →
  extractionState e ≠ Some (js "stale") →
  shouldTranslate e ≠ Some false →
  lang ∈ targets →
  let r := analyzeStringsForTranslation data targets hint in
  (lang ∈ languagesNeededFor r k ↔ needsWork (localizationOf e lang))
  ∧ (lang ∈ languagesNeededFor r k →
     isNewFor r k lang
     = Some (bool_decide (localizationOf e lang = None ∧ inheritedName lang = false)))
  ∧ (isNewFor r k lang = Some true
     ↔ localizationOf e lang = None ∧ inheritedName lang = false)
  ∧ (∀ l v, localizationOf e lang = Some l →
            stateOf l = Some (js "translated") →
            valueOf l = Some v → ¬ blank v →
            lang ∉ languagesNeededFor r k).
Proof.
  intros Hwf Hget Hns Hno Hin r. subst r.
  apply isStale_false in Hns.
  assert (optedOut e = false) as Ho by by apply bool_decide_eq_false.
  unfold languagesNeededFor, isNewFor. rewrite analyze_need, Hget by done.
  simpl. rewrite processed_languages by done.
  assert (lang ∈ filter (λ l, needsTranslationForLang (localizationOf e l) = true)
                   targets
          ↔ needsWork (localizationOf e lang)) as Hiff.
  { rewrite list_elem_of_filter, needsTranslationForLang_spec. tauto. }
  split; [done|]. split; [|split].
  - intros Hl. apply processed_isNew; try done.
    apply needsTranslationForLang_spec. by apply Hiff.
  - split.
    + intros Hnew. rewrite infoOf_processed in Hnew by done. simpl in Hnew.
      case_bool_decide; [|done]. simpl in Hnew.
      rewrite checkLanguages_isNew, getProp_default in Hnew.
      case_decide; [|done]. injection Hnew as Hnew.
      apply bool_decide_eq_true in Hnew.
      by rewrite readProp_None, getProp_default in Hnew.
    + intros [Hnone Hname]. rewrite processed_isNew; try done.
      * by rewrite bool_decide_eq_true_2.
      * by rewrite Hnone.
  - intros l v Hl Hst Hv Hnb Hneeded. apply Hiff in Hneeded.
    rewrite Hl in Hneeded. simpl in Hneeded.
    destruct Hneeded as [H|[(v' & H & Hb)|H]].
    + congruence.
    + rewrite Hv in H. by injection H as <-.
    + rewrite Hst in H. by vm_compute in H.
Qed.

Lemma need_detection_witness :
  (js "de" ∈ languagesNeededFor
      (analyzeStringsForTranslation sampleCatalog sampleTargets sampleHint)
      (js "Hello")
   ↔ needsWork (Some (unit_ "needs_review" "Hallo")))
  ∧ (isNewFor (analyzeStringsForTranslation sampleCatalog sampleTargets sampleHint)
              (js "Hello") (js "de") = Some true
     ↔ Some (unit_ "needs_review" "Hallo") = None ∧ inheritedName (js "de") = false).
Proof.
  destruct (need_detection sampleCatalog sampleTargets sampleHint
              (js "Hello")
              (mkStringEntry (Some (js "greeting")) None None
                 (Some [(js "en", unit_ "translated" " Hello there ");
                        (js "fr", unit_ "translated" "Bonjour");
                        (js "de", unit_ "needs_review" "Hallo");
                        (js "es", unit_ "translated" "  ")]))
              (js "de"))
    as (H1 & _ & H3 & _).
  - solve_wf.
  - by vm_compute.
  - by vm_compute.
  - by vm_compute.
  - apply (bool_decide_unpack _). by vm_compute.
  - split; [exact H1 | exact H3].
Defined.

(** The need records of the sample catalog: [it] and every language of
    [Bye] are new, [de] and [es] are not. *)
Example sample_isNew :
  let r := analyzeStringsForTranslation sampleCatalog sampleTargets sampleHint in
  (isNewFor r (js "Hello") <$> sampleTargets)
  = [None; Some false; Some false; Some true]
  ∧ (isNewFor r (js "Bye") <$> sampleTargets)
    = [Some true; Some true; Some true; Some true].
Proof. by vm_compute. Qed.

(** ** Source text *)

Lemma candidateOf_unsupplied hint e :
  (∀ h, ¬ hintSupplied hint h) → candidateOf hint e = None.
Proof.
  unfold candidateOf, sourceTextCandidate, hintSupplied. intros H.
  destruct hint as [[|c h]|]; try done. destruct (H (c :: h)). by split.
Qed.

Lemma candidateOf_supplied hint h e :
  hintSupplied hint h →
  candidateOf hint e = trim <$> (localizationOf e h ≫= valueOf).
Proof.
  unfold candidateOf, sourceTextCandidate, hintSupplied. intros [-> Hne].
  destruct h as [|c h]; [done|]. simpl.
  rewrite readProp_stringUnit, getProp_default.
  by destruct (localizationOf e (c :: h)).
Qed.

Lemma useKeyFallback_trim (v : option jsstring) :
  useKeyFallback (trim <$> v) = true
  ↔ v = None ∨ ∃ s, v = Some s ∧ blank s.
Proof.
  unfold useKeyFallback. destruct v as [s|]; simpl.
  - rewrite orb_true_iff, bool_decide_eq_true, trim_length_0. split.
    + intros [H|H]; right; exists s; (split; [done|]); [|done].
      apply trim_nil_iff. by destruct (trim s).
    + intros [[=]|(s' & [= <-] & H)]. by right.
  - split; [by left | done].
Qed.

Lemma keyFallback_spec hint e :
  keyFallback hint e = true
  ↔ (∀ h, ¬ hintSupplied hint h)
    ∨ ∃ h, hintSupplied hint h
           ∧ (localizationOf e h ≫= valueOf = None
              ∨ ∃ v, localizationOf e h ≫= valueOf = Some v ∧ blank v).
Proof.
  unfold keyFallback.
  assert ((∃ h, hintSupplied hint h) ∨ (∀ h, ¬ hintSupplied hint h))
    as [(h & Hh)|Hn].
  { unfold hintSupplied. destruct hint as [[|c h]|].
    - right. by intros h [[= <-] ?].
    - left. by exists (c :: h).
    - right. by intros h [? ?]. }
  - rewrite (candidateOf_supplied hint h) by done. rewrite useKeyFallback_trim.
    split.
    + intros H. right. by exists h.
    + intros [H|(h' & [Hh' _] & H)]; [by destruct (H h)|].
      destruct Hh as [Hh _]. by simplify_eq.
  - rewrite candidateOf_unsupplied by done. split; [by left | done].
Qed.

Lemma sourceText_fallback k c : useKeyFallback c = true → sourceText k c = k.
Proof. unfold sourceText. by intros ->. Qed.

Lemma fallback_count data targets hint (s : obj StringEntry) :
  (∀ k e, (k, e) ∈ s → getProp (strings data) k = Some e) →
  length (filter (λ p, fellBack targets hint p = true) s)
  = length (filter (λ q, requestFellBack data hint q = true)
                   (omap (requestOf targets hint) s)).
Proof.
  induction s as [|[k e] s IH]; intros Hs; [done|].
  assert (length (filter (λ p, fellBack targets hint p = true) s)
          = length (filter (λ q, requestFellBack data hint q = true)
                           (omap (requestOf targets hint) s))) as IH'.
  { apply IH. intros k' e' Hin. apply Hs. by apply list_elem_of_further. }
  rewrite omap_cons'.
  destruct (infoOf targets e) as [i|] eqn:Hi.
  - set (q := mkRequest k (sourceText k (candidateOf hint e)) (languages i) (comment e)).
    assert (requestOf targets hint (k, e) = Some q) as ->
      by (unfold requestOf; simpl; by rewrite Hi).
    assert (fellBack targets hint (k, e) = useKeyFallback (candidateOf hint e)) as Hf
      by (unfold fellBack; simpl; by rewrite Hi).
    assert (requestFellBack data hint q = useKeyFallback (candidateOf hint e)) as Hq.
    { unfold requestFellBack. simpl.
      by rewrite (Hs k e) by apply list_elem_of_here. }
    destruct (useKeyFallback (candidateOf hint e)).
    + rewrite !filter_cons_True by done. simpl. by rewrite IH'.
    + rewrite !filter_cons_False by congruence. done.
  - assert (requestOf targets hint (k, e) = None) as ->
      by (unfold requestOf; simpl; by rewrite Hi).
    rewrite filter_cons_False; [done|].
    unfold fellBack. simpl. rewrite Hi. done.
Qed.

(** C4. Fallback determinism of the source text. Every key with a
    language to translate has a request; for each request: with no hint
    supplied (a hint is supplied when [sourceLanguageForText] is a string
    that is not empty, the test of line 84) the text is the key; with a
    hint whose localization has no value, or an empty or whitespace-only
    one, the text is the key; with a hint whose localization has a value
    that is not blank, the text is that value with the whitespace at its
    two ends removed and nothing else: the value is a run of whitespace,
    then the text, then a run of whitespace, and the text neither starts
    nor ends with whitespace; and the fallback counter is the number of
    requests whose text fell back to the key. *)
Theorem fallback_determinism data targets hint :
  wfObj (strings data) →
  let r := analyzeStringsForTranslation data targets hint in
  (∀ k, languagesNeededFor r k ≠ [] → ∃ q, q ∈ translationRequests r ∧ key q = k)
  ∧ (∀ q, q ∈ translationRequests r →
       ∃ e, getProp (strings data) (key q) = Some e
         ∧ languagesNeededFor r (key q) ≠ []
         ∧ ((∀ h, ¬ hintSupplied hint h) → text q = key q)
         ∧ (∀ h, hintSupplied hint h →
                 localizationOf e h ≫= valueOf = None
                 ∨ (∃ v, localizationOf e h ≫= valueOf = Some v ∧ blank v) →
                 text q = key q)
         ∧ (∀ h v, hintSupplied hint h →
                   localizationOf e h ≫= valueOf = Some v → ¬ blank v →
                   text q = trim v
                   ∧ ∃ pre post,
                       v = pre ++ text q ++ post ∧ blank pre ∧ blank post
                       ∧ (∃ c, head (text q) = Some c ∧ isWhiteSpace c = false)
                       ∧ (∃ c, last (text q) = Some c ∧ isWhiteSpace c = false))
         ∧ (requestFellBack data hint q = true
            ↔ (∀ h, ¬ hintSupplied hint h)
              ∨ ∃ h, hintSupplied hint h
                     ∧ (localizationOf e h ≫= valueOf = None
                        ∨ ∃ v, localizationOf e h ≫= valueOf = Some v ∧ blank v)))
  ∧ fallbackToKeyCount r
    = length (filter (λ q, requestFellBack data hint q = true)
                     (translationRequests r)).
Proof.
  intros Hwf r. subst r. split; [|split].
  - intros k Hk. unfold languagesNeededFor in Hk.
    rewrite analyze_need in Hk by done.
    destruct (getProp (strings data) k) as [e|] eqn:Hget; [|done].
    simpl in Hk. destruct (infoOf targets e) as [i|] eqn:Hi; [|done].
    exists (mkRequest k (sourceText k (candidateOf hint e)) (languages i) (comment e)).
    split; [|done]. rewrite analyze_requests by done.
    apply list_elem_of_omap. exists (k, e).
    split; [by apply getProp_Some_elem|]. unfold requestOf. simpl. by rewrite Hi.
  - intros q Hq. rewrite analyze_requests in Hq by done.
    apply request_origin in Hq as (e & i & Hin & Hi & Hq).
    apply (getProp_elem _ _ _ Hwf) in Hin. exists e.
    assert (text q = sourceText (key q) (candidateOf hint e)) as Ht
      by (by rewrite Hq).
    split; [done|]. split; [|split; [|split; [|split]]].
    + unfold languagesNeededFor. rewrite analyze_need, Hin by done. simpl.
      rewrite Hi. simpl. unfold infoOf in Hi.
      destruct (isStale e); [done|]. destruct (optedOut e); [done|].
      case_bool_decide as Hlen; [|done]. simplify_eq/=.
      intros Hnil. rewrite Hnil in Hlen. simpl in Hlen. lia.
    + intros Hno. rewrite Ht. apply sourceText_fallback.
      apply keyFallback_spec. by left.
    + intros h Hh Hv. rewrite Ht. apply sourceText_fallback.
      apply keyFallback_spec. right. by exists h.
    + intros h v Hh Hv Hnb.
      assert (text q = trim v) as Htrim.
      { rewrite Ht. unfold sourceText.
        rewrite (candidateOf_supplied hint h) by done. rewrite Hv. simpl.
        destruct (useKeyFallback (Some (trim v))) eqn:E; [|done].
        apply (useKeyFallback_trim (Some v)) in E as [[=]|(s & [= <-] & Hb)]. done. }
      split; [done|]. rewrite Htrim.
      destruct (trim_spec v) as (pre & post & Hv' & Hpre & Hpost & Hhead & Hlast).
      exists pre, post. split; [done|]. split; [done|]. split; [done|].
      assert (trim v ≠ []) as Hne by (by rewrite trim_nil_iff).
      split.
      * destruct (trim v) as [|c t] eqn:E; [done|]. exists c. split; [done|].
        by apply Hhead.
      * destruct (last (trim v)) as [c|] eqn:E.
        -- exists c. split; [done|]. by apply Hlast.
        -- by apply last_None in E.
    + unfold requestFellBack. rewrite Hin. simpl. apply keyFallback_spec.
  - rewrite analyze_fallbackCount, analyze_requests by done.
    apply fallback_count. intros k e Hin. by apply getProp_elem.
Qed.

Lemma fallback_determinism_witness :
  js "Hello there" = trim (js " Hello there ")
  ∧ ∃ pre post,
      js " Hello there " = pre ++ js "Hello there" ++ post ∧ blank pre ∧ blank post
      ∧ (∃ c, head (js "Hello there") = Some c ∧ isWhiteSpace c = false)
      ∧ (∃ c, last (js "Hello there") = Some c ∧ isWhiteSpace c = false).
Proof.
  destruct (fallback_determinism sampleCatalog sampleTargets sampleHint)
    as (_ & H & _).
  - solve_wf.
  - destruct (H (mkRequest (js "Hello") (js "Hello there")
                   [js "de"; js "es"; js "it"] (Some (js "greeting"))))
      as (e & He & _ & _ & _ & Htext & _).
    + vm_compute. left.
    + vm_compute in He. injection He as <-.
      apply (Htext (js "en") (js " Hello there ")).
      * split; [reflexivity | discriminate].
      * vm_compute. reflexivity.
      * intros Hb. apply Forall_cons in Hb as [_ Hb].
        apply Forall_cons in Hb as [Hc _]. vm_compute in Hc. discriminate.
Defined.


(** The requests of the sample catalog: [Hello] takes the trimmed English
    value, [Bye] falls back to its key. *)
Example sample_requests :
  translationRequests
    (analyzeStringsForTranslation sampleCatalog sampleTargets sampleHint)
  = [mkRequest (js "Hello") (js "Hello there") [js "de"; js "es"; js "it"]
               (Some (js "greeting"));
     mkRequest (js "Bye") (js "Bye") [js "fr"; js "de"; js "es"; js "it"] None]
  ∧ fallbackToKeyCount
      (analyzeStringsForTranslation sampleCatalog sampleTargets sampleHint) = 1.
Proof. by vm_compute. Qed.

(** ** The merge loop *)

(** A response item for a key the catalog or the need index does not
    have: a warning, and nothing else. *)
Lemma mergeItem_unknown needs st item :
  getProp (strings (updatedXcstringsData st)) (itemKey item) = None
  ∨ needs !! itemKey item = None →
  mergeItem needs st item
  = Normal (mkMerge (updatedXcstringsData st) (changes st)
                    (warnings st ++ [unknownKeyWarning (itemKey item)])).
Proof.
  unfold mergeItem. intros [->| ->]; [done|].
  by destruct (getProp _ _).
Qed.

Lemma applyTranslation_out_of_scope k info st lang v :
  lang ∉ languages info → applyTranslation k info st (lang, v) = Normal st.
Proof. intros H. unfold applyTranslation. by rewrite bool_decide_eq_false_2. Qed.

(** The write of line 97 on a localization entry that exists. *)
Lemma applyTranslation_present k info st lang v e locs loc :
  lang ∈ languages info →
  getProp (strings (updatedXcstringsData st)) k = Some e →
  localizations e = Some locs →
  getProp locs lang = Some loc →
  ∃ st', applyTranslation k info st (lang, v) = Normal st'
    ∧ getProp (strings (updatedXcstringsData st')) k
      = Some (withLocalizations e
                (setProp locs lang (mkLocalization (Some (translatedUnit v)))))
    ∧ (∀ k', k' ≠ k →
         getProp (strings (updatedXcstringsData st')) k'
         = getProp (strings (updatedXcstringsData st)) k')
    ∧ warnings st' = warnings st
    ∧ staleRemoved (changes st') = staleRemoved (changes st)
    ∧ (if bool_decide (isNew info !! lang = Some true)
       then added (changes st') = added (changes st) ++ [changeKey k lang]
            ∧ updated (changes st') = updated (changes st)
       else added (changes st') = added (changes st)
            ∧ updated (changes st') = updated (changes st) ++ [changeKey k lang]).
Proof.
  intros Hin He Hlocs Hloc. unfold applyTranslation.
  rewrite bool_decide_eq_true_2 by done. rewrite He, Hlocs, Hloc.
  eexists. split; [done|]. cbn [updatedXcstringsData changes warnings strings withStrings].
  split; [by rewrite getProp_setProp, decide_True|].
  split; [intros k' Hne; by rewrite getProp_setProp, decide_False|].
  split; [done|]. by destruct (bool_decide (isNew info !! lang = Some true)).
Qed.

(** The write of line 97 when the key has no localization entry for the
    language and the language is the name of a member of
    [Object.prototype]: the write lands on that member, the catalog is
    as it was, and the ledger takes the identifier. *)
Lemma applyTranslation_inherited k info st lang v e locs :
  lang ∈ languages info →
  getProp (strings (updatedXcstringsData st)) k = Some e →
  localizations e = Some locs →
  getProp locs lang = None → inheritedName lang = true →
  ∃ st', applyTranslation k info st (lang, v) = Normal st'
    ∧ updatedXcstringsData st' = updatedXcstringsData st
    ∧ warnings st' = warnings st
    ∧ staleRemoved (changes st') = staleRemoved (changes st)
    ∧ (if bool_decide (isNew info !! lang = Some true)
       then added (changes st') = added (changes st) ++ [changeKey k lang]
            ∧ updated (changes st') = updated (changes st)
       else added (changes st') = added (changes st)
            ∧ updated (changes st') = updated (changes st) ++ [changeKey k lang]).
Proof.
  intros Hin He Hlocs Hloc Hname. unfold applyTranslation.
  rewrite bool_decide_eq_true_2 by done. rewrite He, Hlocs, Hloc, Hname.
  eexists. split; [done|]. cbn [updatedXcstringsData changes warnings].
  split; [done|]. split; [done|].
  by destruct (bool_decide (isNew info !! lang = Some true)).
Qed.

(** The write of line 97 when [stringEntry.localizations[lang]] is
    [undefined]: setting its [stringUnit] throws. *)
Lemma applyTranslation_absent k info st lang v e :
  lang ∈ languages info →
  getProp (strings (updatedXcstringsData st)) k = Some e →
  localizationOf e lang = None → inheritedName lang = false →
  applyTranslation k info st (lang, v) = TypeError st.
Proof.
  intros Hin He Hloc Hname. unfold applyTranslation.
  rewrite bool_decide_eq_true_2 by done. rewrite He.
  unfold localizationOf in Hloc. destruct (localizations e) as [locs|]; [|done].
  simpl in Hloc. by rewrite Hloc, Hname.
Qed.

(** What one round of the inner loop does to the ledger: nothing, or one
    identifier more, in the list that [isNew] selects. *)
Lemma applyTranslation_ledger k info st p :
  let st' := finalState (applyTranslation k info st p) in
  st' = st
  ∨ (p.1 ∈ languages info
     ∧ warnings st' = warnings st
     ∧ staleRemoved (changes st') = staleRemoved (changes st)
     ∧ if bool_decide (isNew info !! p.1 = Some true)
       then added (changes st') = added (changes st) ++ [changeKey k p.1]
            ∧ updated (changes st') = updated (changes st)
       else added (changes st') = added (changes st)
            ∧ updated (changes st') = updated (changes st) ++ [changeKey k p.1]).
Proof.
  destruct p as [lang v]. cbn [fst].
  destruct (decide (lang ∈ languages info)) as [Hin|Hin];
    [|left; by rewrite applyTranslation_out_of_scope].
  destruct (getProp (strings (updatedXcstringsData st)) k) as [e|] eqn:He;
    [|left; unfold applyTranslation; rewrite bool_decide_eq_true_2 by done;
      by rewrite He].
  destruct (localizations e) as [locs|] eqn:Hlocs;
    [|left; unfold applyTranslation; rewrite bool_decide_eq_true_2 by done;
      by rewrite He, Hlocs].
  destruct (getProp locs lang) as [loc|] eqn:Hloc.
  - destruct (applyTranslation_present k info st lang v e locs loc)
      as (st' & -> & _ & _ & ? & ? & ?); try done. right. by simpl.
  - destruct (inheritedName lang) eqn:Hname.
    + destruct (applyTranslation_inherited k info st lang v e locs)
        as (st' & -> & _ & ? & ? & ?); try done. right. by simpl.
    + left. rewrite (applyTranslation_absent k info st lang v e); try done.
      unfold localizationOf. by rewrite Hlocs.
Qed.

(** A round that completes leaves the key it wrote under in the
    catalog. *)
Lemma applyTranslation_key k info st p st' :
  applyTranslation k info st p = Normal st' →
  is_Some (getProp (strings (updatedXcstringsData st)) k) →
  is_Some (getProp (strings (updatedXcstringsData st')) k).
Proof.
  destruct p as [lang v]. unfold applyTranslation.
  case_bool_decide; [|by intros [= <-]].
  destruct (getProp _ k) as [e|] eqn:He; [|done].
  destruct (localizations e) as [locs|]; [|done].
  destruct (getProp locs lang) as [loc|].
  - intros [= <-] _. simpl. rewrite getProp_setProp, decide_True by done. eauto.
  - destruct (inheritedName lang); [|done]. intros [= <-] _. simpl.
    rewrite He. eauto.
Qed.

(** An invariant of the state goes through the whole merge when the
    write of one translation and the logging of a warning keep it. *)
Lemma merge_invariant (P : MergeState → Prop) needs :
  (∀ k info st p, needs !! k = Some info →
     is_Some (getProp (strings (updatedXcstringsData st)) k) →
     P st → P (finalState (applyTranslation k info st p))) →
  (∀ st w, P st → P (mkMerge (updatedXcstringsData st) (changes st) w)) →
  ∀ response st, P st → P (finalState (mergeTranslations needs response st)).
Proof.
  intros Happly Hwarn.
  assert (∀ k info ps st, needs !! k = Some info →
            is_Some (getProp (strings (updatedXcstringsData st)) k) →
            P st → P (finalState (applyTranslations k info ps st))) as Hitems.
  { intros k info ps. induction ps as [|p ps IH]; intros st Hn Hk HP; simpl;
      [done|].
    pose proof (Happly k info st p Hn Hk HP) as HP'.
    destruct (applyTranslation k info st p) as [st1|st1] eqn:E; simpl in *;
      [|done].
    apply IH; try done. by apply (applyTranslation_key k info st p). }
  induction response as [|item rest IH]; intros st HP; simpl; [done|].
  unfold mergeItem.
  destruct (getProp (strings (updatedXcstringsData st)) (itemKey item)) as [e|] eqn:He.
  - destruct (needs !! itemKey item) as [info|] eqn:Hi.
    + pose proof (Hitems (itemKey item) info (translations item) st) as HP'.
      destruct (applyTranslations _ _ _ _) as [st1|st1]; simpl in *.
      * apply IH, HP'; [done | by rewrite He | done].
      * apply HP'; [done | by rewrite He | done].
    + apply IH. by apply Hwarn.
  - apply IH. by apply Hwarn.
Qed.

Lemma ledgerSound_merge needs response st :
  ledgerSound needs st →
  ledgerSound needs (finalState (mergeTranslations needs response st)).
Proof.
  apply merge_invariant; [|done].
  clear. intros k info st p Hn _ HP.
  destruct (applyTranslation_ledger k info st p) as [->|(Hin & _ & _ & Hl)];
    [done|].
  intros id Hid. case_bool_decide; destruct Hl as [Ha Hu]; rewrite Ha, Hu in Hid;
    rewrite elem_of_app, list_elem_of_singleton in Hid;
    (destruct Hid as [[Hid| ->]|Hid] || destruct Hid as [Hid|[Hid| ->]]);
    try (apply HP; auto; fail); by exists k, p.1, info.
Qed.

Lemma infoOf_Some targets e info :
  infoOf targets e = Some info →
  keptOf e = Some (normalized e)
  ∧ info = mkInfo (checkLanguages (default [] (localizations e)) targets).1
                  (checkLanguages (default [] (localizations e)) targets).2
  ∧ languages info ≠ [].
Proof.
  unfold infoOf, keptOf. destruct (isStale e); [done|].
  destruct (optedOut e); [done|]. case_bool_decide as Hlen; [|done].
  intros [= <-]. split; [done|]. split; [done|]. simpl.
  intros Hnil. rewrite Hnil in Hlen. simpl in Hlen. lia.
Qed.

(** C7. The merger tolerates answers it did not ask for. A response item
    whose key is not in the working catalog or not in the need index
    appends one warning and changes neither the catalog nor the ledger,
    and the loop goes on with the remaining items; a translation for a
    language that is not among the key's needed languages is skipped
    without any change, and the loop goes on with the remaining pairs. *)
Theorem merger_tolerates_out_of_contract needs st item rest :
  getProp (strings (updatedXcstringsData st)) (itemKey item) = None
  ∨ needs !! itemKey item = None →
  let st' := mkMerge (updatedXcstringsData st) (changes st)
                     (warnings st ++ [unknownKeyWarning (itemKey item)]) in
  mergeItem needs st item = Normal st'
  ∧ mergeTranslations needs (item :: rest) st = mergeTranslations needs rest st'
  ∧ ∀ k info lang v ps st0,
      lang ∉ languages info →
      applyTranslation k info st0 (lang, v) = Normal st0
      ∧ applyTranslations k info ((lang, v) :: ps) st0
        = applyTranslations k info ps st0.
Proof.
  intros H st'. split; [by apply mergeItem_unknown|]. split.
  - simpl. by rewrite mergeItem_unknown.
  - intros k info lang v ps st0 Hl. split; [by apply applyTranslation_out_of_scope|].
    simpl. by rewrite bool_decide_eq_false_2.
Qed.

Lemma merger_tolerates_out_of_contract_witness :
  mergeTranslations
    (stringTranslationMap
       (analyzeStringsForTranslation sampleCatalog sampleTargets sampleHint))
    sampleResponse
    (mergeStart (analyzeStringsForTranslation sampleCatalog sampleTargets sampleHint))
  = mergeTranslations
      (stringTranslationMap
         (analyzeStringsForTranslation sampleCatalog sampleTargets sampleHint))
      (tail sampleResponse)
      (mkMerge
         (modifiedXcstringsData
            (analyzeStringsForTranslation sampleCatalog sampleTargets sampleHint))
         (translationChanges
            (analyzeStringsForTranslation sampleCatalog sampleTargets sampleHint))
         [unknownKeyWarning (js "Nope")]).
Proof.
  destruct (merger_tolerates_out_of_contract
              (stringTranslationMap
                 (analyzeStringsForTranslation sampleCatalog sampleTargets sampleHint))
              (mergeStart
                 (analyzeStringsForTranslation sampleCatalog sampleTargets sampleHint))
              (mkItem (js "Nope") [(js "fr", js "Non")])
              (tail sampleResponse)) as (_ & H & _).
  - left. by vm_compute.
  - exact H.
Defined.

(** The sample response on the sample catalog: the unknown key [Nope] is
    logged, [fr] (not needed for [Hello]) is skipped, [de] (in
    [needs_review]) is overwritten and classified as updated. *)
Example sample_merge :
  ∃ st, merge (analyzeStringsForTranslation sampleCatalog sampleTargets sampleHint)
              sampleResponse = Normal st
    ∧ warnings st = [unknownKeyWarning (js "Nope")]
    ∧ changes st = mkChanges [] [js "Hello (de)"] [js "Old"]
    ∧ (getProp (strings (updatedXcstringsData st)) (js "Hello")
         ≫= λ e, localizationOf e (js "de"))
      = Some (unit_ "translated" "Hallo!")
    ∧ (getProp (strings (updatedXcstringsData st)) (js "Hello")
         ≫= λ e, localizationOf e (js "fr"))
      = Some (unit_ "translated" "Bonjour").
Proof. eexists. split; [by vm_compute|]. by vm_compute. Qed.

Lemma classified_merge needs response st :
  classified needs st →
  classified needs (finalState (mergeTranslations needs response st)).
Proof.
  apply merge_invariant; [|done].
  clear. intros k info st p Hn _ [Ha Hu].
  destruct (applyTranslation_ledger k info st p) as [->|(Hin & _ & _ & Hl)];
    [done|].
  case_bool_decide as Hnew; destruct Hl as [Ea Eu]; split; intros id Hid;
    rewrite ?Ea, ?Eu in Hid; try (by apply Ha); try (by apply Hu).
  - apply elem_of_app in Hid as [Hid|Hid]; [by apply Ha|].
    apply list_elem_of_singleton in Hid as ->. by exists k, p.1, info.
  - apply elem_of_app in Hid as [Hid|Hid]; [by apply Hu|].
    apply list_elem_of_singleton in Hid as ->. by exists k, p.1, info.
Qed.

Lemma app_cons_inj (x : N) (a1 a2 b1 b2 : list N) :
  x ∉ a1 → x ∉ a2 → a1 ++ x :: b1 = a2 ++ x :: b2 → a1 = a2 ∧ b1 = b2.
Proof.
  revert a2. induction a1 as [|y a1 IH]; intros [|z a2] H1 H2 E; simpl in E.
  - by injection E as ->.
  - injection E as -> _. exfalso. apply H2. apply list_elem_of_here.
  - injection E as -> _. exfalso. apply H1. apply list_elem_of_here.
  - injection E as -> E. apply not_elem_of_cons in H1 as [_ H1].
    apply not_elem_of_cons in H2 as [_ H2].
    destruct (IH a2 H1 H2 E) as [-> ->]. done.
Qed.

(** The identifier tells the key and the language when language codes
    have no ["("]. *)
Lemma changeKey_inj k1 l1 k2 l2 :
  lparen ∉ l1 → lparen ∉ l2 →
  changeKey k1 l1 = changeKey k2 l2 → k1 = k2 ∧ l1 = l2.
Proof.
  intros H1 H2 E. unfold changeKey in E.
  apply (f_equal reverse) in E. rewrite !reverse_app in E.
  change (reverse (js ")")) with [41%N] in E.
  change (reverse (js " (")) with [lparen; 32%N] in E.
  simpl in E. injection E as E. rewrite <-!app_assoc in E. simpl in E.
  apply app_cons_inj in E as [El Ek].
  - injection Ek as Ek. split; [by apply (inj reverse) | by apply (inj reverse)].
  - by rewrite elem_of_reverse.
  - by rewrite elem_of_reverse.
Qed.

(** Whatever the need index: starting from an empty ledger, [added] and
    [updated] share no identifier when no needed language code has a
    ["("]. *)
Lemma ledger_disjoint_general needs response st :
  added (changes st) = [] → updated (changes st) = [] →
  (∀ k info lang, needs !! k = Some info → lang ∈ languages info → lparen ∉ lang) →
  ∀ id, id ∈ added (changes (finalState (mergeTranslations needs response st))) →
        id ∉ updated (changes (finalState (mergeTranslations needs response st))).
Proof.
  intros Ha Hu Hparen.
  destruct (classified_merge needs response st) as [Hadd Hupd].
  { split; intros id Hid; [rewrite Ha in Hid | rewrite Hu in Hid];
      by apply elem_of_nil in Hid. }
  intros id Hid Hid'.
  destruct (Hadd id Hid) as (k1 & l1 & i1 & -> & Hn1 & Hl1 & Hnew1).
  destruct (Hupd _ Hid') as (k2 & l2 & i2 & E & Hn2 & Hl2 & Hnew2).
  apply changeKey_inj in E as [-> ->].
  - by simplify_eq.
  - by apply (Hparen k1 i1).
  - by apply (Hparen k2 i2).
Qed.

(** On the sample catalog the analyzer of part_000 asks only for the
    languages without a value: not for [de], in state [needs_review], nor
    for [es], whose value is blank. *)
Example part000_requests_sample :
  Part000.translationRequests
    (Part000.analyzeStringsForTranslation sampleCatalog sampleTargets sampleHint)
  = [mkRequest (js "Hello") (js "Hello there") [js "it"] (Some (js "greeting"));
     mkRequest (js "Bye") (js "Bye") [js "fr"; js "de"; js "es"; js "it"] None].
Proof. by vm_compute. Qed.

(** The languages of a need record are target languages, with either
    analyzer, and both return [added] and [updated] empty. *)
Lemma analysis_languages data targets hint k info lang :
  wfObj (strings data) →
  stringTranslationMap (analyzeStringsForTranslation data targets hint) !! k
  = Some info →
  lang ∈ languages info → lang ∈ targets.
Proof.
  intros Hwf Hn Hl. rewrite analyze_need in Hn by done.
  destruct (getProp (strings data) k) as [e|]; [|done]. simpl in Hn.
  apply infoOf_Some in Hn as (_ & -> & _). simpl in Hl.
  rewrite checkLanguages_languages in Hl. by apply list_elem_of_filter in Hl as [_ ?].
Qed.

Lemma part000_checkLanguages_languages targets : ∀ acc lang,
  lang ∈ (foldl Part000.checkLanguage acc targets).1.2 →
  lang ∈ acc.1.2 ∨ lang ∈ targets.
Proof.
  induction targets as [|t targets IH]; intros acc lang H; simpl in H; [by left|].
  apply IH in H as [H|H]; [|right; by apply list_elem_of_further].
  destruct acc as [[locs needed] isNewMap]. unfold Part000.checkLanguage in H.
  destruct (Part000.needsTranslationForLang (readProp locs t)); [|by left].
  simpl in *. apply elem_of_app in H as [H|H]; [by left|].
  apply list_elem_of_singleton in H as ->. right. apply list_elem_of_here.
Qed.

Lemma part000_analysis_ledger data targets hint :
  let r0 := Part000.analyzeStringsForTranslation data targets hint in
  added (Part000.translationChanges r0) = []
  ∧ updated (Part000.translationChanges r0) = []
  ∧ ∀ k info lang, Part000.stringTranslationMap r0 !! k = Some info →
                   lang ∈ languages info → lang ∈ targets.
Proof.
  set (Inv := λ st : Part000.StringAnalysisResult,
         added (Part000.translationChanges st) = []
         ∧ updated (Part000.translationChanges st) = []
         ∧ ∀ k info lang, Part000.stringTranslationMap st !! k = Some info →
                          lang ∈ languages info → lang ∈ targets).
  assert (∀ st k, Inv st → Inv (Part000.analyzeKey targets hint st k)) as Hkey.
  { intros st k (Ha & Hu & Hl). unfold Part000.analyzeKey.
    destruct (getProp _ k) as [e0|]; [|done]. unfold Part000.analyzeEntry.
    destruct (strictEq (extractionState e0) (js "stale")); [done|].
    case_bool_decide; [done|].
    pose proof (part000_checkLanguages_languages targets
                  (default [] (localizations e0), [], ∅)) as Hsub.
    destruct (foldl Part000.checkLanguage _ targets) as [[locs needed] isNewMap].
    case_bool_decide; [|done]. split; [done|]. split; [done|].
    intros k' info lang Hi Hin. simpl in Hi. rewrite lookup_insert in Hi.
    case_decide; [|by eapply Hl]. injection Hi as <-. simpl in Hin.
    destruct (Hsub lang Hin) as [H'|H']; [by apply elem_of_nil in H' | done]. }
  assert (∀ ks st, Inv st → Inv (foldl (Part000.analyzeKey targets hint) st ks)) as H.
  { induction ks as [|k ks IH]; intros st Hst; simpl; [done|]. by apply IH, Hkey. }
  apply H. split; [done|]. split; [done|]. intros k info lang Hi. simpl in Hi.
  by rewrite lookup_empty in Hi.
Qed.

(** Ledger disjointness fails when a language code has parentheses:
    with the analyzer that creates the entries the merge writes to, the
    identifiers of two different keys and languages coincide, and the
    same identifier is in [added] and in [updated]. *)
Lemma ledger_collision :
  js "a (b) (c)"
    ∈ added (changes (finalState
        (Part000.merge
           (Part000.analyzeStringsForTranslation collisionCatalog
              [js "b) (c"; js "c"] None)
           collisionResponse)))
  ∧ js "a (b) (c)"
    ∈ updated (changes (finalState
        (Part000.merge
           (Part000.analyzeStringsForTranslation collisionCatalog
              [js "b) (c"; js "c"] None)
           collisionResponse))).
Proof. split; apply (bool_decide_unpack _); by vm_compute. Qed.

(** C8. Ledger disjointness: after the merge of any provider response
    into the result of an analysis, with either revision of the analyzer,
    no identifier is in both [added] and [updated] provided no target
    language has an opening parenthesis in its code, and every identifier
    in either is [key (language)] for a key of the need index and a
    language among that key's [languagesNeeded]. *)
Theorem ledger_disjoint data targets hint response :
  wfObj (strings data) →
  let r := analyzeStringsForTranslation data targets hint in
  let st := finalState (merge r response) in
  let r0 := Part000.analyzeStringsForTranslation data targets hint in
  let st0 := finalState (Part000.merge r0 response) in
  (((∀ lang, lang ∈ targets → lparen ∉ lang) →
    ∀ id, id ∈ added (changes st) → id ∉ updated (changes st))
   ∧ (∀ id, id ∈ added (changes st) ∨ id ∈ updated (changes st) →
        ∃ k lang, id = changeKey k lang ∧ lang ∈ languagesNeededFor r k))
  ∧ (((∀ lang, lang ∈ targets → lparen ∉ lang) →
      ∀ id, id ∈ added (changes st0) → id ∉ updated (changes st0))
     ∧ (∀ id, id ∈ added (changes st0) ∨ id ∈ updated (changes st0) →
          ∃ k lang info, id = changeKey k lang
            ∧ Part000.stringTranslationMap r0 !! k = Some info
            ∧ lang ∈ languages info)).
Proof.
  intros Hwf r st r0 st0. split.
  - assert (added (translationChanges r) = [] ∧ updated (translationChanges r) = [])
      as [Ha Hu] by (subst r; by rewrite analyze_changes).
    split.
    + intros Hparen. subst st. unfold merge. case_bool_decide.
      * apply ledger_disjoint_general; [done | done |].
        intros k info lang Hn Hl. apply Hparen.
        by apply (analysis_languages data targets hint k info).
      * simpl. rewrite Ha. intros id Hid. by apply elem_of_nil in Hid.
    + assert (ledgerSound (stringTranslationMap r) st) as Hsound.
      { assert (ledgerSound (stringTranslationMap r) (mergeStart r)) as Hstart.
        { intros id. simpl. rewrite Ha, Hu.
          intros [Hid|Hid]; by apply elem_of_nil in Hid. }
        subst st. unfold merge. case_bool_decide; [|done].
        by apply ledgerSound_merge. }
      intros id Hid. destruct (Hsound id Hid) as (k & lang & info & -> & Hn & Hl).
      exists k, lang. split; [done|]. unfold languagesNeededFor. by rewrite Hn.
  - destruct (part000_analysis_ledger data targets hint) as (Ha & Hu & Hsub).
    fold r0 in Ha, Hu, Hsub. split.
    + intros Hparen. subst st0. unfold Part000.merge. case_bool_decide.
      * apply ledger_disjoint_general; [done | done |].
        intros k info lang Hn Hl. apply Hparen. by apply (Hsub k info).
      * simpl. rewrite Ha. intros id Hid. by apply elem_of_nil in Hid.
    + assert (ledgerSound (Part000.stringTranslationMap r0) st0) as Hsound.
      { assert (ledgerSound (Part000.stringTranslationMap r0)
                  (mkMerge (Part000.modifiedXcstringsData r0)
                           (Part000.translationChanges r0) [])) as Hstart.
        { intros id. simpl. rewrite Ha, Hu.
          intros [Hid|Hid]; by apply elem_of_nil in Hid. }
        subst st0. unfold Part000.merge. case_bool_decide; [|done].
        by apply ledgerSound_merge. }
      exact Hsound.
Qed.

Lemma ledger_disjoint_witness :
  js "Hello (it)"
    ∉ updated (changes (finalState
        (Part000.merge
           (Part000.analyzeStringsForTranslation reviewCatalog mixedTargets None)
           mixedResponse))).
Proof.
  destruct (ledger_disjoint reviewCatalog mixedTargets None mixedResponse)
    as [_ [H _]].
  - solve_wf.
  - apply H.
    + intros lang Hin Hparen.
      apply elem_of_cons in Hin as [->|Hin];
        [|apply list_elem_of_singleton in Hin as ->];
        revert Hparen; apply (bool_decide_unpack _); by vm_compute.
    + apply (bool_decide_unpack _). by vm_compute.
Defined.

(** The ledger of that merge has an identifier in each list. *)
Example mixed_ledger :
  changes (finalState
    (Part000.merge
       (Part000.analyzeStringsForTranslation reviewCatalog mixedTargets None)
       mixedResponse))
  = mkChanges [js "Hello (it)"] [js "Hello (fr)"] [].
Proof. by vm_compute. Qed.

(** C1. The merge at a language that is the name of a member of
    [Object.prototype]. The catalog has the key [Hello] with an empty [localizations] table,
    the caller asks for the language [constructor] and the response
    translates [Hello] into it. With either revision of the analyzer the
    language is in [languagesNeeded] and the merge takes the translation
    up, completes and records [Hello (constructor)] as updated; but the
    write of line 97 went to [Object.prototype.constructor]: the catalog
    the merge leaves is the catalog it was given, with no localization
    entry for the language and no string unit set. *)
Theorem merge_inherited_name_not_written :
  let r := analyzeStringsForTranslation helloCatalog [js "constructor"] None in
  let r0 := Part000.analyzeStringsForTranslation helloCatalog [js "constructor"] None in
  languagesNeededFor r (js "Hello") = [js "constructor"]
  ∧ merge r constructorResponse
    = Normal (mkMerge helloCatalog (mkChanges [] [js "Hello (constructor)"] []) [])
  ∧ languages <$> (Part000.stringTranslationMap r0 !! js "Hello")
    = Some [js "constructor"]
  ∧ Part000.merge r0 constructorResponse
    = Normal (mkMerge helloCatalog (mkChanges [] [js "Hello (constructor)"] []) [])
  ∧ (getProp (strings helloCatalog) (js "Hello")
       ≫= λ e, localizationOf e (js "constructor")) = None.
Proof. by vm_compute. Qed.

(** The specification's own scenario, the language [fr], with the
    analyzer of part_000, which creates the entry during the analysis:
    the merge completes and the entry is set. *)
Example part000_merge_materialized :
  ∃ st, Part000.merge
          (Part000.analyzeStringsForTranslation helloCatalog [js "fr"] None)
          helloResponse = Normal st
    ∧ (getProp (strings (updatedXcstringsData st)) (js "Hello")
         ≫= λ e, localizationOf e (js "fr"))
      = Some (mkLocalization (Some (translatedUnit (js "Bonjour"))))
    ∧ added (changes st) = [js "Hello (fr)"].
Proof. eexists. split; [by vm_compute|]. by vm_compute. Qed.

(** ** Objects by reference: the caller's catalog is not written *)

Module StoreFacts.
Import Store.


Lemma freshObject_nil n : freshObject n [].
Proof. intros k v H. by apply elem_of_nil in H. Qed.




Section Frame.
Variables (n : nat) (h0 : heap).





















End Frame.

Section Program.
Variables (n : nat) (h0 : heap).







End Program.






(** *** The deep copy copies *)

Lemma stringifyMembers_mono (f g : val → option (option json)) (o : object) ms :
  (∀ k x r, (k, x) ∈ o → f x = Some r → g x = Some r) →
  stringifyMembers f o = Some ms → stringifyMembers g o = Some ms.
Proof.
  revert ms. induction o as [|[k x] o IH]; intros ms H; simpl; [done|].
  destruct (f x) as [r|] eqn:Ef; [|done].
  rewrite (H k x r) by (done || apply list_elem_of_here).
  destruct (stringifyMembers f o) as [ms'|] eqn:E; [|by destruct r].
  rewrite (IH ms'); [done| |done].
  intros k' x' r' Hin. apply (H k'). by apply list_elem_of_further.
Qed.

(** More fuel and more objects do not change a text. *)
Lemma stringify_mono h t fuel : ∀ fuel' v r,
  fuel ≤ fuel' → stringify fuel h v = Some r →
  stringify fuel' (h ++ t) v = Some r.
Proof.
  induction fuel as [|fuel IH]; intros fuel' v r Hle Hs.
  - destruct v; try done; by destruct fuel'.
  - destruct fuel' as [|fuel']; [lia|].
    destruct v as [| | |l]; try done. simpl in *.
    destruct (h !! l) as [o|] eqn:E; [|done].
    rewrite (lookup_app_l_Some _ _ _ _ E).
    destruct (stringifyMembers (stringify fuel h) o) as [ms|] eqn:Em; [|done].
    rewrite (stringifyMembers_mono (stringify fuel h) _ o ms); [done| |done].
    intros k x r' _ Hx. apply IH; [lia | done].
Qed.

Lemma setProp_notin {V} (o : obj V) k v :
  k ∉ keys o → setProp o k v = o ++ [(k, v)].
Proof.
  unfold keys. induction o as [|[k' v'] o IH]; [done|].
  rewrite fmap_cons, not_elem_of_cons. simpl. intros [Hne H].
  rewrite decide_False by congruence. by rewrite IH.
Qed.

Lemma stringifyMembers_app (f : val → option (option json)) (o1 o2 : object) :
  stringifyMembers f (o1 ++ o2)
  = match stringifyMembers f o1, stringifyMembers f o2 with
    | Some m1, Some m2 => Some (m1 ++ m2)
    | _, _ => None
    end.
Proof.
  induction o1 as [|[k x] o1 IH]; simpl.
  - by destruct (stringifyMembers f o2).
  - rewrite IH. destruct (f x) as [[j|]|]; try done;
      destruct (stringifyMembers f o1); try done;
      by destruct (stringifyMembers f o2).
Qed.

Lemma parseMembers_roundTrips ms :
  Forall (λ m : jsstring * json, roundTrips m.2) ms →
  ∀ acc h, NoDup (keys acc ++ ms.*1) →
    ∃ new t,
      parseMembers parse ms acc h = (Return (acc ++ new), h ++ t)
      ∧ foldr (λ m d, depth m.2 `max` d) 0 ms ≤ length t
      ∧ freshObject (length h) new
      ∧ ∀ t' fuel, foldr (λ m d, depth m.2 `max` d) 0 ms ≤ fuel →
          stringifyMembers (stringify fuel (h ++ t ++ t')) new = Some ms.
Proof.
  induction ms as [|[k j] ms IH]; intros Hrt acc h Hnd.
  - exists [], []. simpl. rewrite !app_nil_r. split; [done|]. split; [done|].
    split; [apply freshObject_nil | done].
  - apply Forall_cons in Hrt as [Hj Hms]. simpl in Hj.
    destruct (Hj h) as (v & t1 & Hp & Hd & Hv & Hs).
    assert (k ∉ keys acc) as Hk.
    { rewrite fmap_cons in Hnd. apply NoDup_app in Hnd as (_ & H & _).
      intros Hin. apply (H k Hin). apply list_elem_of_here. }
    destruct (IH Hms (acc ++ [(k, v)]) (h ++ t1)) as (new & t2 & Hpm & Hd2 & Hnew & Hs2).
    { unfold keys in *. rewrite fmap_app, <-app_assoc. simpl.
      by rewrite fmap_cons in Hnd. }
    exists ((k, v) :: new), (t1 ++ t2). simpl.
    unfold bind. rewrite Hp. rewrite setProp_notin by done.
    rewrite Hpm. rewrite <-!app_assoc. simpl.
    split; [done|]. split; [rewrite length_app; lia|]. split.
    + intros k' x Hin. apply elem_of_cons in Hin as [[= -> ->]|Hin]; [done|].
      specialize (Hnew k' x Hin). destruct x; try done. simpl in *.
      rewrite length_app in Hnew. lia.
    + intros t' fuel Hf. rewrite <-(app_assoc t1 t2 t').
      rewrite (Hs (t2 ++ t') fuel) by lia.
      specialize (Hs2 t' fuel). rewrite <-!app_assoc in Hs2.
      rewrite Hs2 by lia. done.
Qed.

Lemma parse_roundTrips : ∀ j, wfJson j → roundTrips j.
Proof.
  fix IH 1. intros [b|s|ms] Hwf.
  - intros h. exists (VBool b), []. rewrite app_nil_r. repeat split; try done.
    intros t' [|fuel] _; done.
  - intros h. exists (VString s), []. rewrite app_nil_r. repeat split; try done.
    intros t' [|fuel] _; done.
  - destruct Hwf as [Hnd Hms].
    assert (Forall (λ m : jsstring * json, roundTrips m.2) ms) as Hrt.
    { clear Hnd. induction ms as [|[k j] ms IHms]; [constructor|].
      destruct Hms as [Hj Hms]. constructor; [by apply IH | by apply IHms]. }
    intros h.
    destruct (parseMembers_roundTrips ms Hrt [] h Hnd) as (o & t & Hp & Hd & Ho & Hs).
    exists (VObject (length (h ++ t))), (t ++ [o]). simpl.
    unfold bind. rewrite Hp. simpl. unfold alloc. rewrite <-app_assoc.
    split; [done|]. split; [rewrite length_app; simpl; lia|].
    split; [rewrite length_app; lia|].
    intros t' [|fuel] Hf; [lia|]. simpl.
    assert ((h ++ (t ++ [o]) ++ t') !! length (h ++ t) = Some o) as ->.
    { rewrite <-!app_assoc, (app_assoc h t). simpl.
      by apply list_lookup_middle. }
    specialize (Hs ([o] ++ t') fuel). rewrite <-(app_assoc t [o] t').
    rewrite Hs by lia. done.
Qed.

Lemma wfJson_object ms :
  wfJson (JObject ms) ↔ NoDup ms.*1 ∧ Forall (λ m : jsstring * json, wfJson m.2) ms.
Proof.
  simpl. apply and_iff_compat_l. induction ms as [|m ms IH]; simpl.
  - split; [constructor | done].
  - rewrite Forall_cons, IH. done.
Qed.

Lemma wfJson_optMember k (v : option json) :
  from_option wfJson True v →
  Forall (λ m : jsstring * json, wfJson m.2) (optMember k v).
Proof. destruct v; [by repeat constructor | constructor]. Qed.

Lemma wfJson_string (s : option jsstring) : from_option wfJson True (JString <$> s).
Proof. by destruct s. Qed.

Lemma wfJson_unit u : wfJson (unitJson u).
Proof.
  apply wfJson_object. split.
  - destruct u as [[st|] [v|]]; apply (bool_decide_unpack _); by vm_compute.
  - apply Forall_app. split; apply wfJson_optMember, wfJson_string.
Qed.

Lemma wfJson_localization l : wfJson (localizationJson l).
Proof.
  apply wfJson_object. split.
  - destruct l as [[u|]]; apply (bool_decide_unpack _); by vm_compute.
  - apply wfJson_optMember. destruct (stringUnit l); [apply wfJson_unit | done].
Qed.

Lemma keys_prod_map {A B} (f : A → B) (o : obj A) :
  (prod_map id f <$> o).*1 = o.*1.
Proof. induction o as [|[k x] o IH]; [done|]. rewrite !fmap_cons. by f_equal. Qed.

Lemma wfJson_table {A} (f : A → json) (o : obj A) :
  wfObj o → (∀ x, wfJson (f x)) → wfJson (JObject (prod_map id f <$> o)).
Proof.
  intros Ho Hf. apply wfJson_object. split; [by rewrite keys_prod_map|].
  apply Forall_fmap, Forall_forall. intros [k x] _. apply Hf.
Qed.

Lemma wfJson_entry e :
  from_option wfObj True (localizations e) → wfJson (entryJson e).
Proof.
  intros Hl. apply wfJson_object. split.
  - destruct e as [[c|] [es|] [sh|] [ls|]]; apply (bool_decide_unpack _); by vm_compute.
  - repeat (apply Forall_app; split); apply wfJson_optMember;
      try apply wfJson_string; [by destruct (shouldTranslate e)|].
    destruct (localizations e) as [ls|]; [|done]. simpl.
    apply wfJson_table; [done | apply wfJson_localization].
Qed.

Lemma wfJson_catalog d : wfCatalog d → wfJson (catalogJson d).
Proof.
  intros [Hs He]. apply wfJson_object. split.
  - destruct d as [[sl|] ss [ve|]]; apply (bool_decide_unpack _); by vm_compute.
  - repeat (apply Forall_app; split); try apply wfJson_optMember;
      try apply wfJson_string.
    constructor; [|constructor]. simpl. apply wfJson_object.
    split; [by rewrite keys_prod_map|].
    apply Forall_fmap. eapply Forall_impl; [exact He|].
    intros [k e] H. by apply wfJson_entry.
Qed.

(** Whatever the argument's text [j] is, the deep copy returns a new
    object with that text. *)
Lemma jsonClone_copies h v j :
  stringify (length h) h v = Some (Some j) → wfJson j →
  ∃ v' t, jsonClone v h = (Return v', h ++ t)
    ∧ fresh (length h) v'
    ∧ stringify (length (h ++ t)) (h ++ t) v' = Some (Some j).
Proof.
  intros Hs Hwf. unfold jsonClone. rewrite Hs.
  destruct (parse_roundTrips j Hwf h) as (v' & t & Hp & Hd & Hv & Hrt).
  exists v', t. split; [done|]. split; [done|].
  specialize (Hrt [] (length (h ++ t))). rewrite app_nil_r in Hrt.
  apply Hrt. rewrite length_app. lia.
Qed.

(** A well-formed catalog loads, and reads back as its text; so does the
    deep copy the analyzer starts with. *)
Lemma loaded_catalog d :
  wfCatalog d →
  let root := (loaded d).1 in
  let h := (loaded d).2 in
  load d = (Return root, h)
  ∧ stringify (length h) h root = Some (Some (catalogJson d))
  ∧ ∃ copy t, jsonClone root h = (Return copy, h ++ t)
      ∧ fresh (length h) copy
      ∧ stringify (length (h ++ t)) (h ++ t) copy = Some (Some (catalogJson d)).
Proof.
  intros Hwf. apply wfJson_catalog in Hwf.
  destruct (parse_roundTrips _ Hwf []) as (v & t & Hp & Hd & _ & Hrt).
  unfold loaded, load. rewrite Hp. simpl.
  assert (stringify (length t) t v = Some (Some (catalogJson d))) as Hs.
  { specialize (Hrt [] (length t)). rewrite app_nil_r in Hrt. simpl in Hrt.
    by apply Hrt. }
  split; [done|]. split; [done|]. by apply jsonClone_copies.
Qed.

End StoreFacts.

(** On the sample catalog the run by reference gives what the run by
    value gives: the same requests, need index, flag, counter, ledger and
    warnings, and a working copy with the text of the merged catalog,
    while the caller's catalog still has the text it was loaded from. *)
Example store_run_sample :
  let root := (Store.loaded sampleCatalog).1 in
  let h := (Store.loaded sampleCatalog).2 in
  let r := analyzeStringsForTranslation sampleCatalog sampleTargets sampleHint in
  ∃ r' c w h',
    Store.run root sampleTargets sampleHint sampleResponse h
      = (Store.Return (r', c, w), h')
    ∧ Store.requestValue <$> Store.translationRequests r' = translationRequests r
    ∧ Store.stringTranslationMap r' = stringTranslationMap r
    ∧ Store.xcstringsModified r' = xcstringsModified r
    ∧ Store.fallbackToKeyCount r' = fallbackToKeyCount r
    ∧ merge r sampleResponse
      = Normal (mkMerge (updatedXcstringsData (finalState (merge r sampleResponse))) c w)
    ∧ Store.stringify (length h') h' (Store.modifiedXcstringsData r')
      = Some (Some (Store.catalogJson
                      (updatedXcstringsData (finalState (merge r sampleResponse)))))
    ∧ Store.stringify (length h') h' root
      = Some (Some (Store.catalogJson sampleCatalog)).
Proof.
  do 4 eexists. split; [by vm_compute|].
  repeat split; by vm_compute.
Qed.

(** On [helloCatalog] with the language [fr] the run by reference, which
    has the analyzer of stringAnalyzer.ts, ends with the [TypeError] of
    line 97, as the run by value does, and the caller's catalog is as it
    was. *)
Example store_run_hello :
  let root := (Store.loaded helloCatalog).1 in
  let h := (Store.loaded helloCatalog).2 in
  ∃ h', Store.run root [js "fr"] None helloResponse h = (Store.Throw, h')
    ∧ Store.stringify (length h') h' root
      = Some (Some (Store.catalogJson helloCatalog)).
Proof. eexists. split; by vm_compute. Qed.

(** The loop body writes the catalog it is given: run on the caller's
    object itself, without the deep copy, the first round of the loop of
    the analyzer removes nothing here but the second deletes [Old] from
    the caller's catalog. It is the copy that keeps the caller's catalog
    as it was. *)
Example loop_writes_its_catalog :
  let root := (Store.loaded sampleCatalog).1 in
  let h := (Store.loaded sampleCatalog).2 in
  let st := Store.mkResult [] emptyChanges ∅ root false 0 in
  ∃ st' h',
    Store.foldM (Store.analyzeKey sampleTargets sampleHint) st
      [js "Hello"; js "Old"] h = (Store.Return st', h')
    ∧ Store.stringify (length h') h' root
      ≠ Some (Some (Store.catalogJson sampleCatalog)).
Proof. do 2 eexists. split; [by vm_compute|]. by vm_compute. Qed.

(** * Further properties of the analyzer (src/helpers/stringAnalyzer.ts) *)

Lemma requestOf_key targets hint p q :
  requestOf targets hint p = Some q → key q = p.1.
Proof.
  unfold requestOf. destruct (infoOf targets p.2); [|done]. by intros [= <-].
Qed.

Lemma request_keys_sublist targets hint (s : obj StringEntry) :
  key <$> omap (requestOf targets hint) s `sublist_of` keys s.
Proof.
  unfold keys. induction s as [|[k e] s IH]; [constructor|].
  rewrite omap_cons', fmap_cons.
  destruct (requestOf targets hint (k, e)) as [q|] eqn:E.
  - rewrite fmap_cons, (requestOf_key _ _ _ _ E). by constructor.
  - by constructor.
Qed.

Lemma kept_keys_sublist (s : obj StringEntry) :
  keys (omap keptEntry s) `sublist_of` keys s.
Proof.
  unfold keys. induction s as [|[k e] s IH]; [constructor|].
  rewrite omap_cons', keptEntry_keptOf, fmap_cons. simpl.
  destruct (keptOf e); simpl; by constructor.
Qed.

Lemma staleKeys_sublist (s : obj StringEntry) : staleKeys s `sublist_of` keys s.
Proof.
  unfold staleKeys, keys. induction s as [|[k e] s IH]; [constructor|].
  rewrite filter_cons, fmap_cons. case_decide; [rewrite fmap_cons|]; by constructor.
Qed.

Lemma keys_partition (s : obj StringEntry) :
  keys s ≡ₚ keys (omap keptEntry s) ++ staleKeys s.
Proof.
  unfold keys. induction s as [|[k e] s IH]; [done|].
  rewrite omap_cons', keptEntry_keptOf, staleKeys_cons, fmap_cons. simpl.
  unfold keptOf. destruct (isStale e); simpl.
  - rewrite <-Permutation_middle. by constructor.
  - destruct (optedOut e); simpl; by constructor.
Qed.

(** X1. The need index and the batch name the same keys: a key has a
    record exactly when it has a request, it has at most one request, and
    the request's target languages are the record's languages, of which
    there is at least one. *)
Theorem requests_match_need_index data targets hint :
  wfObj (strings data) →
  let r := analyzeStringsForTranslation data targets hint in
  NoDup (key <$> translationRequests r)
  ∧ (∀ k, is_Some (stringTranslationMap r !! k)
          ↔ ∃ q, q ∈ translationRequests r ∧ key q = k)
  ∧ (∀ q, q ∈ translationRequests r →
       ∃ info, stringTranslationMap r !! key q = Some info
         ∧ languages info = targetLanguages q
         ∧ targetLanguages q ≠ []).
Proof.
  intros Hwf r. subst r. rewrite analyze_requests by done.
  split; [|split].
  - eapply sublist_NoDup; [exact Hwf | apply request_keys_sublist].
  - intros k. rewrite analyze_need by done. split.
    + intros [info Hi].
      destruct (getProp (strings data) k) as [e|] eqn:He; [|done]. simpl in Hi.
      exists (mkRequest k (sourceText k (candidateOf hint e)) (languages info) (comment e)).
      split; [|done]. apply list_elem_of_omap. exists (k, e).
      split; [by apply getProp_Some_elem|]. unfold requestOf. simpl. by rewrite Hi.
    + intros (q & Hq & <-).
      apply request_origin in Hq as (e & i & Hin & Hi & _).
      apply (getProp_elem _ _ _ Hwf) in Hin. rewrite Hin. simpl. eauto.
  - intros q Hq. apply request_origin in Hq as (e & i & Hin & Hi & Hq).
    apply (getProp_elem _ _ _ Hwf) in Hin. exists i.
    rewrite analyze_need, Hin by done. simpl. split; [done|].
    split; [by rewrite Hq|]. rewrite Hq. simpl.
    by destruct (infoOf_Some _ _ _ Hi) as (_ & _ & ?).
Qed.

Lemma requests_match_need_index_witness :
  NoDup (key <$> translationRequests
           (analyzeStringsForTranslation sampleCatalog sampleTargets sampleHint)).
Proof.
  destruct (requests_match_need_index sampleCatalog sampleTargets sampleHint)
    as [H _].
  - solve_wf.
  - exact H.
Defined.

(** X2. The target languages of a request are the caller's target
    languages that need work for the request's entry, in the caller's
    order (a language listed twice is asked twice), and the request
    carries the entry's comment. *)
Theorem request_languages data targets hint q :
  wfObj (strings data) →
  q ∈ translationRequests (analyzeStringsForTranslation data targets hint) →
  ∃ e, getProp (strings data) (key q) = Some e
    ∧ targetLanguages q
      = filter (λ l, needsTranslationForLang (localizationOf e l) = true) targets
    ∧ targetLanguages q `sublist_of` targets
    ∧ (∀ lang, lang ∈ targetLanguages q
               ↔ lang ∈ targets ∧ needsWork (localizationOf e lang))
    ∧ reqComment q = comment e.
Proof.
  intros Hwf Hq. rewrite analyze_requests in Hq by done.
  apply request_origin in Hq as (e & i & Hin & Hi & Hq).
  apply (getProp_elem _ _ _ Hwf) in Hin. exists e. split; [done|].
  assert (targetLanguages q
          = filter (λ l, needsTranslationForLang (localizationOf e l) = true) targets)
    as Hl.
  { rewrite Hq. simpl. unfold infoOf in Hi.
    destruct (isStale e) eqn:Hs; [done|]. destruct (optedOut e) eqn:Ho; [done|].
    rewrite <-(processed_languages targets e Hs Ho).
    unfold infoOf. rewrite Hs, Ho. by rewrite Hi. }
  split; [done|]. rewrite Hl. split; [apply sublist_filter|]. split.
  - intros lang. rewrite list_elem_of_filter, needsTranslationForLang_spec. tauto.
  - by rewrite Hq.
Qed.

Lemma request_languages_witness :
  ∃ e, getProp (strings sampleCatalog) (js "Hello") = Some e
    ∧ [js "de"; js "es"; js "it"]
      = filter (λ l, needsTranslationForLang (localizationOf e l) = true) sampleTargets.
Proof.
  destruct (request_languages sampleCatalog sampleTargets sampleHint
              (mkRequest (js "Hello") (js "Hello there") [js "de"; js "es"; js "it"]
                         (Some (js "greeting"))))
    as (e & He & Hl & _).
  - solve_wf.
  - vm_compute. left.
  - exists e. split; [exact He | exact Hl].
Defined.

(** X3. The outputs follow the catalog's order and split its keys: the
    keys of the requests, the keys of the working copy and
    [staleRemoved] are each in catalog order, and every key of the
    catalog is either in the working copy or in [staleRemoved], once. *)
Theorem outputs_in_catalog_order data targets hint :
  wfObj (strings data) →
  let r := analyzeStringsForTranslation data targets hint in
  key <$> translationRequests r `sublist_of` keys (strings data)
  ∧ keys (strings (modifiedXcstringsData r)) `sublist_of` keys (strings data)
  ∧ staleRemoved (translationChanges r) `sublist_of` keys (strings data)
  ∧ keys (strings data)
    ≡ₚ keys (strings (modifiedXcstringsData r)) ++ staleRemoved (translationChanges r)
  ∧ wfObj (strings (modifiedXcstringsData r)).
Proof.
  intros Hwf r. subst r.
  rewrite analyze_requests, analyze_strings, analyze_changes by done. simpl.
  split; [apply request_keys_sublist|]. split; [apply kept_keys_sublist|].
  split; [apply staleKeys_sublist|]. split; [apply keys_partition|].
  eapply sublist_NoDup; [exact Hwf | apply kept_keys_sublist].
Qed.

Lemma outputs_in_catalog_order_witness :
  keys (strings sampleCatalog)
  ≡ₚ keys (strings (modifiedXcstringsData
        (analyzeStringsForTranslation sampleCatalog sampleTargets sampleHint)))
     ++ staleRemoved (translationChanges
        (analyzeStringsForTranslation sampleCatalog sampleTargets sampleHint)).
Proof.
  destruct (outputs_in_catalog_order sampleCatalog sampleTargets sampleHint)
    as (_ & _ & _ & H & _).
  - solve_wf.
  - exact H.
Defined.

Lemma localizationOf_normalized e lang :
  localizationOf (normalized e) lang = localizationOf e lang.
Proof. unfold localizationOf. simpl. by destruct (localizations e). Qed.

(** X4. The analysis changes no translation: an entry that is not stale
    is in the working copy with the same comment, extraction state,
    opt-out flag and localization for every language; unless it is opted
    out its [localizations] table is there afterwards; the catalog's
    source language and version are kept and [added] and [updated] are
    returned empty. *)
Theorem analysis_keeps_translations data targets hint :
  wfObj (strings data) →
  let r := analyzeStringsForTranslation data targets hint in
  (∀ k e, getProp (strings data) k = Some e →
          extractionState e ≠ Some (js "stale") →
          ∃ e', getProp (strings (modifiedXcstringsData r)) k = Some e'
            ∧ comment e' = comment e
            ∧ extractionState e' = extractionState e
            ∧ shouldTranslate e' = shouldTranslate e
            ∧ (∀ lang, localizationOf e' lang = localizationOf e lang)
            ∧ (shouldTranslate e ≠ Some false → is_Some (localizations e')))
  ∧ sourceLanguage (modifiedXcstringsData r) = sourceLanguage data
  ∧ version (modifiedXcstringsData r) = version data
  ∧ added (translationChanges r) = []
  ∧ updated (translationChanges r) = [].
Proof.
  intros Hwf r. subst r. split.
  - intros k e He Hns. apply isStale_false in Hns.
    rewrite analyze_strings, getProp_kept, He by done. simpl.
    unfold keptOf. rewrite Hns. destruct (optedOut e) eqn:Ho.
    + exists e. do 5 (split; [done|]).
      intros Hno. unfold optedOut in Ho. by apply bool_decide_eq_true in Ho.
    + exists (normalized e). do 4 (split; [done|]).
      split; [intros lang; apply localizationOf_normalized|].
      intros _. simpl. eauto.
  - rewrite analyze_closed_form by done. done.
Qed.

Lemma analysis_keeps_translations_witness :
  sourceLanguage (modifiedXcstringsData
    (analyzeStringsForTranslation sampleCatalog sampleTargets sampleHint))
  = sourceLanguage sampleCatalog.
Proof.
  destruct (analysis_keeps_translations sampleCatalog sampleTargets sampleHint)
    as (_ & H & _).
  - solve_wf.
  - exact H.
Defined.

Lemma normalized_idemp e : normalized (normalized e) = normalized e.
Proof. done. Qed.

Lemma candidateOf_normalized hint e :
  candidateOf hint (normalized e) = candidateOf hint e.
Proof. done. Qed.

Lemma infoOf_normalized targets e : infoOf targets (normalized e) = infoOf targets e.
Proof. done. Qed.

Lemma keptOf_fixed e e' : keptOf e = Some e' → keptOf e' = Some e'.
Proof.
  unfold keptOf. destruct (isStale e) eqn:Hs; [done|].
  destruct (optedOut e) eqn:Ho; intros [= <-].
  - by rewrite Hs, Ho.
  - rewrite isStale_normalized, Hs.
    change (optedOut (normalized e)) with (optedOut e). by rewrite Ho.
Qed.

Lemma keptOf_infoOf targets e e' :
  keptOf e = Some e' → infoOf targets e' = infoOf targets e.
Proof.
  unfold keptOf. destruct (isStale e) eqn:Hs; [done|].
  destruct (optedOut e) eqn:Ho; intros [= <-]; [done|]. apply infoOf_normalized.
Qed.

Lemma keptOf_candidateOf hint e e' :
  keptOf e = Some e' → candidateOf hint e' = candidateOf hint e.
Proof.
  unfold keptOf. destruct (isStale e) eqn:Hs; [done|].
  destruct (optedOut e) eqn:Ho; intros [= <-]; [done|]. apply candidateOf_normalized.
Qed.

Lemma keptOf_comment e e' : keptOf e = Some e' → comment e' = comment e.
Proof.
  unfold keptOf. destruct (isStale e) eqn:Hs; [done|].
  by destruct (optedOut e) eqn:Ho; intros [= <-].
Qed.

Lemma keptOf_None targets e : keptOf e = None → infoOf targets e = None.
Proof.
  unfold keptOf. destruct (isStale e) eqn:Hs; [intros _; by apply infoOf_stale|].
  by destruct (optedOut e).
Qed.

Lemma omap_kept_cons k e (s : obj StringEntry) :
  omap keptEntry ((k, e) :: s)
  = match keptOf e with
    | Some e' => (k, e') :: omap keptEntry s
    | None => omap keptEntry s
    end.
Proof. rewrite omap_cons', keptEntry_keptOf. simpl. by destruct (keptOf e). Qed.

Section Reanalysis.
Context (targets : list jsstring) (hint : option jsstring).

Lemma kept_kept (s : obj StringEntry) :
  omap keptEntry (omap keptEntry s) = omap keptEntry s.
Proof.
  induction s as [|[k e] s IH]; [done|].
  rewrite omap_kept_cons. destruct (keptOf e) as [e'|] eqn:E; [|done].
  by rewrite omap_kept_cons, (keptOf_fixed _ _ E), IH.
Qed.

Lemma kept_requests (s : obj StringEntry) :
  omap (requestOf targets hint) (omap keptEntry s) = omap (requestOf targets hint) s.
Proof.
  induction s as [|[k e] s IH]; [done|].
  rewrite omap_kept_cons, (omap_cons' _ (k, e)).
  destruct (keptOf e) as [e'|] eqn:E.
  - assert (requestOf targets hint (k, e') = requestOf targets hint (k, e)) as Hq.
    { unfold requestOf. simpl.
      by rewrite (keptOf_infoOf _ _ _ E), (keptOf_candidateOf _ _ _ E),
        (keptOf_comment _ _ E). }
    rewrite omap_cons', Hq. destruct (requestOf targets hint (k, e)); by rewrite IH.
  - assert (requestOf targets hint (k, e) = None) as Hq.
    { unfold requestOf. simpl. by rewrite (keptOf_None _ _ E). }
    by rewrite Hq.
Qed.

Lemma kept_needs (s : obj StringEntry) : ∀ m,
  recordNeeds targets m (omap keptEntry s) = recordNeeds targets m s.
Proof.
  unfold recordNeeds. induction s as [|[k e] s IH]; intros m; [done|].
  rewrite omap_kept_cons. destruct (keptOf e) as [e'|] eqn:E; simpl.
  - by rewrite (keptOf_infoOf _ _ _ E), IH.
  - by rewrite (keptOf_None _ _ E), IH.
Qed.

Lemma kept_not_stale (s : obj StringEntry) :
  Forall (λ p, isStale p.2 = false) (omap keptEntry s).
Proof.
  apply Forall_forall. intros [k e] (e0 & _ & Hk)%elem_of_kept.
  by apply keptOf_not_stale in Hk.
Qed.

Lemma kept_fellBack (s : obj StringEntry) :
  length (filter (λ p, fellBack targets hint p = true) (omap keptEntry s))
  = length (filter (λ p, fellBack targets hint p = true) s).
Proof.
  induction s as [|[k e] s IH]; [done|].
  rewrite omap_kept_cons. destruct (keptOf e) as [e'|] eqn:E.
  - assert (fellBack targets hint (k, e') = fellBack targets hint (k, e)) as Hf.
    { unfold fellBack. simpl.
      by rewrite (keptOf_infoOf _ _ _ E), (keptOf_candidateOf _ _ _ E). }
    rewrite !filter_cons, Hf. case_decide; simpl; by rewrite IH.
  - rewrite filter_cons, decide_False; [done|].
    unfold fellBack. simpl. rewrite (keptOf_None _ _ E).
    rewrite bool_decide_eq_false_2; [done|]. by intros [? ?].
Qed.
End Reanalysis.

Lemma staleKeys_none (s : obj StringEntry) :
  Forall (λ p, isStale p.2 = false) s → staleKeys s = [].
Proof.
  unfold staleKeys, keys. induction 1 as [|p s Hp _ IH]; [done|].
  rewrite filter_cons, decide_False; [done|]. by rewrite Hp.
Qed.

(** X5. Analysing the working copy again is a fixed point: nothing is
    removed and the modification flag is false, the working copy comes
    back unchanged, and the requests, the need index and the fallback
    counter are those of the first analysis. *)
Theorem reanalysis_stable data targets hint :
  wfObj (strings data) →
  let r := analyzeStringsForTranslation data targets hint in
  let r' := analyzeStringsForTranslation (modifiedXcstringsData r) targets hint in
  xcstringsModified r' = false
  ∧ staleRemoved (translationChanges r') = []
  ∧ modifiedXcstringsData r' = modifiedXcstringsData r
  ∧ translationRequests r' = translationRequests r
  ∧ stringTranslationMap r' = stringTranslationMap r
  ∧ fallbackToKeyCount r' = fallbackToKeyCount r.
Proof.
  intros Hwf r r'. subst r r'.
  assert (wfObj (omap keptEntry (strings data))) as Hwf'.
  { eapply sublist_NoDup; [exact Hwf | apply kept_keys_sublist]. }
  rewrite (analyze_closed_form targets hint data) by done. simpl.
  rewrite analyze_closed_form by done. simpl.
  pose proof (kept_not_stale (strings data)) as Hns.
  split; [|split; [|split; [|split; [|split]]]].
  - apply bool_decide_eq_false. rewrite Exists_exists.
    intros (p & Hp & Hs). rewrite Forall_forall in Hns.
    specialize (Hns p Hp). congruence.
  - by apply staleKeys_none.
  - unfold withStrings. simpl. by rewrite kept_kept.
  - apply kept_requests.
  - apply kept_needs.
  - apply kept_fellBack.
Qed.

Lemma reanalysis_stable_witness :
  translationRequests
    (analyzeStringsForTranslation
       (modifiedXcstringsData
          (analyzeStringsForTranslation sampleCatalog sampleTargets sampleHint))
       sampleTargets sampleHint)
  = translationRequests
      (analyzeStringsForTranslation sampleCatalog sampleTargets sampleHint).
Proof.
  destruct (reanalysis_stable sampleCatalog sampleTargets sampleHint)
    as (_ & _ & _ & H & _).
  - solve_wf.
  - exact H.
Defined.

(** * The merge loop in closed form *)

Lemma answerOf_nil k lang : answerOf [] k lang = None.
Proof. done. Qed.

Lemma answerOf_app ts1 ts2 k lang :
  answerOf (ts1 ++ ts2) k lang
  = match answerOf ts2 k lang with
    | Some v => Some v
    | None => answerOf ts1 k lang
    end.
Proof.
  unfold answerOf. rewrite omap_app.
  destruct (omap _ ts2) as [|x l] eqn:E using rev_ind.
  - by rewrite app_nil_r.
  - rewrite app_assoc, !last_snoc. done.
Qed.

Lemma answerOf_singleton (t : answer) k lang :
  answerOf [t] k lang = if bool_decide (t.1 = k ∧ t.2.1 = lang) then Some t.2.2 else None.
Proof. unfold answerOf. rewrite omap_cons'. by case_bool_decide. Qed.

Lemma answerOf_elem ts k lang v :
  answerOf ts k lang = Some v → (k, (lang, v)) ∈ ts.
Proof.
  unfold answerOf. intros H. apply last_Some_elem_of in H.
  apply list_elem_of_omap in H as ([k' [lang' v']] & Hin & Ht).
  simpl in Ht. case_bool_decide as Hd; [|done]. destruct Hd as [<- <-].
  by injection Ht as <-.
Qed.

Lemma answerOf_is_Some ts k lang :
  is_Some (answerOf ts k lang) ↔ ∃ v, (k, (lang, v)) ∈ ts.
Proof.
  split.
  - intros [v Hv]. exists v. by apply answerOf_elem.
  - intros [v Hv]. apply list_elem_of_split in Hv as (l1 & l2 & ->).
    change (l1 ++ (k, (lang, v)) :: l2) with (l1 ++ [(k, (lang, v))] ++ l2).
    rewrite !answerOf_app. destruct (answerOf l2 k lang); [by eexists|].
    rewrite answerOf_singleton. simpl. rewrite bool_decide_eq_true_2 by done. by eexists.
Qed.

Lemma writable_app s ts1 ts2 :
  writable s (ts1 ++ ts2)
  = if bool_decide (writable s ts1 = ts1) then ts1 ++ writable s ts2
    else writable s ts1.
Proof.
  induction ts1 as [|t ts1 IH].
  - by rewrite bool_decide_eq_true_2.
  - cbn [writable app]. destruct (lands s t).
    + rewrite IH. case_bool_decide as H1.
      * rewrite bool_decide_eq_true_2; [done|]. by rewrite H1.
      * rewrite bool_decide_eq_false_2; [done|]. by intros [= ?].
    + by rewrite bool_decide_eq_false_2.
Qed.

Lemma writable_all s ts :
  writable s ts = ts ↔ Forall (λ t, lands s t = true) ts.
Proof.
  induction ts as [|t ts IH]; simpl.
  - split; [constructor | done].
  - rewrite Forall_cons. destruct (lands s t).
    + rewrite <-IH. split; [by intros [= ->] | by intros [_ ->]].
    + split; [done | by intros [? _]].
Qed.

Lemma writable_prefix s ts : writable s ts `prefix_of` ts.
Proof.
  induction ts as [|t ts IH]; simpl; [done|].
  destruct (lands s t); [by apply prefix_cons | apply prefix_nil].
Qed.

Lemma writable_ext s s' ts :
  (∀ k, tableKeys s' k = tableKeys s k) → writable s' ts = writable s ts.
Proof.
  intros H. induction ts as [|t ts IH]; simpl; [done|].
  unfold lands. by rewrite H, IH.
Qed.

(** A write of the loop lands when the entry has the language, or has a
    table and the language is an inherited name. *)
Lemma lands_spec (s : obj StringEntry) k lang v e :
  getProp s k = Some e →
  lands s (k, (lang, v)) = true
  ↔ is_Some (localizationOf e lang)
    ∨ (is_Some (localizations e) ∧ inheritedName lang = true).
Proof.
  intros He. unfold lands, tableKeys, localizationOf. simpl. rewrite He. simpl.
  destruct (localizations e) as [locs|]; simpl.
  - rewrite orb_true_iff, bool_decide_eq_true, <-getProp_is_Some.
    split; (intros [?|?]; [by left | right]); [by split | tauto].
  - split; [done|]. intros [[? ?]|[[? ?] _]]; done.
Qed.

Lemma written_written l a1 a2 :
  written (written l a1) a2
  = written l (match a2 with Some v => Some v | None => a1 end).
Proof. by destruct l, a1, a2. Qed.

Lemma written_None l : written l None = l.
Proof. by destruct l. Qed.

Section MergeSemantics.
Context (needs : gmap jsstring TranslationInfo).

Lemma mergedFrom_refl st : mergedFrom needs st [] st.
Proof.
  unfold mergedFrom. split; [done|]. split; [done|]. split; [done|].
  split; [done|]. split; [done|].
  split; [intros k lang; by rewrite answerOf_nil, written_None|].
  simpl. by rewrite !app_nil_r.
Qed.

Lemma mergedFrom_warnings st ts st' w :
  mergedFrom needs st ts st' →
  mergedFrom needs st ts (mkMerge (updatedXcstringsData st') (changes st') w).
Proof. done. Qed.

Lemma mergedFrom_trans st ts1 st1 ts2 st2 :
  mergedFrom needs st ts1 st1 → mergedFrom needs st1 ts2 st2 →
  mergedFrom needs st (ts1 ++ ts2) st2.
Proof.
  intros (K1 & S1 & V1 & M1 & T1 & L1 & R1 & A1 & U1)
         (K2 & S2 & V2 & M2 & T2 & L2 & R2 & A2 & U2).
  unfold mergedFrom. rewrite K2, S2, V2, R2, A2, U2, A1, U1.
  split; [done|]. split; [done|]. split; [done|].
  split; [intros k; by rewrite M2|].
  split; [intros k; by rewrite T2|].
  split; [|by rewrite !filter_app, !fmap_app, !app_assoc].
  intros k lang. by rewrite L2, L1, answerOf_app, written_written.
Qed.

(** The ledger after the push of lines 102-107. *)
Lemma ledger_step k info lang v c :
  needs !! k = Some info →
  let c' := if bool_decide (isNew info !! lang = Some true)
            then mkChanges (added c ++ [changeKey k lang]) (updated c)
                           (staleRemoved c)
            else mkChanges (added c) (updated c ++ [changeKey k lang])
                           (staleRemoved c) in
  added c' = added c ++ (ledgerId <$>
               filter (λ t, recordedNew needs t = true) [(k, (lang, v))])
  ∧ updated c' = updated c ++ (ledgerId <$>
               filter (λ t, recordedNew needs t = false) [(k, (lang, v))])
  ∧ staleRemoved c' = staleRemoved c.
Proof.
  intros Hn. rewrite !filter_cons, !filter_nil. unfold recordedNew. simpl.
  rewrite Hn. simpl. case_bool_decide as Hnew; simpl; by rewrite app_nil_r.
Qed.

(** One write of line 97. *)
Lemma applyTranslation_step k info st lang v :
  needs !! k = Some info → lang ∈ languages info →
  if lands (strings (updatedXcstringsData st)) (k, (lang, v))
  then ∃ st', applyTranslation k info st (lang, v) = Normal st'
         ∧ warnings st' = warnings st
         ∧ mergedFrom needs st [(k, (lang, v))] st'
  else applyTranslation k info st (lang, v) = TypeError st.
Proof.
  intros Hn Hin. unfold lands, tableKeys, applyTranslation. cbn [fst snd].
  rewrite (bool_decide_eq_true_2 (lang ∈ languages info)) by done.
  destruct (getProp (strings (updatedXcstringsData st)) k) as [e|] eqn:He; simpl;
    [|done].
  destruct (localizations e) as [locs|] eqn:Hlocs; simpl; [|done].
  destruct (getProp locs lang) as [loc|] eqn:Hloc.
  - rewrite bool_decide_eq_true_2
      by (apply getProp_is_Some; by rewrite Hloc). simpl.
    eexists. split; [done|]. split; [done|].
    unfold mergedFrom. cbn [updatedXcstringsData changes strings withStrings
                            sourceLanguage version].
    split. { apply keys_setProp_in. apply getProp_is_Some. by rewrite He. }
    split; [done|]. split; [done|].
    split.
    { intros k'. unfold metaOf. rewrite getProp_setProp. case_decide as Hk; [|done].
      subst k'. by rewrite He. }
    split.
    { intros k'. unfold tableKeys. rewrite getProp_setProp.
      case_decide as Hk; [|done]. subst k'. rewrite He. simpl. rewrite Hlocs.
      simpl. f_equal. apply keys_setProp_in, getProp_is_Some. by rewrite Hloc. }
    split.
    { intros k' lang'. rewrite answerOf_singleton. simpl. unfold locOf.
      rewrite getProp_setProp. case_decide as Hk.
      - subst k'. simpl. unfold localizationOf. simpl. rewrite getProp_setProp.
        rewrite He. simpl. rewrite Hlocs. simpl. case_decide as Hl.
        + subst lang'. rewrite bool_decide_eq_true_2 by done. by rewrite Hloc.
        + rewrite bool_decide_eq_false_2 by (intros [_ ?]; done).
          by rewrite written_None.
      - rewrite bool_decide_eq_false_2 by (intros [? _]; done).
        by rewrite written_None. }
    destruct (ledger_step k info lang v (changes st) Hn) as (Ha & Hu & Hr).
    by rewrite Ha, Hu, Hr.
  - rewrite bool_decide_eq_false_2
      by (apply getProp_None; by rewrite Hloc). simpl.
    destruct (inheritedName lang) eqn:Hname; [|done].
    eexists. split; [done|]. split; [done|].
    unfold mergedFrom. cbn [updatedXcstringsData changes].
    split; [done|]. split; [done|]. split; [done|]. split; [done|].
    split; [done|].
    split.
    { intros k' lang'. rewrite answerOf_singleton. simpl.
      case_bool_decide as Hkl; [|by rewrite written_None].
      destruct Hkl as [-> ->]. unfold locOf. rewrite He. simpl.
      unfold localizationOf. rewrite Hlocs. simpl. by rewrite Hloc. }
    destruct (ledger_step k info lang v (changes st) Hn) as (Ha & Hu & Hr).
    by rewrite Ha, Hu, Hr.
Qed.

(** The inner loop (lines 95-108) over the translations of one item. *)
Lemma applyTranslations_spec k info ps : ∀ st,
  needs !! k = Some info →
  let ts := (k,.) <$> filter (λ p, p.1 ∈ languages info) ps in
  let done_ := writable (strings (updatedXcstringsData st)) ts in
  mergedFrom needs st done_ (finalState (applyTranslations k info ps st))
  ∧ warnings (finalState (applyTranslations k info ps st)) = warnings st
  ∧ isNormal (applyTranslations k info ps st) = bool_decide (done_ = ts).
Proof.
  induction ps as [|[lang v] ps IH]; intros st Hn.
  - split; [apply mergedFrom_refl | done].
  - cbn [applyTranslations]. rewrite filter_cons. cbn [fst].
    case_decide as Hin.
    + rewrite fmap_cons. cbn [writable].
      pose proof (applyTranslation_step k info st lang v Hn Hin) as Hstep.
      destruct (lands _ (k, (lang, v))) eqn:Hhas.
      * destruct Hstep as (st1 & -> & Hw & Hm).
        destruct (IH st1 Hn) as (Hm' & Hw' & Hnorm).
        assert (∀ k', tableKeys (strings (updatedXcstringsData st1)) k'
                      = tableKeys (strings (updatedXcstringsData st)) k') as Hsame
          by apply Hm.
        rewrite (writable_ext _ _ _ Hsame) in Hm', Hnorm.
        split; [apply (mergedFrom_trans st [(k, (lang, v))] st1); done|].
        split; [by rewrite Hw', Hw|]. rewrite Hnorm.
        apply bool_decide_ext. split; [by intros -> | by intros [= ?]].
      * rewrite Hstep. simpl. split; [apply mergedFrom_refl | done].
    + rewrite applyTranslation_out_of_scope by done. by apply IH.
Qed.

Lemma acceptedOf_ext s s' item :
  keys s' = keys s → acceptedOf needs s' item = acceptedOf needs s item.
Proof.
  intros Hk. unfold acceptedOf.
  destruct (getProp s (itemKey item)) as [e|] eqn:E.
  - assert (is_Some (getProp s' (itemKey item))) as [e' ->]; [|done].
    apply getProp_is_Some. rewrite Hk. apply getProp_is_Some. by rewrite E.
  - apply getProp_None in E. rewrite <-Hk in E. apply getProp_None in E. by rewrite E.
Qed.

Lemma accepted_ext s s' response :
  keys s' = keys s → accepted needs s' response = accepted needs s response.
Proof.
  intros Hk. unfold accepted. induction response as [|item rest IH]; [done|].
  rewrite !bind_cons. by rewrite IH, (acceptedOf_ext s s').
Qed.

Lemma unknownKeys_ext s s' response :
  keys s' = keys s → unknownKeys needs s' response = unknownKeys needs s response.
Proof.
  intros Hk. unfold unknownKeys. apply list_filter_iff. intros k.
  rewrite !getProp_None, Hk. done.
Qed.

(** The whole loop (lines 85-110). *)
Lemma mergeTranslations_spec response : ∀ st,
  let ts := accepted needs (strings (updatedXcstringsData st)) response in
  let done_ := writable (strings (updatedXcstringsData st)) ts in
  mergedFrom needs st done_ (finalState (mergeTranslations needs response st))
  ∧ isNormal (mergeTranslations needs response st) = bool_decide (done_ = ts)
  ∧ (done_ = ts →
     warnings (finalState (mergeTranslations needs response st))
     = warnings st ++ (unknownKeyWarning <$>
         unknownKeys needs (strings (updatedXcstringsData st)) response)).
Proof.
  induction response as [|item rest IH]; intros st.
  - split; [apply mergedFrom_refl|]. split; [done|].
    intros _. unfold unknownKeys. simpl. by rewrite app_nil_r.
  - cbn [mergeTranslations]. unfold accepted. rewrite bind_cons. fold (accepted needs (strings (updatedXcstringsData st)) rest).
    unfold unknownKeys. rewrite fmap_cons, filter_cons.
    fold (unknownKeys needs (strings (updatedXcstringsData st)) rest).
    unfold mergeItem, acceptedOf.
    destruct (getProp (strings (updatedXcstringsData st)) (itemKey item)) as [e|] eqn:He.
    + destruct (needs !! itemKey item) as [info|] eqn:Hi.
      * rewrite decide_False by (intros [?|?]; done).
        destruct (applyTranslations_spec (itemKey item) info (translations item) st Hi)
          as (Hm & Hw & Hnorm).
        rewrite writable_app.
        destruct (applyTranslations _ _ _ st) as [st1|st1] eqn:Happ; simpl in *.
        -- symmetry in Hnorm. apply bool_decide_eq_true in Hnorm.
           rewrite bool_decide_eq_true_2 by done. rewrite Hnorm in Hm.
           destruct (IH st1) as (Hm' & Hnorm' & Hw').
           assert (keys (strings (updatedXcstringsData st1))
                   = keys (strings (updatedXcstringsData st))) as Hk by apply Hm.
           rewrite (accepted_ext _ _ _ Hk), (unknownKeys_ext _ _ _ Hk) in *.
           assert (∀ k', tableKeys (strings (updatedXcstringsData st1)) k'
                         = tableKeys (strings (updatedXcstringsData st)) k') as Hsame
             by apply Hm.
           rewrite (writable_ext _ _ _ Hsame) in *.
           split; [by eapply mergedFrom_trans|].
           split.
           { rewrite Hnorm'. apply bool_decide_ext.
             split; [by intros -> | by intros ?%app_inv_head]. }
           intros Hd%app_inv_head. rewrite Hw' by done. by rewrite Hw.
        -- symmetry in Hnorm. apply bool_decide_eq_false in Hnorm.
           rewrite bool_decide_eq_false_2 by done.
           split; [done|]. split.
           { symmetry. apply bool_decide_eq_false. intros Heq.
             pose proof (writable_prefix (strings (updatedXcstringsData st))
               ((itemKey item,.) <$> filter (λ p, p.1 ∈ languages info) (translations item)))
               as [l Hl].
             rewrite Hl in Heq at 2. rewrite <-app_assoc in Heq.
             rewrite <-(app_nil_r (writable _ _)) in Heq at 1.
             apply app_inv_head in Heq. symmetry in Heq.
             apply app_eq_nil in Heq as [-> _]. rewrite app_nil_r in Hl. done. }
           intros Heq. exfalso.
           pose proof (writable_prefix (strings (updatedXcstringsData st))
               ((itemKey item,.) <$> filter (λ p, p.1 ∈ languages info) (translations item)))
               as [l Hl].
           rewrite Hl in Heq at 2. rewrite <-app_assoc in Heq.
           rewrite <-(app_nil_r (writable _ _)) in Heq at 1.
           apply app_inv_head in Heq. symmetry in Heq.
           apply app_eq_nil in Heq as [-> _]. rewrite app_nil_r in Hl. done.
      * rewrite decide_True by (by right). simpl.
        destruct (IH (mkMerge (updatedXcstringsData st) (changes st)
                     (warnings st ++ [unknownKeyWarning (itemKey item)])))
          as (Hm & Hnorm & Hw). simpl in *.
        split; [done|]. split; [done|]. intros Hd. rewrite Hw by done.
        by rewrite <-app_assoc.
    + rewrite decide_True by (by left). simpl.
      destruct (IH (mkMerge (updatedXcstringsData st) (changes st)
                   (warnings st ++ [unknownKeyWarning (itemKey item)])))
        as (Hm & Hnorm & Hw). simpl in *.
      split; [done|]. split; [done|]. intros Hd. rewrite Hw by done.
      by rewrite <-app_assoc.
Qed.
End MergeSemantics.

Lemma length_filter_split {A} (f : A → bool) (l : list A) :
  length (filter (λ x, f x = true) l) + length (filter (λ x, f x = false) l)
  = length l.
Proof.
  induction l as [|x l IH]; [done|]. rewrite !filter_cons.
  destruct (f x); simpl; lia.
Qed.

Lemma elem_of_accepted needs (s : obj StringEntry) response k lang v :
  (k, (lang, v)) ∈ accepted needs s response
  ↔ ∃ item info, item ∈ response ∧ itemKey item = k
      ∧ is_Some (getProp s k) ∧ needs !! k = Some info
      ∧ lang ∈ languages info ∧ (lang, v) ∈ translations item.
Proof.
  unfold accepted. rewrite list_elem_of_bind. split.
  - intros (item & Hin & Hitem). unfold acceptedOf in Hin.
    destruct (getProp s (itemKey item)) as [e|] eqn:He; [|by apply elem_of_nil in Hin].
    destruct (needs !! itemKey item) as [info|] eqn:Hi; [|by apply elem_of_nil in Hin].
    apply list_elem_of_fmap in Hin as ([lang' v'] & [= -> -> ->] & Hin).
    apply list_elem_of_filter in Hin as [Hl Hin]. simpl in Hl.
    exists item, info. rewrite He. eauto 10.
  - intros (item & info & Hitem & <- & [e He] & Hi & Hl & Hin).
    exists item. split; [|done]. unfold acceptedOf. rewrite He, Hi.
    apply list_elem_of_fmap. exists (lang, v). split; [done|].
    by apply list_elem_of_filter.
Qed.

Lemma mergeTranslations_normal_iff needs response st :
  isNormal (mergeTranslations needs response st) = true
  ↔ ∀ item info lang v e,
      item ∈ response → needs !! itemKey item = Some info →
      (lang, v) ∈ translations item → lang ∈ languages info →
      getProp (strings (updatedXcstringsData st)) (itemKey item) = Some e →
      is_Some (localizationOf e lang)
      ∨ (is_Some (localizations e) ∧ inheritedName lang = true).
Proof.
  destruct (mergeTranslations_spec needs response st) as (_ & -> & _).
  rewrite bool_decide_eq_true, writable_all, Forall_forall. split.
  - intros H item info lang v e Hitem Hi Hin Hl He.
    apply (lands_spec _ (itemKey item) lang v e He). apply H.
    apply elem_of_accepted. exists item, info. rewrite He. eauto 10.
  - intros H [k [lang v]] (item & info & Hitem & <- & [e He] & Hi & Hl & Hin)%elem_of_accepted.
    apply (lands_spec _ (itemKey item) lang v e He). eauto.
Qed.

(** X6. The merge loop completes exactly when every translation it
    takes up (the item's key is in the catalog and in the need index, the
    language is one the key needs) finds an object to write to: the key
    has a localization entry for the language, or it has a
    [localizations] table and the language is the name of a member of
    [Object.prototype]; otherwise it throws. *)
Theorem merge_completes_iff needs response st :
  (isNormal (mergeTranslations needs response st) = true
   ↔ ∀ item info lang v e,
       item ∈ response → needs !! itemKey item = Some info →
       (lang, v) ∈ translations item → lang ∈ languages info →
       getProp (strings (updatedXcstringsData st)) (itemKey item) = Some e →
       is_Some (localizationOf e lang)
       ∨ (is_Some (localizations e) ∧ inheritedName lang = true))
  ∧ (isNormal (mergeTranslations needs response st) = false
     ↔ ∃ st', mergeTranslations needs response st = TypeError st').
Proof.
  split; [apply mergeTranslations_normal_iff|].
  destruct (mergeTranslations needs response st) as [st'|st']; simpl.
  - split; [done | by intros [? ?]].
  - split; [by exists st' | done].
Qed.

Lemma mergeTranslations_normal_result needs response st st' :
  mergeTranslations needs response st = Normal st' →
  let s := strings (updatedXcstringsData st) in
  keys (strings (updatedXcstringsData st')) = keys s
  ∧ (∀ k, metaOf (strings (updatedXcstringsData st')) k = metaOf s k)
  ∧ (∀ k, tableKeys (strings (updatedXcstringsData st')) k = tableKeys s k)
  ∧ (∀ k lang,
       locOf (strings (updatedXcstringsData st')) k lang
       = written (locOf s k lang) (answerOf (accepted needs s response) k lang)).
Proof.
  intros Hm s. subst s.
  destruct (mergeTranslations_spec needs response st) as (H & Hn & _).
  rewrite Hm in H, Hn. simpl in *. symmetry in Hn. apply bool_decide_eq_true in Hn.
  rewrite Hn in H. destruct H as (K & _ & _ & M & T & L & _). done.
Qed.

(** X7. After a merge that completes the catalog has the same keys in
    the same order, every entry has its comment, extraction state and
    opt-out flag and its [localizations] table has the same languages in
    the same order; where a key had a localization entry for a language
    and the response has translations for them among those taken up, the
    entry is the last such value with state [translated]; every other
    localization is what it was, and where the key had no entry for the
    language it has none afterwards (a translation taken up for the name
    of a member of [Object.prototype] is written outside the catalog). *)
Theorem merge_writes_last_answer needs response st st' :
  mergeTranslations needs response st = Normal st' →
  let s := strings (updatedXcstringsData st) in
  let s' := strings (updatedXcstringsData st') in
  keys s' = keys s
  ∧ (∀ k, metaOf s' k = metaOf s k)
  ∧ (∀ k, tableKeys s' k = tableKeys s k)
  ∧ (∀ k lang,
       locOf s' k lang
       = match locOf s k lang, answerOf (accepted needs s response) k lang with
         | Some _, Some v => Some (mkLocalization (Some (translatedUnit v)))
         | l, _ => l
         end).
Proof.
  intros Hm s s'. subst s s'.
  destruct (mergeTranslations_normal_result needs response st st' Hm)
    as (K & M & T & L).
  split; [done|]. split; [done|]. split; [done|].
  intros k lang. rewrite L. unfold written.
  by destruct (locOf (strings (updatedXcstringsData st)) k lang),
              (answerOf (accepted needs (strings (updatedXcstringsData st)) response)
                        k lang).
Qed.

(** X8. After a merge that completes the ledger has one identifier
    more for each translation taken up, in the order of the response and
    as often as the response repeats it: in [added] when the need index
    records the language as new, in [updated] otherwise; [staleRemoved]
    is as the analysis left it, and there is one warning for each
    response item whose key is not in the catalog or not in the need
    index. *)
Theorem merge_ledger needs response st st' :
  mergeTranslations needs response st = Normal st' →
  let s := strings (updatedXcstringsData st) in
  added (changes st')
  = added (changes st)
    ++ (ledgerId <$> filter (λ t, recordedNew needs t = true) (accepted needs s response))
  ∧ updated (changes st')
    = updated (changes st)
      ++ (ledgerId <$> filter (λ t, recordedNew needs t = false) (accepted needs s response))
  ∧ staleRemoved (changes st') = staleRemoved (changes st)
  ∧ warnings st' = warnings st ++ (unknownKeyWarning <$> unknownKeys needs s response)
  ∧ length (added (changes st')) + length (updated (changes st'))
    = length (added (changes st)) + length (updated (changes st))
      + length (accepted needs s response).
Proof.
  intros Hm s. subst s.
  destruct (mergeTranslations_spec needs response st) as (H & Hn & Hw).
  rewrite Hm in H, Hn, Hw. simpl in *. symmetry in Hn. apply bool_decide_eq_true in Hn.
  rewrite Hn in H. destruct H as (_ & _ & _ & _ & _ & _ & R & A & U).
  split; [done|]. split; [done|]. split; [done|]. split; [by apply Hw|].
  rewrite A, U, !length_app, !length_fmap.
  pose proof (length_filter_split (recordedNew needs)
                (accepted needs (strings (updatedXcstringsData st)) response)) as Hl.
  lia.
Qed.

(** X9. Whether the merge completes or throws, the catalog it leaves
    has the keys, the source language, the version and each entry's
    comment, extraction state and opt-out flag it started with; a
    localization differs only where an entry existed, the need index
    lists the language for the key and the response has the value
    written; [staleRemoved] is unchanged and [added] and [updated] only
    grow at the end. *)
Theorem merge_frame needs response st :
  let st' := finalState (mergeTranslations needs response st) in
  let s := strings (updatedXcstringsData st) in
  let s' := strings (updatedXcstringsData st') in
  keys s' = keys s
  ∧ sourceLanguage (updatedXcstringsData st') = sourceLanguage (updatedXcstringsData st)
  ∧ version (updatedXcstringsData st') = version (updatedXcstringsData st)
  ∧ (∀ k, metaOf s' k = metaOf s k)
  ∧ (∀ k lang,
       locOf s' k lang = locOf s k lang
       ∨ (is_Some (locOf s k lang)
          ∧ ∃ item info v, item ∈ response ∧ itemKey item = k
              ∧ needs !! k = Some info ∧ lang ∈ languages info
              ∧ (lang, v) ∈ translations item
              ∧ locOf s' k lang = Some (mkLocalization (Some (translatedUnit v)))))
  ∧ staleRemoved (changes st') = staleRemoved (changes st)
  ∧ added (changes st) `prefix_of` added (changes st')
  ∧ updated (changes st) `prefix_of` updated (changes st').
Proof.
  intros st' s s'. subst st' s s'.
  destruct (mergeTranslations_spec needs response st)
    as ((K & S & V & M & _ & L & R & A & U) & _ & _).
  split; [done|]. split; [done|]. split; [done|]. split; [done|].
  split; [|split; [done|split; [rewrite A; by apply prefix_app_r
                               |rewrite U; by apply prefix_app_r]]].
  intros k lang. rewrite L.
  destruct (locOf (strings (updatedXcstringsData st)) k lang) as [l0|] eqn:El;
    [|by left].
  destruct (answerOf _ k lang) as [v|] eqn:E; [right | by left].
  apply answerOf_elem in E.
  split; [done|].
  destruct (writable_prefix (strings (updatedXcstringsData st))
    (accepted needs (strings (updatedXcstringsData st)) response)) as [l Hl].
  assert ((k, (lang, v)) ∈ accepted needs (strings (updatedXcstringsData st)) response)
    as Hin by (rewrite Hl; apply elem_of_app; by left).
  apply elem_of_accepted in Hin as (item & info & ? & ? & ? & ? & ? & ?).
  exists item, info, v. done.
Qed.

(** * The analysis and the merge together *)

Lemma omap_nil_all {A B} (f : A → option B) (l : list A) :
  (∀ x, x ∈ l → f x = None) → omap f l = [].
Proof.
  induction l as [|x l IH]; intros H; [done|].
  rewrite omap_cons', (H x) by apply list_elem_of_here.
  apply IH. intros y Hy. apply H. by apply list_elem_of_further.
Qed.

Lemma filter_none {A} (P : A → Prop) `{!∀ x, Decision (P x)} (l : list A) :
  (∀ x, x ∈ l → ¬ P x) → filter P l = [].
Proof.
  induction l as [|x l IH]; intros Hn; [done|].
  rewrite filter_cons_False by (apply Hn, list_elem_of_here).
  apply IH. intros y Hy. apply Hn. by apply list_elem_of_further.
Qed.

Lemma infoOf_settled targets e :
  (∀ lang, lang ∈ targets → needsTranslationForLang (localizationOf e lang) = false) →
  infoOf targets e = None.
Proof.
  intros H. unfold infoOf. destruct (isStale e); [done|].
  destruct (optedOut e); [done|]. simpl.
  rewrite checkLanguages_languages, filter_none; [done|].
  intros lang Hl. rewrite getProp_default, (H lang Hl). done.
Qed.

Lemma translated_settled v :
  ¬ blank v →
  needsTranslationForLang (Some (mkLocalization (Some (translatedUnit v)))) = false.
Proof.
  intros Hv. apply not_true_is_false. rewrite needsTranslationForLang_spec.
  unfold needsWork, valueOf, stateOf. simpl. intros [H|[(v' & [= <-] & H)|H]]; try done.
Qed.

Lemma mergeTranslations_settles data targets hint response st :
  wfObj (strings data) →
  mergeTranslations
    (stringTranslationMap (analyzeStringsForTranslation data targets hint)) response
    (mergeStart (analyzeStringsForTranslation data targets hint)) = Normal st →
  (∀ q lang, q ∈ translationRequests (analyzeStringsForTranslation data targets hint) →
     lang ∈ targetLanguages q →
     ∃ item v, item ∈ response ∧ itemKey item = key q ∧ (lang, v) ∈ translations item) →
  (∀ item lang v, item ∈ response → (lang, v) ∈ translations item → ¬ blank v) →
  (∀ lang, lang ∈ targets → inheritedName lang = false) →
  wfObj (strings (updatedXcstringsData st))
  ∧ ∀ k e, (k, e) ∈ strings (updatedXcstringsData st) →
           isStale e = false ∧ infoOf targets e = None.
Proof.
  intros Hwf Hm Hall Hnb Hown.
  set (r := analyzeStringsForTranslation data targets hint) in *.
  assert (wfObj (strings (modifiedXcstringsData r))) as Hwf1.
  { subst r. rewrite analyze_strings by done.
    eapply sublist_NoDup; [exact Hwf | apply kept_keys_sublist]. }
  destruct (mergeTranslations_normal_result _ _ _ _ Hm) as (K & M & _ & L).
  simpl in K, M, L.
  assert (isNormal (mergeTranslations (stringTranslationMap r) response (mergeStart r))
          = true) as Hnormal by (by rewrite Hm).
  rewrite mergeTranslations_normal_iff in Hnormal. simpl in Hnormal.
  assert (wfObj (strings (updatedXcstringsData st))) as Hwf2.
  { unfold wfObj. by rewrite K. }
  split; [done|].
  intros k e He. apply (getProp_elem _ _ _ Hwf2) in He.
  pose proof (M k) as Mk. unfold metaOf in Mk. rewrite He in Mk. simpl in Mk.
  destruct (getProp (strings (modifiedXcstringsData r)) k) as [e1|] eqn:He1; [|done].
  injection Mk as Hc Hx Hs.
  pose proof He1 as Hkept. subst r.
  rewrite analyze_strings, getProp_kept in Hkept by done.
  destruct (getProp (strings data) k) as [e0|] eqn:He0; [|done]. simpl in Hkept.
  assert (isStale e = false) as Hst.
  { unfold isStale. rewrite Hx. by apply (keptOf_not_stale e0). }
  split; [done|].
  destruct (optedOut e) eqn:Ho; [by apply infoOf_optedOut|].
  apply infoOf_settled. intros lang Hl.
  pose proof (L k lang) as Lk. unfold locOf in Lk at 1. rewrite He in Lk. simpl in Lk.
  rewrite Lk.
  destruct (answerOf _ k lang) as [v|] eqn:Ha.
  - apply answerOf_elem, elem_of_accepted in Ha
      as (item & info & Hitem & Hkey & _ & Hi & Hlang & Hin).
    unfold locOf. rewrite He1. simpl.
    destruct (localizationOf e1 lang) as [l1|] eqn:El1; simpl.
    + apply translated_settled. by eapply Hnb.
    + exfalso. subst k.
      destruct (Hnormal item info lang v e1 Hitem Hi Hin Hlang He1)
        as [[l1 Hl1]|[_ Hname]]; [congruence|].
      rewrite Hown in Hname; done.
  - rewrite written_None. unfold locOf. rewrite He1. simpl.
    assert (optedOut e0 = false) as Ho0.
    { unfold keptOf in Hkept. destruct (isStale e0); [done|].
      destruct (optedOut e0) eqn:Ho0; [|done]. injection Hkept as <-.
      unfold optedOut in Ho, Ho0. rewrite Hs in Ho. congruence. }
    assert (isStale e0 = false) as Hs0.
    { unfold keptOf in Hkept. by destruct (isStale e0). }
    assert (e1 = normalized e0) as ->.
    { unfold keptOf in Hkept. rewrite Hs0, Ho0 in Hkept. by injection Hkept. }
    rewrite localizationOf_normalized.
    destruct (needsTranslationForLang (localizationOf e0 lang)) eqn:Hneed; [|done].
    exfalso.
    assert (lang ∈ filter (λ l, needsTranslationForLang (localizationOf e0 l) = true)
                      targets) as Hlang by by apply list_elem_of_filter.
    rewrite <-(processed_languages targets e0 Hs0 Ho0) in Hlang.
    destruct (infoOf targets e0) as [info|] eqn:Hinfo;
      [|by apply elem_of_nil in Hlang].
    simpl in Hlang.
    destruct (Hall (mkRequest k (sourceText k (candidateOf hint e0))
                      (languages info) (comment e0)) lang)
      as (item & v & Hitem & Hkey & Hin); [| done |].
    { rewrite analyze_requests by done. apply list_elem_of_omap.
      exists (k, e0). split; [by apply getProp_Some_elem|].
      unfold requestOf. simpl. by rewrite Hinfo. }
    simpl in Hkey.
    assert (is_Some (answerOf (accepted
              (stringTranslationMap (analyzeStringsForTranslation data targets hint))
              (strings (modifiedXcstringsData
                 (analyzeStringsForTranslation data targets hint))) response) k lang))
      as [v' Hv'].
    { apply answerOf_is_Some. exists v. apply elem_of_accepted.
      exists item, info. split; [done|]. split; [done|].
      split; [by rewrite He1|]. split; [|done].
      rewrite analyze_need, He0 by done. done. }
    simpl in Ha. congruence.
Qed.

(** Nothing requested: the working copy has nothing to translate. *)
Lemma unrequested_settled data targets hint :
  wfObj (strings data) →
  ¬ 0 < length (translationRequests (analyzeStringsForTranslation data targets hint)) →
  wfObj (strings (modifiedXcstringsData
                   (analyzeStringsForTranslation data targets hint)))
  ∧ ∀ k e, (k, e) ∈ strings (modifiedXcstringsData
                               (analyzeStringsForTranslation data targets hint)) →
           isStale e = false ∧ infoOf targets e = None.
Proof.
  intros Hwf Hreq. rewrite analyze_requests in Hreq by done.
  rewrite analyze_strings by done. split.
  { eapply sublist_NoDup; [exact Hwf | apply kept_keys_sublist]. }
  intros k e (e0 & Hin & Hk)%elem_of_kept.
  split; [by apply (keptOf_not_stale e0)|].
  rewrite (keptOf_infoOf _ _ _ Hk).
  destruct (infoOf targets e0) as [i|] eqn:Hi; [|done]. exfalso. apply Hreq.
  assert (mkRequest k (sourceText k (candidateOf hint e0)) (languages i) (comment e0)
          ∈ omap (requestOf targets hint) (strings data)) as Hq.
  { apply list_elem_of_omap. exists (k, e0). split; [done|].
    unfold requestOf. simpl. by rewrite Hi. }
  destruct (omap _ (strings data)); [by apply elem_of_nil in Hq | simpl; lia].
Qed.

(** A catalog whose entries are settled gives the analysis nothing to do. *)
Lemma settled_analysis d targets hint :
  wfObj (strings d) →
  (∀ k e, (k, e) ∈ strings d → isStale e = false ∧ infoOf targets e = None) →
  translationRequests (analyzeStringsForTranslation d targets hint) = []
  ∧ xcstringsModified (analyzeStringsForTranslation d targets hint) = false
  ∧ translationChanges (analyzeStringsForTranslation d targets hint) = emptyChanges.
Proof.
  intros Hwf Hsettled.
  rewrite analyze_requests, analyze_modified, analyze_changes by done.
  split; [|split].
  - apply omap_nil_all. intros [k e] He. unfold requestOf. simpl.
    by destruct (Hsettled k e He) as [_ ->].
  - apply bool_decide_eq_false. rewrite Exists_exists.
    intros ([k e] & He & Hs). destruct (Hsettled k e He) as [Hs' _].
    simpl in Hs. congruence.
  - unfold emptyChanges. f_equal. apply staleKeys_none, Forall_forall.
    intros [k e] He. by destruct (Hsettled k e He) as [? _].
Qed.

(** A translation taken up for the name of a member of
    [Object.prototype] is never settled: the merge completes, the
    response answers the one request and has no blank value, and the
    analysis of the merged catalog asks for the language again. *)
Example inherited_name_never_settles :
  merge (analyzeStringsForTranslation helloCatalog [js "constructor"] None)
        constructorResponse
  = Normal (mkMerge helloCatalog (mkChanges [] [js "Hello (constructor)"] []) [])
  ∧ translationRequests
      (analyzeStringsForTranslation helloCatalog [js "constructor"] None)
    = [mkRequest (js "Hello") (js "Hello") [js "constructor"] None].
Proof. by vm_compute. Qed.

(** X11. When the merge completes on a response that answers every
    language of every request and has no blank value, and no target
    language is the name of a member of [Object.prototype], analysing
    the merged catalog again finds nothing to translate and nothing to
    remove. *)
Theorem complete_answer_settles data targets hint response st :
  wfObj (strings data) →
  merge (analyzeStringsForTranslation data targets hint) response = Normal st →
  (∀ q lang, q ∈ translationRequests (analyzeStringsForTranslation data targets hint) →
     lang ∈ targetLanguages q →
     ∃ item v, item ∈ response ∧ itemKey item = key q ∧ (lang, v) ∈ translations item) →
  (∀ item lang v, item ∈ response → (lang, v) ∈ translations item → ¬ blank v) →
  (∀ lang, lang ∈ targets → inheritedName lang = false) →
  let r' := analyzeStringsForTranslation (updatedXcstringsData st) targets hint in
  translationRequests r' = []
  ∧ xcstringsModified r' = false
  ∧ staleRemoved (translationChanges r') = [].
Proof.
  intros Hwf Hm Hall Hnb Hown r'. subst r'. unfold merge in Hm.
  assert (wfObj (strings (updatedXcstringsData st))
          ∧ ∀ k e, (k, e) ∈ strings (updatedXcstringsData st) →
                   isStale e = false ∧ infoOf targets e = None) as [Hwf' Hsettled].
  { case_bool_decide as Hreq.
    - by apply (mergeTranslations_settles data targets hint response).
    - injection Hm as <-. by apply unrequested_settled. }
  destruct (settled_analysis _ targets hint Hwf' Hsettled) as (Hq & Hmod & Hc).
  rewrite Hq, Hmod, Hc. done.
Qed.

Lemma merge_writes_last_answer_witness :
  locOf (strings (updatedXcstringsData (finalState
           (merge (analyzeStringsForTranslation reviewCatalog reviewTargets None)
                  reviewResponse))))
        (js "Hello") (js "de")
  = Some (mkLocalization (Some (translatedUnit (js "Hallo!")))).
Proof.
  destruct (merge_writes_last_answer
              (stringTranslationMap
                 (analyzeStringsForTranslation reviewCatalog reviewTargets None))
              reviewResponse
              (mergeStart (analyzeStringsForTranslation reviewCatalog reviewTargets None))
              (finalState
                 (merge (analyzeStringsForTranslation reviewCatalog reviewTargets None)
                        reviewResponse)))
    as (_ & _ & _ & H).
  - vm_compute. reflexivity.
  - rewrite (H (js "Hello") (js "de")). vm_compute. reflexivity.
Defined.

Lemma merge_ledger_witness :
  updated (changes (finalState
    (merge (analyzeStringsForTranslation reviewCatalog reviewTargets None)
           reviewResponse)))
  = [js "Hello (de)"; js "Hello (fr)"].
Proof.
  destruct (merge_ledger
              (stringTranslationMap
                 (analyzeStringsForTranslation reviewCatalog reviewTargets None))
              reviewResponse
              (mergeStart (analyzeStringsForTranslation reviewCatalog reviewTargets None))
              (finalState
                 (merge (analyzeStringsForTranslation reviewCatalog reviewTargets None)
                        reviewResponse)))
    as (_ & H & _).
  - vm_compute. reflexivity.
  - rewrite H. vm_compute. reflexivity.
Defined.

Lemma complete_answer_settles_witness :
  translationRequests
    (analyzeStringsForTranslation
       (updatedXcstringsData (finalState
          (merge (analyzeStringsForTranslation reviewCatalog reviewTargets None)
                 reviewResponse)))
       reviewTargets None) = [].
Proof.
  destruct (complete_answer_settles reviewCatalog reviewTargets None reviewResponse
              (finalState
                 (merge (analyzeStringsForTranslation reviewCatalog reviewTargets None)
                        reviewResponse)))
    as (H & _).
  - solve_wf.
  - vm_compute. reflexivity.
  - intros q lang Hq Hl.
    assert (translationRequests
              (analyzeStringsForTranslation reviewCatalog reviewTargets None)
            = [mkRequest (js "Hello") (js "Hello") [js "de"; js "fr"] None]) as E
      by (vm_compute; reflexivity).
    rewrite E in Hq. apply list_elem_of_singleton in Hq. subst q.
    exists (mkItem (js "Hello") [(js "de", js "Hallo!"); (js "fr", js "Bonjour")]).
    simpl in Hl. apply elem_of_cons in Hl as [->|Hl].
    + exists (js "Hallo!"). split; [left|]. split; [reflexivity | left].
    + apply list_elem_of_singleton in Hl. subst lang.
      exists (js "Bonjour"). split; [left|]. split; [reflexivity | right; left].
  - intros item lang v Hitem Hin. apply list_elem_of_singleton in Hitem. subst item.
    simpl in Hin. apply elem_of_cons in Hin as [[= -> ->]|Hin].
    + intros Hb. inversion Hb as [|? ? Hc _]. vm_compute in Hc. discriminate.
    + apply list_elem_of_singleton in Hin. injection Hin as -> ->.
      intros Hb. inversion Hb as [|? ? Hc _]. vm_compute in Hc. discriminate.
  - intros lang Hin.
    apply elem_of_cons in Hin as [->|Hin];
      [|apply list_elem_of_singleton in Hin as ->]; vm_compute; reflexivity.
  - exact H.
Defined.

Lemma keptOf_entry e0 e1 :
  keptOf e0 = Some e1 →
  ∀ lang, localizationOf e1 lang = localizationOf e0 lang.
Proof.
  unfold keptOf. destruct (isStale e0); [done|].
  destruct (optedOut e0); intros [= <-] lang; [done|].
  apply localizationOf_normalized.
Qed.

Lemma merge_frame_loc needs response st k lang :
  locOf (strings (updatedXcstringsData
           (finalState (mergeTranslations needs response st)))) k lang
  = locOf (strings (updatedXcstringsData st)) k lang
  ∨ ∃ info, needs !! k = Some info ∧ lang ∈ languages info.
Proof.
  destruct (mergeTranslations_spec needs response st)
    as ((_ & _ & _ & _ & _ & L & _) & _ & _).
  rewrite L. destruct (answerOf _ k lang) as [v|] eqn:E;
    [right | left; by rewrite written_None].
  apply answerOf_elem in E.
  destruct (writable_prefix (strings (updatedXcstringsData st))
    (accepted needs (strings (updatedXcstringsData st)) response)) as [l Hl].
  assert ((k, (lang, v)) ∈ accepted needs (strings (updatedXcstringsData st)) response)
    as Hin by (rewrite Hl; apply elem_of_app; by left).
  apply elem_of_accepted in Hin as (item & info & ? & ? & ? & ? & ? & ?). eauto.
Qed.

(** X12. No response overwrites a translation that did not need work:
    whether the merge completes or throws, an entry of the catalog that
    is not stale has, for every language that the analysis did not list
    for its key, the localization the catalog gave it. The languages the
    analysis lists are target languages that need work, and none for a
    key that is opted out. *)
Theorem settled_translations_survive data targets hint response k e lang :
  wfObj (strings data) →
  getProp (strings data) k = Some e →
  extractionState e ≠ Some (js "stale") →
  let r := analyzeStringsForTranslation data targets hint in
  (lang ∈ languagesNeededFor r k
   ↔ shouldTranslate e ≠ Some false ∧ lang ∈ targets
     ∧ needsWork (localizationOf e lang))
  ∧ (lang ∉ languagesNeededFor r k →
     locOf (strings (updatedXcstringsData (finalState (merge r response)))) k lang
     = localizationOf e lang).
Proof.
  intros Hwf He Hns r. subst r. apply isStale_false in Hns.
  assert (languagesNeededFor (analyzeStringsForTranslation data targets hint) k
          = from_option languages [] (infoOf targets e)) as Hlangs.
  { unfold languagesNeededFor. by rewrite analyze_need, He by done. }
  rewrite Hlangs. split.
  - destruct (optedOut e) eqn:Ho.
    + rewrite infoOf_optedOut by done. simpl.
      unfold optedOut in Ho. apply bool_decide_eq_true in Ho.
      split; [by intros ?%elem_of_nil | by intros [? _]].
    + rewrite processed_languages, list_elem_of_filter, needsTranslationForLang_spec
        by done.
      unfold optedOut in Ho. apply bool_decide_eq_false in Ho. tauto.
  - intros Hl.
    assert (locOf (strings (modifiedXcstringsData
              (analyzeStringsForTranslation data targets hint))) k lang
            = localizationOf e lang) as Hstart.
    { unfold locOf. rewrite analyze_strings, getProp_kept, He by done. simpl.
      destruct (keptOf e) as [e1|] eqn:Hk.
      - simpl. by apply keptOf_entry.
      - unfold keptOf in Hk. rewrite Hns in Hk. by destruct (optedOut e). }
    unfold merge. case_bool_decide; [|done].
    destruct (merge_frame_loc
                (stringTranslationMap (analyzeStringsForTranslation data targets hint))
                response
                (mergeStart (analyzeStringsForTranslation data targets hint)) k lang)
      as [Heq|(info & Hi & Hin)].
    + by rewrite Heq.
    + exfalso. apply Hl. rewrite analyze_need, He in Hi by done. simpl in Hi.
      by rewrite Hi.
Qed.

Lemma settled_translations_survive_witness :
  locOf (strings (updatedXcstringsData (finalState
           (merge (analyzeStringsForTranslation sampleCatalog sampleTargets sampleHint)
                  sampleResponse))))
        (js "Hello") (js "fr")
  = Some (unit_ "translated" "Bonjour").
Proof.
  destruct (settled_translations_survive sampleCatalog sampleTargets sampleHint
              sampleResponse (js "Hello")
              (mkStringEntry (Some (js "greeting")) None None
                 (Some [(js "en", unit_ "translated" " Hello there ");
                        (js "fr", unit_ "translated" "Bonjour");
                        (js "de", unit_ "needs_review" "Hallo");
                        (js "es", unit_ "translated" "  ")]))
              (js "fr"))
    as [_ H].
  - solve_wf.
  - vm_compute. reflexivity.
  - simpl. discriminate.
  - rewrite H.
    + vm_compute. reflexivity.
    + apply (bool_decide_unpack _). vm_compute. exact I.
Defined.

(** * The analyzer of part_000 with the merge loop *)

Lemma checkLanguage_keeps acc lang l :
  is_Some (getProp acc.1.1 l) →
  is_Some (getProp (Part000.checkLanguage acc lang).1.1 l).
Proof.
  destruct acc as [[locs needed] isNewMap]. unfold Part000.checkLanguage. simpl.
  intros Hl. destruct (Part000.needsTranslationForLang (readProp locs lang)); [|done].
  simpl. case_bool_decide; [|done].
  rewrite getProp_setProp. case_decide; [by eexists | done].
Qed.

Lemma checkLanguage_materialized acc lang :
  materialized acc → materialized (Part000.checkLanguage acc lang).
Proof.
  intros Hm l. pose proof (checkLanguage_keeps acc lang) as Hk.
  destruct acc as [[locs needed] isNewMap]. unfold Part000.checkLanguage in *.
  simpl in *.
  destruct (Part000.needsTranslationForLang (readProp locs lang)); [|by apply Hm].
  simpl in *. intros [Hl| ->%list_elem_of_singleton]%elem_of_app.
  - destruct (Hm l Hl) as [Hown|Hname]; [left; by apply Hk | by right].
  - case_bool_decide as Hn.
    + left. rewrite getProp_setProp, decide_True by done. by eexists.
    + unfold readProp in Hn. destruct (getProp locs lang); [left; by eexists|].
      destruct (inheritedName lang); [by right | done].
Qed.

Lemma checkLanguages_materialized targets : ∀ acc,
  materialized acc →
  materialized (foldl Part000.checkLanguage acc targets)
  ∧ ∀ l, is_Some (getProp acc.1.1 l) →
         is_Some (getProp (foldl Part000.checkLanguage acc targets).1.1 l).
Proof.
  induction targets as [|lang targets IH]; intros acc Hm; simpl; [done|].
  destruct (IH _ (checkLanguage_materialized acc lang Hm)) as [H1 H2].
  split; [done|]. intros l Hl. by apply H2, checkLanguage_keeps.
Qed.

Lemma analyzeKey_materialized targets hint st k :
  entriesMaterialized st → entriesMaterialized (Part000.analyzeKey targets hint st k).
Proof.
  intros Hinv. unfold Part000.analyzeKey.
  destruct (getProp (strings (Part000.modifiedXcstringsData st)) k) as [e0|] eqn:He0;
    [|done].
  unfold Part000.analyzeEntry.
  destruct (strictEq (extractionState e0) (js "stale")).
  { intros k' info lang e Hi Hl He. simpl in *.
    rewrite getProp_deleteProp in He. case_decide; [done|]. by eapply Hinv. }
  case_bool_decide; [done|].
  pose proof (checkLanguages_materialized targets (default [] (localizations e0), [], ∅))
    as [Hm Hk].
  { intros lang Hl. by apply elem_of_nil in Hl. }
  destruct (foldl Part000.checkLanguage _ targets) as [[locs needed] isNewMap].
  simpl in Hm, Hk.
  assert (∀ k' info lang e,
            Part000.stringTranslationMap st !! k' = Some info → lang ∈ languages info →
            getProp (setProp (strings (Part000.modifiedXcstringsData st)) k
                       (withLocalizations e0 locs)) k' = Some e →
            is_Some (localizationOf e lang)
            ∨ (is_Some (localizations e) ∧ inheritedName lang = true)) as Hold.
  { intros k' info lang e Hi Hl He. rewrite getProp_setProp in He.
    case_decide as Hkk; [|by eapply Hinv].
    subst k'. injection He as <-. unfold localizationOf. simpl.
    destruct (Hinv k info lang e0 Hi Hl He0) as [Hown|[_ Hname]].
    - left. apply Hk. by rewrite getProp_default.
    - right. by split. }
  case_bool_decide; [|exact Hold].
  intros k' info lang e Hi Hl He. simpl in *.
  rewrite lookup_insert in Hi. case_decide as Hkk; [|by eapply Hold].
  subst k'. injection Hi as <-. simpl in Hl.
  rewrite getProp_setProp, decide_True in He by done. injection He as <-.
  unfold localizationOf. simpl.
  destruct (Hm lang Hl) as [Hown|Hname]; [by left | right; by split].
Qed.

Lemma analyze_materialized data targets hint :
  entriesMaterialized (Part000.analyzeStringsForTranslation data targets hint).
Proof.
  unfold Part000.analyzeStringsForTranslation.
  assert (∀ ks st, entriesMaterialized st →
            entriesMaterialized (foldl (Part000.analyzeKey targets hint) st ks)) as H.
  { induction ks as [|k ks IH]; intros st Hst; simpl; [done|].
    by apply IH, analyzeKey_materialized. }
  apply H. intros k info lang e Hi. simpl in Hi. by rewrite lookup_empty in Hi.
Qed.

Lemma part000_merge_normal data targets hint response :
  isNormal (Part000.merge
              (Part000.analyzeStringsForTranslation data targets hint) response)
  = true.
Proof.
  unfold Part000.merge. case_bool_decide; [|done].
  apply mergeTranslations_normal_iff. intros item info lang v e Hitem Hi Hin Hl He.
  by eapply (analyze_materialized data targets hint).
Qed.

(** A need record comes with a request. *)
Lemma part000_requests data targets hint k info :
  Part000.stringTranslationMap
    (Part000.analyzeStringsForTranslation data targets hint) !! k = Some info →
  0 < length (Part000.translationRequests
                (Part000.analyzeStringsForTranslation data targets hint)).
Proof.
  set (Inv := λ st : Part000.StringAnalysisResult,
         Part000.stringTranslationMap st = ∅
         ∨ 0 < length (Part000.translationRequests st)).
  assert (∀ st k, Inv st → Inv (Part000.analyzeKey targets hint st k)) as Hkey.
  { intros st k' Hinv. unfold Part000.analyzeKey.
    destruct (getProp _ k') as [e0|]; [|done]. unfold Part000.analyzeEntry.
    destruct (strictEq (extractionState e0) (js "stale")); [done|].
    case_bool_decide; [done|].
    destruct (foldl Part000.checkLanguage _ targets) as [[locs needed] isNewMap].
    case_bool_decide; [|done]. right. simpl. rewrite length_app. simpl. lia. }
  assert (∀ ks st, Inv st → Inv (foldl (Part000.analyzeKey targets hint) st ks)) as H.
  { induction ks as [|k' ks IH]; intros st Hst; simpl; [done|]. by apply IH, Hkey. }
  intros Hi. destruct (H (keys (strings data))
                         (Part000.mkResult [] emptyChanges ∅ data false)) as [He|Hr].
  - by left.
  - unfold Part000.analyzeStringsForTranslation in Hi. rewrite He in Hi.
    by rewrite lookup_empty in Hi.
  - done.
Qed.

(** For the language [constructor] the analyzer of part_000 creates no
    entry: its test [!localizations[lang]] finds the member of
    [Object.prototype]. *)
Example part000_inherited_not_created :
  Part000.modifiedXcstringsData
    (Part000.analyzeStringsForTranslation helloCatalog [js "constructor"] None)
  = helloCatalog
  ∧ languages <$>
      (Part000.stringTranslationMap
         (Part000.analyzeStringsForTranslation helloCatalog [js "constructor"] None)
       !! js "Hello")
    = Some [js "constructor"].
Proof. by vm_compute. Qed.

(** X13. With the analyzer of part_000 the merge loop never throws,
    whatever the catalog, the target languages and the response: after
    the analysis every language the need index lists for a key has a
    localization entry under that key, which the analysis has created
    where there was none, or else it is the name of a member of
    [Object.prototype] and the key has a [localizations] table. *)
Theorem part000_merge_never_throws data targets hint response :
  entriesMaterialized (Part000.analyzeStringsForTranslation data targets hint)
  ∧ isNormal (Part000.merge
                (Part000.analyzeStringsForTranslation data targets hint) response)
    = true.
Proof. split; [apply analyze_materialized | apply part000_merge_normal]. Qed.

(** X24. With the analyzer of part_000 the merge sets what it takes up:
    the merge completes, and for a key and a language that is not the
    name of a member of [Object.prototype], when the response has
    translations for them among those taken up, the key's localization
    for the language is afterwards the last such value with state
    [translated], also where the catalog had no entry for the language
    before the analysis; every other localization is what the analysis
    left. *)
Theorem part000_merge_sets data targets hint response :
  let r0 := Part000.analyzeStringsForTranslation data targets hint in
  let s := strings (Part000.modifiedXcstringsData r0) in
  ∃ st', Part000.merge r0 response = Normal st'
    ∧ keys (strings (updatedXcstringsData st')) = keys s
    ∧ ∀ k lang, inheritedName lang = false →
        locOf (strings (updatedXcstringsData st')) k lang
        = match answerOf (accepted (Part000.stringTranslationMap r0) s response) k lang
          with
          | Some v => Some (mkLocalization (Some (translatedUnit v)))
          | None => locOf s k lang
          end.
Proof.
  intros r0 s.
  pose proof (part000_merge_normal data targets hint response) as Hnormal.
  fold r0 in Hnormal. unfold Part000.merge in *.
  case_bool_decide as Hreq.
  - destruct (mergeTranslations _ _ _) as [st'|st'] eqn:Hm; [|done].
    exists st'. split; [done|].
    destruct (mergeTranslations_normal_result _ _ _ _ Hm) as (K & _ & _ & L).
    split; [done|]. intros k lang Hname. rewrite L.
    cbn [updatedXcstringsData]. fold s.
    destruct (answerOf _ k lang) as [v|] eqn:Ha; [|by rewrite written_None].
    apply answerOf_elem, elem_of_accepted in Ha
      as (item & info & Hitem & <- & [e He] & Hi & Hl & Hin).
    destruct (analyze_materialized data targets hint (itemKey item) info lang e Hi Hl He)
      as [[l Hown]|[_ Hinh]]; [|congruence].
    unfold locOf. fold r0. fold s. rewrite He. simpl. by rewrite Hown.
  - eexists. split; [done|]. split; [done|]. intros k lang _. simpl.
    assert (accepted (Part000.stringTranslationMap r0) s response = []) as ->; [|done].
    destruct (accepted _ s response) as [|[k' [lang' v']] ts] eqn:E; [done|].
    exfalso. apply Hreq.
    assert ((k', (lang', v')) ∈ accepted (Part000.stringTranslationMap r0) s response)
      as Hin by (rewrite E; apply list_elem_of_here).
    apply elem_of_accepted in Hin as (item & info & _ & _ & _ & Hi & _).
    by apply (part000_requests data targets hint k' info).
Qed.

Lemma part000_merge_sets_witness :
  locOf (strings (updatedXcstringsData (finalState
           (Part000.merge
              (Part000.analyzeStringsForTranslation helloCatalog [js "fr"] None)
              helloResponse))))
        (js "Hello") (js "fr")
  = Some (mkLocalization (Some (translatedUnit (js "Bonjour")))).
Proof.
  destruct (part000_merge_sets helloCatalog [js "fr"] None helloResponse)
    as (st' & Hm & _ & H).
  rewrite Hm. cbn [finalState]. rewrite (H (js "Hello") (js "fr")).
  - vm_compute. reflexivity.
  - vm_compute. reflexivity.
Defined.

(** * The inputs of [run] *)

Lemma split_nonempty sep s : split sep s ≠ [].
Proof.
  destruct s as [|c s]; simpl; [done|].
  destruct (c =? sep)%N; [done|]. by destruct (split sep s).
Qed.

Lemma split_cons_other sep c s :
  c ≠ sep →
  ∃ p ps, split sep s = p :: ps ∧ split sep (c :: s) = (c :: p) :: ps.
Proof.
  intros Hc. simpl. rewrite (proj2 (N.eqb_neq c sep)) by done.
  destruct (split sep s) as [|p ps] eqn:E; [by apply split_nonempty in E|]. eauto.
Qed.


Lemma split_blank sep s :
  isWhiteSpace sep = false →
  Forall blank (split sep s) ↔ Forall (λ c, c = sep ∨ isWhiteSpace c = true) s.
Proof.
  intros Hsep. induction s as [|c s IH]; simpl.
  - split; intros _; repeat constructor.
  - rewrite Forall_cons. destruct (N.eqb_spec c sep) as [->|Hc].
    + rewrite Forall_cons, IH. split; [intros [_ ?]; auto | intros [_ ?]].
      split; [constructor | done].
    + destruct (split sep s) as [|q qs] eqn:E; [by apply split_nonempty in E|].
      rewrite Forall_cons in IH |- *. unfold blank at 1. rewrite Forall_cons.
      fold (blank q). rewrite <-IH. intuition congruence.
Qed.

Lemma split_no_sep sep s : sep ∉ s → split sep s = [s].
Proof.
  induction s as [|c s IH]; [done|].
  rewrite not_elem_of_cons. intros [Hc Hs]. simpl.
  rewrite (proj2 (N.eqb_neq c sep)) by done. by rewrite IH.
Qed.

Lemma split_app sep a b : sep ∉ a → split sep (a ++ sep :: b) = a :: split sep b.
Proof.
  induction a as [|c a IH]; simpl.
  - intros _. by rewrite N.eqb_refl.
  - rewrite not_elem_of_cons. intros [Hc Ha].
    rewrite (proj2 (N.eqb_neq c sep)) by done. by rewrite IH.
Qed.




Lemma trim_leading c s : isWhiteSpace c = true → trim (c :: s) = trim s.
Proof. intros Hc. unfold trim. simpl. by rewrite Hc. Qed.

Lemma targetLanguages_none input :
  targetLanguagesOf input = []
  ↔ Forall (λ c, c = comma ∨ isWhiteSpace c = true) input.
Proof.
  rewrite <-(split_blank comma input) by done. unfold targetLanguagesOf.
  induction (split comma input) as [|p ps IH]; [by split; [constructor|]|].
  rewrite fmap_cons, filter_cons, Forall_cons.
  destruct (trim p) as [|c t] eqn:E; simpl.
  - apply trim_nil_iff in E. rewrite IH. tauto.
  - split; [done|]. intros [Hb _]. apply trim_nil_iff in Hb. congruence.
Qed.


Lemma trim_split_leading c s :
  isWhiteSpace c = true → c ≠ comma →
  trim <$> split comma (c :: s) = trim <$> split comma s.
Proof.
  intros Hw Hc. destruct (split_cons_other comma c s Hc) as (p & ps & -> & ->).
  by rewrite !fmap_cons, trim_leading.
Qed.

Lemma trim_split_join langs :
  langs ≠ [] → Forall cleanCode langs →
  trim <$> split comma (join (js ", ") langs) = langs.
Proof.
  induction langs as [|x l IH]; [done|]. intros _ Hall.
  apply Forall_cons in Hall as [(Hne & Hc & Ht) Hall].
  destruct l as [|y l].
  - simpl. rewrite split_no_sep by done. simpl. by rewrite Ht.
  - change (join (js ", ") (x :: y :: l))
      with (x ++ comma :: 32%N :: join (js ", ") (y :: l)).
    rewrite split_app by done. rewrite fmap_cons, Ht.
    rewrite trim_split_leading by done. by rewrite IH.
Qed.

(** X15. Line 23 reads back what line 29 logs: language codes that are
    not empty, have no comma and no whitespace at their ends, joined with
    [", "], are parsed into the same codes in the same order. *)
Theorem targetLanguages_join langs :
  Forall cleanCode langs →
  targetLanguagesOf (join (js ", ") langs) = langs.
Proof.
  intros Hall. unfold targetLanguagesOf. destruct langs as [|x l]; [done|].
  rewrite trim_split_join by done.
  induction Hall as [|y l' (Hne & _) _ IH]; [done|].
  rewrite filter_cons_True by (by destruct y). by rewrite IH.
Qed.

Lemma isWhiteSpace_not_comma c : isWhiteSpace c = true → c ≠ comma.
Proof. by intros Hc ->. Qed.

Lemma trimStart_blank pre s : blank pre → trimStart (pre ++ s) = trimStart s.
Proof.
  induction pre as [|c pre IH]; [done|]. intros [Hc Hpre]%Forall_cons.
  simpl. rewrite Hc. by apply IH.
Qed.

Lemma trimStart_app s t : trimStart s ≠ [] → trimStart (s ++ t) = trimStart s ++ t.
Proof.
  induction s as [|c s IH]; [done|]. simpl.
  destruct (isWhiteSpace c); [apply IH | done].
Qed.

Lemma trim_blank_l pre s : blank pre → trim (pre ++ s) = trim s.
Proof. intros Hpre. unfold trim. by rewrite trimStart_blank. Qed.

Lemma trimEnd_blank s post : blank post → trimEnd (s ++ post) = trimEnd s.
Proof.
  intros Hpost. unfold trimEnd. rewrite reverse_app.
  by rewrite trimStart_blank by (by apply blank_reverse).
Qed.

Lemma trim_blank_r s post : blank post → trim (s ++ post) = trim s.
Proof.
  intros Hpost. unfold trim.
  destruct (trimStart s) as [|c t] eqn:E.
  - apply trimStart_nil_iff in E.
    assert (trimStart (s ++ post) = []) as ->; [|done].
    apply trimStart_nil_iff. by apply Forall_app.
  - rewrite trimStart_app by (by rewrite E). rewrite E. by apply trimEnd_blank.
Qed.

(** The pieces of a string followed by text without the separator: the
    text goes to the last piece. *)
Lemma split_app_tail sep s post :
  sep ∉ post →
  ∃ ps x, split sep s = ps ++ [x] ∧ split sep (s ++ post) = ps ++ [x ++ post].
Proof.
  intros Hpost. induction s as [|c s (ps & x & Hs & Hsp)].
  - exists [], []. split; [done|]. simpl. by apply split_no_sep.
  - simpl. destruct (c =? sep)%N.
    + exists ([] :: ps), x. by rewrite Hs, Hsp.
    + rewrite Hs, Hsp. destruct ps as [|p ps].
      * by exists [], (c :: x).
      * by exists ((c :: p) :: ps), x.
Qed.

Lemma trim_split_blank_l pre s :
  blank pre → trim <$> split comma (pre ++ s) = trim <$> split comma s.
Proof.
  induction pre as [|c pre IH]; [done|]. intros [Hc Hpre]%Forall_cons.
  simpl app. rewrite trim_split_leading; [by apply IH | done |].
  by apply isWhiteSpace_not_comma.
Qed.

Lemma trim_split_blank_r s post :
  blank post → trim <$> split comma (s ++ post) = trim <$> split comma s.
Proof.
  intros Hpost.
  destruct (split_app_tail comma s post) as (ps & x & -> & ->).
  { intros Hin. unfold blank in Hpost. rewrite Forall_forall in Hpost.
    by specialize (Hpost _ Hin). }
  by rewrite !fmap_app, !list_fmap_singleton, trim_blank_r.
Qed.

(** Trimming the whole input, as [core.getInput] does, does not change
    the languages read from it. *)
Lemma targetLanguagesOf_trim value :
  targetLanguagesOf (trim value) = targetLanguagesOf value.
Proof.
  destruct (trim_spec value) as (pre & post & Hv & Hpre & Hpost & _).
  unfold targetLanguagesOf. rewrite Hv at 2.
  by rewrite trim_split_blank_l, trim_split_blank_r.
Qed.

(** X16. The target languages of [run], for the value the workflow
    gives to the input [target_languages]. An empty value fails with the
    message of [core.getInput] for a required input (the error of line
    22, reported at line 200); a value that is not empty and has nothing
    but commas and whitespace fails with [No target languages
    specified.] (line 36); every other value yields the languages of line
    23 read from the value itself, at least one. *)
Theorem readTargetLanguages_spec value :
  (readTargetLanguages value
   = SetFailed (js "Input required and not supplied: target_languages")
   ↔ value = [])
  ∧ (readTargetLanguages value = SetFailed (js "No target languages specified.")
     ↔ value ≠ [] ∧ Forall (λ c, c = comma ∨ isWhiteSpace c = true) value)
  ∧ (∀ targetLanguages,
       readTargetLanguages value = Targets targetLanguages
       ↔ targetLanguages ≠ [] ∧ targetLanguages = targetLanguagesOf value).
Proof.
  unfold readTargetLanguages, getRequiredInput.
  destruct value as [|c value]; [by repeat split; try done; intros [? ?]|].
  cbn [falsyString]. rewrite targetLanguagesOf_trim.
  pose proof (targetLanguages_none (c :: value)) as Hnone.
  case_bool_decide as Hlen.
  - apply length_zero_iff_nil in Hlen.
    split; [done|]. split.
    + split; [intros _; split; [done | by apply Hnone] | done].
    + intros ts. split; [done|]. intros [Hne ->]. done.
  - split; [done|]. split.
    + split; [done|]. intros [_ Hall]. apply Hnone in Hall.
      by rewrite Hall in Hlen.
    + intros ts. split.
      * intros [= <-]. split; [|done]. intros Hnil. by rewrite Hnil in Hlen.
      * by intros [_ ->].
Qed.

Example readTargetLanguages_sample :
  readTargetLanguages (js " fr, de ,,it ") = Targets [js "fr"; js "de"; js "it"]
  ∧ readTargetLanguages (js " , ") = SetFailed (js "No target languages specified.")
  ∧ readTargetLanguages (js "")
    = SetFailed (js "Input required and not supplied: target_languages").
Proof. by vm_compute. Qed.

Lemma staleKeys_nil_iff (s : obj StringEntry) :
  staleKeys s = [] ↔ ¬ Exists (λ p, isStale p.2 = true) s.
Proof.
  rewrite <-Forall_Exists_neg. split.
  - intros H. apply Forall_forall. intros [k e] Hin Hs.
    assert (k ∈ staleKeys s) as Hk.
    { unfold staleKeys, keys. apply list_elem_of_fmap. exists (k, e).
      split; [done|]. by apply list_elem_of_filter. }
    rewrite H in Hk. by apply elem_of_nil in Hk.
  - intros H. apply staleKeys_none. eapply Forall_impl; [exact H|].
    intros p Hp. simpl in Hp. by destruct (isStale p.2).
Qed.

(** The decision of line 128 against the total of line 142, for a flag
    that tells whether [staleRemoved] has a key. *)
Lemma fileWritten_total flag c :
  (flag = true ↔ staleRemoved c ≠ []) →
  fileWritten flag c = true ↔ 0 < totalChanges c.
Proof.
  intros Hflag. unfold fileWritten, totalChanges.
  rewrite !orb_true_iff, !bool_decide_eq_true, Hflag.
  destruct (staleRemoved c) as [|k ks]; simpl; [|split; [lia | by left; left]].
  split; [intros [[?|?]|?]; [done | lia | lia] | lia].
Qed.

(** With the analyzer of part_000 too the flag is set exactly when a
    stale key was removed. *)
Lemma part000_modified data targets hint :
  let r0 := Part000.analyzeStringsForTranslation data targets hint in
  Part000.xcstringsModified r0 = true
  ↔ staleRemoved (Part000.translationChanges r0) ≠ [].
Proof.
  set (Inv := λ st : Part000.StringAnalysisResult,
         Part000.xcstringsModified st = true
         ↔ staleRemoved (Part000.translationChanges st) ≠ []).
  assert (∀ st k, Inv st → Inv (Part000.analyzeKey targets hint st k)) as Hkey.
  { intros st k Hinv. unfold Part000.analyzeKey.
    destruct (getProp _ k) as [e0|]; [|done]. unfold Part000.analyzeEntry.
    destruct (strictEq (extractionState e0) (js "stale")).
    { unfold Inv. simpl. split; [|done]. intros _ Hnil.
      by apply app_eq_nil in Hnil as [_ ?]. }
    case_bool_decide; [done|].
    destruct (foldl Part000.checkLanguage _ targets) as [[locs needed] isNewMap].
    by case_bool_decide. }
  assert (∀ ks st, Inv st → Inv (foldl (Part000.analyzeKey targets hint) st ks)) as H.
  { induction ks as [|k ks IH]; intros st Hst; simpl; [done|]. by apply IH, Hkey. }
  apply H. unfold Inv. simpl. done.
Qed.

(** X17. The decision to write of line 128, on the ledger a merge that
    completes leaves, with either revision of the analyzer: the catalog
    is written (and then the pull request created, line 141) exactly
    when the total of line 142 is positive; and with the analyzer of
    stringAnalyzer.ts [staleRemoved] is the list of the catalog's stale
    keys. *)
Theorem written_iff_changes data targets hint response :
  wfObj (strings data) →
  let r := analyzeStringsForTranslation data targets hint in
  let r0 := Part000.analyzeStringsForTranslation data targets hint in
  (∀ st, merge r response = Normal st →
     (fileWritten (xcstringsModified r) (changes st) = true
      ↔ 0 < totalChanges (changes st))
     ∧ staleRemoved (changes st) = staleKeys (strings data))
  ∧ (∀ st, Part000.merge r0 response = Normal st →
       fileWritten (Part000.xcstringsModified r0) (changes st) = true
       ↔ 0 < totalChanges (changes st)).
Proof.
  intros Hwf r r0. split.
  - intros st Hm.
    assert (staleRemoved (changes st) = staleKeys (strings data)) as Hs.
    { unfold merge in Hm. case_bool_decide.
      - destruct (mergeTranslations_spec (stringTranslationMap r) response
                    (mergeStart r)) as ((_ & _ & _ & _ & _ & _ & R & _) & _).
        rewrite Hm in R. simpl in R. subst r.
        by rewrite analyze_changes in R by done.
      - injection Hm as <-. simpl. subst r. by rewrite analyze_changes by done. }
    split; [|done]. apply fileWritten_total. rewrite Hs. subst r.
    rewrite analyze_modified by done. rewrite bool_decide_eq_true, staleKeys_nil_iff.
    split; [tauto|]. apply dec_stable.
  - intros st Hm. apply fileWritten_total.
    assert (staleRemoved (changes st) = staleRemoved (Part000.translationChanges r0))
      as ->; [|apply part000_modified].
    unfold Part000.merge in Hm. case_bool_decide.
    + destruct (mergeTranslations_spec (Part000.stringTranslationMap r0) response
                  (mkMerge (Part000.modifiedXcstringsData r0)
                           (Part000.translationChanges r0) []))
        as ((_ & _ & _ & _ & _ & _ & R & _) & _).
      rewrite Hm in R. done.
    + by injection Hm as <-.
Qed.

Lemma targetLanguages_join_witness :
  targetLanguagesOf (js "fr, de") = [js "fr"; js "de"].
Proof.
  apply (targetLanguages_join [js "fr"; js "de"]).
  repeat constructor; try discriminate; try (vm_compute; reflexivity);
    apply (bool_decide_unpack _); vm_compute; exact I.
Defined.

Lemma written_iff_changes_witness :
  fileWritten
    (Part000.xcstringsModified
       (Part000.analyzeStringsForTranslation reviewCatalog mixedTargets None))
    (mkChanges [js "Hello (it)"] [js "Hello (fr)"] [])
  = true.
Proof.
  destruct (written_iff_changes reviewCatalog mixedTargets None mixedResponse)
    as [_ H].
  - solve_wf.
  - apply (H (mkMerge
                (updatedXcstringsData (finalState
                   (Part000.merge
                      (Part000.analyzeStringsForTranslation reviewCatalog
                         mixedTargets None)
                      mixedResponse)))
                (mkChanges [js "Hello (it)"] [js "Hello (fr)"] []) [])).
    + vm_compute. reflexivity.
    + vm_compute. lia.
Defined.

(** * The provider call *)

Lemma setOf_fold (l : list jsstring) : ∀ seen,
  NoDup seen →
  NoDup (foldl (λ seen x, if bool_decide (x ∈ seen) then seen else seen ++ [x]) seen l)
  ∧ (∀ x, x ∈ foldl (λ seen x, if bool_decide (x ∈ seen) then seen else seen ++ [x]) seen l
          ↔ x ∈ seen ∨ x ∈ l)
  ∧ seen `prefix_of`
      foldl (λ seen x, if bool_decide (x ∈ seen) then seen else seen ++ [x]) seen l.
Proof.
  induction l as [|y l IH]; intros seen Hnd; simpl.
  - split; [done|]. split; [|done]. intros x. rewrite elem_of_nil. tauto.
  - case_bool_decide as Hy.
    + destruct (IH seen Hnd) as (H1 & H2 & H3). split; [done|]. split; [|done].
      intros x. rewrite H2, elem_of_cons. split; [tauto|].
      intros [?|[->|?]]; auto.
    + destruct (IH (seen ++ [y])) as (H1 & H2 & H3).
      { apply NoDup_app. split; [done|]. split; [|apply NoDup_singleton].
        intros x Hx ->%list_elem_of_singleton. done. }
      split; [done|]. split.
      * intros x. rewrite H2, elem_of_app, list_elem_of_singleton, elem_of_cons. tauto.
      * etrans; [|exact H3]. by apply prefix_app_r.
Qed.

(** X19. The languages the provider is asked for (line 251; they are
    also the languages the response schema requires of every item): each
    is there once, they are the target languages of the requests, and a
    language is among them exactly when it is a target language for which
    some entry that is neither stale nor opted out needs work. *)
Theorem allTargetLanguages_needed data targets hint :
  wfObj (strings data) →
  let requests := translationRequests (analyzeStringsForTranslation data targets hint) in
  NoDup (allTargetLanguages requests)
  ∧ (∀ lang, lang ∈ allTargetLanguages requests
             ↔ ∃ q, q ∈ requests ∧ lang ∈ targetLanguages q)
  ∧ (∀ lang, lang ∈ allTargetLanguages requests
             ↔ lang ∈ targets
               ∧ ∃ k e, getProp (strings data) k = Some e
                        ∧ extractionState e ≠ Some (js "stale")
                        ∧ shouldTranslate e ≠ Some false
                        ∧ needsWork (localizationOf e lang)).
Proof.
  intros Hwf requests. subst requests.
  destruct (setOf_fold
              (translationRequests (analyzeStringsForTranslation data targets hint)
                 ≫= targetLanguages) [] (NoDup_nil_2)) as (Hnd & Hin & _).
  fold (setOf (translationRequests (analyzeStringsForTranslation data targets hint)
                 ≫= targetLanguages)) in Hnd, Hin.
  fold (allTargetLanguages
          (translationRequests (analyzeStringsForTranslation data targets hint)))
    in Hnd, Hin.
  assert (∀ lang,
            lang ∈ allTargetLanguages
                     (translationRequests (analyzeStringsForTranslation data targets hint))
            ↔ ∃ q, q ∈ translationRequests
                         (analyzeStringsForTranslation data targets hint)
                   ∧ lang ∈ targetLanguages q) as Hall.
  { intros lang. rewrite Hin, elem_of_nil, list_elem_of_bind.
    split; [intros [[]|(q & ? & ?)]; eauto | intros (q & ? & ?); right; eauto]. }
  split; [done|]. split; [done|].
  intros lang. rewrite Hall, analyze_requests by done. split.
  - intros (q & Hq & Hl). apply request_origin in Hq as (e & i & He & Hi & Hq).
    rewrite Hq in Hl. simpl in Hl. apply (getProp_elem _ _ _ Hwf) in He.
    unfold infoOf in Hi. destruct (isStale e) eqn:Hs; [done|].
    destruct (optedOut e) eqn:Ho; [done|].
    assert (lang ∈ from_option languages [] (infoOf targets e)) as Hl'.
    { unfold infoOf. rewrite Hs, Ho. by rewrite Hi. }
    rewrite processed_languages in Hl' by done.
    apply list_elem_of_filter in Hl' as [Hn Ht].
    split; [done|]. exists (key q), e. split; [done|].
    split; [by apply isStale_false|]. split.
    + unfold optedOut in Ho. by apply bool_decide_eq_false in Ho.
    + by apply needsTranslationForLang_spec.
  - intros (Ht & k & e & He & Hs & Ho & Hn).
    apply isStale_false in Hs.
    assert (optedOut e = false) as Ho' by by apply bool_decide_eq_false.
    assert (lang ∈ from_option languages [] (infoOf targets e)) as Hl.
    { rewrite processed_languages by done. apply list_elem_of_filter.
      split; [by apply needsTranslationForLang_spec | done]. }
    destruct (infoOf targets e) as [i|] eqn:Hi; [|by apply elem_of_nil in Hl].
    exists (mkRequest k (sourceText k (candidateOf hint e)) (languages i) (comment e)).
    split; [|done]. apply list_elem_of_omap. exists (k, e).
    split; [by apply getProp_Some_elem|]. unfold requestOf. simpl. by rewrite Hi.
Qed.

Lemma allTargetLanguages_needed_witness :
  NoDup (allTargetLanguages
           (translationRequests
              (analyzeStringsForTranslation sampleCatalog sampleTargets sampleHint))).
Proof.
  destruct (allTargetLanguages_needed sampleCatalog sampleTargets sampleHint) as [H _].
  - solve_wf.
  - exact H.
Defined.

(** X20. The diagnostics of lines 350-357: no key is reported missing
    exactly when every request's key is the key of some item of the
    response, the preview has at most ten keys, and a key reported
    missing keeps every localization it had through the merge. *)
Theorem missing_keys_untouched needs requests response st :
  (missingKeys requests response = []
   ↔ ∀ q, q ∈ requests → ∃ item, item ∈ response ∧ itemKey item = key q)
  ∧ length (missingPreview requests response) ≤ 10
  ∧ (∀ k lang, k ∈ missingKeys requests response →
       locOf (strings (updatedXcstringsData
                (finalState (mergeTranslations needs response st)))) k lang
       = locOf (strings (updatedXcstringsData st)) k lang).
Proof.
  split; [|split].
  - unfold missingKeys. split.
    + intros Hnil q Hq.
      destruct (decide (key q ∈ itemKey <$> response)) as [Hin|Hout].
      * apply list_elem_of_fmap in Hin as (item & ? & ?). eauto.
      * exfalso. eapply (filter_nil_not_elem_of _ _ (key q) Hnil); [done|].
        apply list_elem_of_fmap. eauto.
    + intros Hall. apply filter_none. intros k (q & -> & Hq)%list_elem_of_fmap Hout.
      destruct (Hall q Hq) as (item & Hitem & Hk). apply Hout.
      apply list_elem_of_fmap. eauto.
  - unfold missingPreview. rewrite length_take. lia.
  - intros k lang [Hout _]%list_elem_of_filter.
    destruct (mergeTranslations_spec needs response st)
      as ((_ & _ & _ & _ & _ & L & _) & _).
    rewrite L. destruct (answerOf _ k lang) as [v|] eqn:E;
      [|by rewrite written_None].
    exfalso. apply answerOf_elem in E.
    destruct (writable_prefix (strings (updatedXcstringsData st))
      (accepted needs (strings (updatedXcstringsData st)) response)) as [l Hl].
    assert ((k, (lang, v)) ∈ accepted needs (strings (updatedXcstringsData st)) response)
      as Hin by (rewrite Hl; apply elem_of_app; by left).
    apply elem_of_accepted in Hin as (item & info & Hitem & Hk & _).
    apply Hout. apply list_elem_of_fmap. eauto.
Qed.

(** * The text of a request *)





(** * Writing the catalog *)

Lemma trimStart_length t : length (trimStart t) ≤ length t.
Proof.
  induction t as [|c t IH]; simpl; [done|].
  destruct (isWhiteSpace c); simpl; lia.
Qed.

Lemma colonNext_length t t' : colonNext t = Some t' → length t' < length t.
Proof.
  unfold colonNext. pose proof (trimStart_length t) as Hl.
  destruct (trimStart t) as [|c u]; [done|].
  destruct (c =? colon)%N; [|done]. intros [= <-]. simpl in Hl. lia.
Qed.

Lemma scanString_length t : ∀ b rest,
  scanString t = Some (b, rest) → length rest < length t.
Proof.
  induction t as [t IH] using (induction_ltof1 _ length). unfold ltof in IH.
  intros b rest. destruct t as [|c t]; [done|]. simpl.
  destruct (c =? dquote)%N; [intros [= _ <-]; lia|].
  destruct (c =? backslash)%N.
  - destruct t as [|d t]; [done|]. destruct (isLineTerminator d); [done|].
    destruct (scanString t) as [[b' r']|] eqn:E; [|done]. simpl.
    intros [= _ <-]. apply IH in E; simpl; lia.
  - destruct (scanString t) as [[b' r']|] eqn:E; [|done]. simpl.
    intros [= _ <-]. apply IH in E; simpl; lia.
Qed.

Lemma matchKey_length t g rest : matchKey t = Some (g, rest) → length rest < length t.
Proof.
  destruct t as [|c t]; [done|]. simpl. destruct (c =? dquote)%N; [|done].
  destruct (scanString t) as [[b r]|] eqn:E; [|done].
  destruct (colonNext r) as [r'|] eqn:E'; [|done]. simpl. intros [= _ <-].
  apply scanString_length in E. apply colonNext_length in E'. lia.
Qed.

Lemma matchKey_other c t : c ≠ dquote → matchKey (c :: t) = None.
Proof. intros Hc. simpl. by rewrite (proj2 (N.eqb_neq c dquote)). Qed.

Lemma replaceKeys_fuel n : ∀ m t,
  length t ≤ n → length t ≤ m → replaceKeys n t = replaceKeys m t.
Proof.
  induction n as [|n IH]; intros [|m] t Hn Hm.
  - done.
  - destruct t; [done | simpl in Hn; lia].
  - destruct t; [done | simpl in Hm; lia].
  - simpl. destruct (matchKey t) as [[g rest]|] eqn:E.
    + apply matchKey_length in E. by rewrite (IH m rest) by lia.
    + destruct t as [|c t]; [done|]. simpl in *. f_equal. apply IH; lia.
Qed.

Lemma replaceAll_nil : replaceAll [] = [].
Proof. done. Qed.

Lemma replaceAll_match t g rest :
  matchKey t = Some (g, rest) →
  replaceAll t = g ++ [space; colon] ++ replaceAll rest.
Proof.
  intros E. unfold replaceAll. pose proof (matchKey_length _ _ _ E) as Hl.
  destruct (length t) as [|n] eqn:Hn; [lia|]. simpl. rewrite E.
  by rewrite (replaceKeys_fuel n (length rest) rest) by lia.
Qed.

Lemma replaceAll_skip c t :
  matchKey (c :: t) = None → replaceAll (c :: t) = c :: replaceAll t.
Proof. intros E. unfold replaceAll. cbn [length replaceKeys]. by rewrite E. Qed.

(** Text without a quote is copied. *)
Lemma replaceAll_plain p t : dquote ∉ p → replaceAll (p ++ t) = p ++ replaceAll t.
Proof.
  induction p as [|c p IH]; [done|]. rewrite not_elem_of_cons. intros [Hc Hp].
  simpl. rewrite replaceAll_skip by (by apply matchKey_other). by rewrite IH.
Qed.

(** ** What [QuoteJSONString] writes between the quotes *)

Lemma hexDigit_plain n :
  (n < 16)%N → hexDigit n ≠ dquote ∧ hexDigit n ≠ backslash.
Proof.
  intros Hn. unfold hexDigit, dquote, backslash.
  destruct (N.ltb_spec n 10); lia.
Qed.

Lemma escaped_unicodeEscape c t : escaped t → escaped (unicodeEscape c ++ t).
Proof.
  intros Ht. unfold unicodeEscape. simpl. apply escaped_pair; [done|].
  repeat (apply escaped_plain;
          [apply hexDigit_plain, N.mod_lt; lia
          |apply hexDigit_plain, N.mod_lt; lia|]).
  done.
Qed.

Lemma quoteBody_literal c k :
  (32 ≤ c)%N → c ≠ dquote → c ≠ backslash → (c < 55296 ∨ 57343 < c)%N →
  quoteBody (c :: k) = c :: quoteBody k.
Proof.
  unfold dquote, backslash. intros H32 Hq Hb Hs. simpl.
  repeat (match goal with
          | |- context [(c =? ?n)%N] => destruct (N.eqb_spec c n); [lia|]
          end).
  destruct (N.ltb_spec c 32); [lia|].
  unfold isLeadingSurrogate, isTrailingSurrogate.
  destruct (N.leb_spec 55296 c), (N.leb_spec c 56319), (N.leb_spec 56320 c),
    (N.leb_spec c 57343); simpl; try done; lia.
Qed.

Lemma quoteBody_escaped_upto n : ∀ s, length s ≤ n → escaped (quoteBody s).
Proof.
  induction n as [|n IH]; intros [|c s] Hl; try (simpl in Hl; lia); try constructor.
  simpl in Hl. assert (escaped (quoteBody s)) as Hs by (apply IH; lia).
  simpl.
  repeat (match goal with
          | |- context [(c =? ?n)%N] =>
              destruct (N.eqb_spec c n); [by apply escaped_pair|]
          end).
  destruct (N.ltb_spec c 32); [by apply escaped_unicodeEscape|].
  assert (c ≠ dquote ∧ c ≠ backslash) as [Hq Hb] by (unfold dquote, backslash; lia).
  destruct (isLeadingSurrogate c) eqn:Hlead.
  - destruct s as [|d s]; [rewrite <-(app_nil_r (unicodeEscape c));
                           apply escaped_unicodeEscape; constructor|].
    destruct (isTrailingSurrogate d) eqn:Htrail; [|by apply escaped_unicodeEscape].
    apply escaped_plain; [done..|]. apply escaped_plain.
    + unfold isTrailingSurrogate in Htrail. apply andb_true_iff in Htrail as [H1 _].
      apply N.leb_le in H1. unfold dquote. lia.
    + unfold isTrailingSurrogate in Htrail. apply andb_true_iff in Htrail as [H1 _].
      apply N.leb_le in H1. unfold backslash. lia.
    + apply IH. simpl in Hl. lia.
  - destruct (isTrailingSurrogate c); [by apply escaped_unicodeEscape|].
    by apply escaped_plain.
Qed.

Lemma quoteBody_escaped s : escaped (quoteBody s).
Proof. by apply (quoteBody_escaped_upto (length s)). Qed.

Lemma scanString_escaped b rest :
  escaped b → scanString (b ++ dquote :: rest) = Some (b ++ [dquote], rest).
Proof.
  induction 1 as [|c t Hq Hb _ IH|d t Hd _ IH]; simpl.
  - done.
  - rewrite (proj2 (N.eqb_neq c dquote)), (proj2 (N.eqb_neq c backslash)) by done.
    by rewrite IH.
  - rewrite Hd. by rewrite IH.
Qed.

(** A string that is a value: nothing is replaced in it when no colon
    comes after it and none after the next string. *)
Lemma replaceAll_escaped b rest :
  escaped b → colonNext rest = None → matchKey (dquote :: rest) = None →
  replaceAll (b ++ dquote :: rest) = b ++ dquote :: replaceAll rest.
Proof.
  intros Hb Hc Hq. induction Hb as [|c t Hcq Hcb _ IH|d t Hd Ht IH]; simpl.
  - by apply replaceAll_skip.
  - rewrite replaceAll_skip by (by apply matchKey_other). by rewrite IH.
  - rewrite replaceAll_skip by (by apply matchKey_other).
    rewrite replaceAll_skip; [by rewrite IH|].
    destruct (N.eqb_spec d dquote) as [->|Hne]; [|by apply matchKey_other].
    simpl. rewrite scanString_escaped by done. by rewrite Hc.
Qed.

Lemma replaceAll_value s rest :
  colonNext rest = None → matchKey (dquote :: rest) = None →
  replaceAll (quoteJSONString s ++ rest) = quoteJSONString s ++ replaceAll rest.
Proof.
  intros Hc Hq. unfold quoteJSONString. simpl. rewrite <-!app_assoc. simpl.
  rewrite replaceAll_skip.
  - by rewrite replaceAll_escaped by (done || apply quoteBody_escaped).
  - simpl. rewrite scanString_escaped by apply quoteBody_escaped. by rewrite Hc.
Qed.

(** A string that is a member name, with the colon after it. *)
Lemma replaceAll_name k rest :
  replaceAll (quoteJSONString k ++ colon :: rest)
  = quoteJSONString k ++ space :: colon :: replaceAll rest.
Proof.
  unfold quoteJSONString. simpl. rewrite <-!app_assoc. simpl.
  erewrite replaceAll_match.
  2:{ simpl. rewrite scanString_escaped by apply quoteBody_escaped. done. }
  simpl. by rewrite <-app_assoc.
Qed.

(** ** What comes after a value *)

Lemma scanString_plain p t :
  Forall (λ c, c ≠ dquote ∧ c ≠ backslash) p →
  scanString (p ++ t) = (λ r, (p ++ r.1, r.2)) <$> scanString t.
Proof.
  induction 1 as [|c p [Hq Hb] _ IH]; simpl.
  - by destruct (scanString t) as [[? ?]|].
  - rewrite (proj2 (N.eqb_neq c dquote)), (proj2 (N.eqb_neq c backslash)) by done.
    rewrite IH. by destruct (scanString t) as [[? ?]|].
Qed.

Lemma quiet_plain p t :
  Forall (λ c, c ≠ dquote ∧ c ≠ backslash) p →
  matchKey (dquote :: t) = None → matchKey (dquote :: p ++ t) = None.
Proof.
  intros Hp. simpl. rewrite scanString_plain by done.
  destruct (scanString t) as [[b rest]|]; [|done]. simpl.
  by destruct (colonNext rest).
Qed.

Lemma colonNext_name k u :
  colonFirst k = false → colonNext (quoteBody k ++ dquote :: u) = None.
Proof.
  induction k as [|c k IH]; [done|]. simpl colonFirst.
  destruct (N.eqb_spec c colon) as [->|Hc]; [done|].
  destruct (isWhiteSpace c) eqn:Hw; cbn [andb].
  - destruct (N.leb_spec 32 c) as [H32|H32].
    + intros Hk. rewrite quoteBody_literal.
      * unfold colonNext. simpl. rewrite Hw. by apply IH.
      * done.
      * intros ->. done.
      * intros ->. done.
      * unfold isWhiteSpace in Hw.
        repeat (apply orb_true_iff in Hw as [Hw|Hw]);
          try (apply N.eqb_eq in Hw; lia).
        apply andb_true_iff in Hw as [H1 H2]. apply N.leb_le in H2. lia.
    + intros _. unfold isWhiteSpace in Hw.
      repeat (apply orb_true_iff in Hw as [Hw|Hw]);
        try (apply N.eqb_eq in Hw; subst c; done).
      apply andb_true_iff in Hw as [H1 H2]. apply N.leb_le in H1. lia.
  - intros _.
    assert (∃ x tl, quoteBody (c :: k) = x :: tl
                    ∧ (x = backslash ∨ x = c)) as (x & tl & -> & Hx).
    { simpl.
      repeat (match goal with
              | |- context [(c =? ?n)%N] =>
                  destruct (N.eqb_spec c n); [by eauto|]
              end).
      destruct (c <? 32)%N; [unfold unicodeEscape; simpl; by eauto|].
      destruct (isLeadingSurrogate c).
      { destruct k as [|d k]; [unfold unicodeEscape; simpl; by eauto|].
        destruct (isTrailingSurrogate d); [by eauto|].
        unfold unicodeEscape; simpl; by eauto. }
      destruct (isTrailingSurrogate c); [unfold unicodeEscape; simpl; by eauto|].
      by eauto. }
    unfold colonNext. simpl.
    destruct Hx as [->| ->]; [done|]. rewrite Hw.
    by rewrite (proj2 (N.eqb_neq c colon)).
Qed.

Lemma quiet_name p k u :
  Forall (λ c, c ≠ dquote ∧ c ≠ backslash) p →
  colonFirst k = false →
  matchKey (dquote :: p ++ quoteJSONString k ++ u) = None.
Proof.
  intros Hp Hk. simpl. rewrite scanString_plain by done.
  unfold quoteJSONString. simpl. rewrite <-app_assoc. simpl.
  by rewrite colonNext_name.
Qed.

Lemma indentation_plain n :
  Forall (λ c, c ≠ dquote ∧ c ≠ backslash) (indentation n).
Proof. unfold indentation. apply Forall_replicate. done. Qed.

Lemma indentation_no_quote n : dquote ∉ indentation n.
Proof.
  unfold indentation. intros [H _]%elem_of_replicate. done.
Qed.

Lemma trimStart_indentation n t : trimStart (indentation n ++ t) = trimStart t.
Proof.
  unfold indentation. induction (2 * n) as [|m IH]; [done|]. simpl. exact IH.
Qed.

Lemma colonNext_closing n t : colonNext (lineFeed :: indentation n ++ rbrace :: t) = None.
Proof. unfold colonNext. simpl. by rewrite trimStart_indentation. Qed.

Lemma replaceAll_closing n t :
  replaceAll (lineFeed :: indentation n ++ rbrace :: t)
  = lineFeed :: indentation n ++ rbrace :: replaceAll t.
Proof.
  rewrite replaceAll_skip by (by apply matchKey_other).
  rewrite replaceAll_plain by apply indentation_no_quote.
  by rewrite replaceAll_skip by (by apply matchKey_other).
Qed.

Lemma quiet_closing n t :
  matchKey (dquote :: t) = None →
  matchKey (dquote :: lineFeed :: indentation n ++ rbrace :: t) = None.
Proof.
  intros Ht. apply (quiet_plain (lineFeed :: indentation n ++ [rbrace])) in Ht.
  - cbn [app] in Ht. by rewrite <-app_assoc in Ht.
  - constructor; [done|]. apply Forall_app. split; [apply indentation_plain|].
    by repeat constructor.
Qed.

(** ** The whole text *)

Lemma plainKeys_object ms :
  plainKeys (Store.JObject ms)
  ↔ Forall (λ m : jsstring * Store.json, colonFirst m.1 = false ∧ plainKeys m.2) ms.
Proof.
  simpl. induction ms as [|m ms IH]; simpl.
  - split; [constructor | done].
  - rewrite Forall_cons, <-IH. tauto.
Qed.

Lemma join_single sep (x : jsstring) : join sep [x] = x.
Proof. done. Qed.

Lemma join_cons sep (x y : jsstring) l :
  join sep (x :: y :: l) = x ++ sep ++ join sep (y :: l).
Proof. done. Qed.

Section Format.
Context (level : nat).

Lemma serialize_object sep m ms :
  serialize sep level (Store.JObject (m :: ms))
  = [lbrace; lineFeed] ++ indentation (S level)
    ++ join (memberSeparator level) (memberText level sep <$> (m :: ms))
    ++ [lineFeed] ++ indentation level ++ [rbrace].
Proof. done. Qed.

Lemma members_head sep m ms rest :
  ∃ u, join (memberSeparator level) (memberText level sep <$> (m :: ms)) ++ rest
       = quoteJSONString m.1 ++ u.
Proof.
  rewrite fmap_cons. destruct ms as [|m2 ms].
  - rewrite fmap_nil, join_single. unfold memberText. rewrite <-!app_assoc. eauto.
  - rewrite fmap_cons, join_cons. unfold memberText at 1. rewrite <-!app_assoc. eauto.
Qed.

Lemma memberSeparator_plain :
  Forall (λ c, c ≠ dquote ∧ c ≠ backslash) (memberSeparator level).
Proof.
  unfold memberSeparator. apply Forall_app. split; [|apply indentation_plain].
  by repeat constructor.
Qed.

Lemma memberSeparator_no_quote : dquote ∉ memberSeparator level.
Proof.
  unfold memberSeparator. rewrite elem_of_app. intros [H|H].
  - by repeat (apply elem_of_cons in H as [H|H]; [done|]); apply elem_of_nil in H.
  - by apply indentation_no_quote in H.
Qed.

(** The members of an object, once the values are known to be written
    as they should. *)
Lemma replaceAll_members ms : ∀ m t,
  matchKey (dquote :: t) = None →
  Forall (λ m : jsstring * Store.json,
            colonFirst m.1 = false
            ∧ ∀ u, colonNext u = None → matchKey (dquote :: u) = None →
                   replaceAll (serialize [colon; space] (S level) m.2 ++ u)
                   = serialize [space; colon; space] (S level) m.2 ++ replaceAll u)
         (m :: ms) →
  replaceAll (join (memberSeparator level)
                (memberText level [colon; space] <$> (m :: ms))
              ++ lineFeed :: indentation level ++ rbrace :: t)
  = join (memberSeparator level)
      (memberText level [space; colon; space] <$> (m :: ms))
    ++ lineFeed :: indentation level ++ rbrace :: replaceAll t.
Proof.
  induction ms as [|m2 ms IH]; intros m t Ht Hall.
  - apply Forall_cons in Hall as [[Hk Hv] _].
    rewrite !fmap_cons, !fmap_nil, !join_single. unfold memberText.
    rewrite <-!app_assoc. cbn [app]. rewrite replaceAll_name.
    rewrite replaceAll_skip by (by apply matchKey_other).
    rewrite Hv.
    + by rewrite replaceAll_closing.
    + apply colonNext_closing.
    + by apply quiet_closing.
  - apply Forall_cons in Hall as [[Hk Hv] Hall].
    rewrite !(fmap_cons _ m), !(fmap_cons _ m2), !join_cons.
    rewrite <-!(fmap_cons (memberText level _) m2).
    unfold memberText at 1 3. rewrite <-!app_assoc. cbn [app].
    rewrite replaceAll_name.
    rewrite replaceAll_skip by (by apply matchKey_other).
    rewrite Hv.
    + rewrite replaceAll_plain by apply memberSeparator_no_quote.
      by rewrite IH.
    + unfold memberSeparator. done.
    + destruct (members_head [colon; space] m2 ms
                  (lineFeed :: indentation level ++ rbrace :: t)) as [u ->].
      apply quiet_name; [apply memberSeparator_plain|].
      by apply Forall_cons in Hall as [[? _] _].
Qed.
End Format.

Lemma replaceAll_serialize : ∀ j level t,
  plainKeys j → colonNext t = None → matchKey (dquote :: t) = None →
  replaceAll (serialize [colon; space] level j ++ t)
  = serialize [space; colon; space] level j ++ replaceAll t.
Proof.
  fix IH 1. intros [b|s|ms] level t Hplain Hc Hq.
  - simpl. destruct b; apply replaceAll_plain;
      apply (bool_decide_unpack _); vm_compute; exact I.
  - by apply replaceAll_value.
  - destruct ms as [|m ms].
    { apply (replaceAll_plain (js "{}")).
      apply (bool_decide_unpack _). vm_compute. exact I. }
    rewrite !serialize_object, <-!app_assoc.
    rewrite (replaceAll_plain [lbrace; lineFeed])
      by (apply (bool_decide_unpack _); vm_compute; exact I).
    rewrite replaceAll_plain by apply indentation_no_quote.
    cbn [app]. rewrite replaceAll_members; [done | done |].
    apply plainKeys_object in Hplain. revert Hplain. generalize (m :: ms).
    clear -IH. intros l. induction l as [|[k j] l IHl]; [constructor|].
    intros [[Hk Hj] Hl]%Forall_cons. constructor; [|by apply IHl].
    split; [done|]. intros u Hu Hq. by apply IH.
Qed.

(** X22. The text [formatXcstringsJson] writes: when no member name of
    the object, at any depth, begins with a colon (after whitespace that
    [JSON.stringify] writes as it is), the result is the text of
    [JSON.stringify(obj, null, 2)] with a space put before the colon
    that follows each member name, and with nothing else changed: no
    string that is a value is touched. *)
Theorem formatXcstringsJson_spaces obj :
  plainKeys obj →
  formatXcstringsJson obj = serialize [space; colon; space] 0 obj.
Proof.
  intros Hplain. unfold formatXcstringsJson, stringify2.
  rewrite <-(app_nil_r (serialize [colon; space] 0 obj)).
  rewrite replaceAll_serialize by done.
  by rewrite replaceAll_nil, app_nil_r.
Qed.

(** The catalogs whose keys and language codes do not begin with a
    colon. *)
Lemma plainKeys_optMember name v :
  colonFirst (js name) = false → from_option plainKeys True v →
  Forall (λ m : jsstring * Store.json, colonFirst m.1 = false ∧ plainKeys m.2)
         (Store.optMember name v).
Proof. intros Hn Hv. destruct v as [j|]; simpl; by repeat constructor. Qed.

Lemma plainKeys_catalog d :
  plainCatalog d → plainKeys (Store.catalogJson d).
Proof.
  intros Hd. unfold Store.catalogJson. apply plainKeys_object.
  repeat apply Forall_app_2.
  - apply plainKeys_optMember; [done | by destruct (sourceLanguage d)].
  - constructor; [|constructor]. split; [done|]. apply plainKeys_object.
    apply Forall_fmap. eapply Forall_impl; [exact Hd|].
    intros [k e] [Hk He]. simpl in *. split; [done|].
    unfold Store.entryJson. apply plainKeys_object. repeat apply Forall_app_2.
    + apply plainKeys_optMember; [done | by destruct (comment e)].
    + apply plainKeys_optMember; [done | by destruct (extractionState e)].
    + apply plainKeys_optMember; [done | by destruct (shouldTranslate e)].
    + apply plainKeys_optMember; [done|].
      destruct (localizations e) as [ls|]; [|done]. simpl in *.
      apply plainKeys_object, Forall_fmap. eapply Forall_impl; [exact He|].
      intros [lang l] Hl. simpl in *. split; [done|].
      unfold Store.localizationJson. apply plainKeys_object.
      apply plainKeys_optMember; [done|].
      destruct (stringUnit l) as [u|]; [|done]. simpl.
      unfold Store.unitJson. apply plainKeys_object. apply Forall_app_2.
      * apply plainKeys_optMember; [done | by destruct (state u)].
      * apply plainKeys_optMember; [done | by destruct (value u)].
  - apply plainKeys_optMember; [done | by destruct (version d)].
Qed.

Lemma formatXcstringsJson_spaces_witness :
  formatXcstringsJson (Store.catalogJson sampleCatalog)
  = serialize [space; colon; space] 0 (Store.catalogJson sampleCatalog).
Proof.
  apply (formatXcstringsJson_spaces (Store.catalogJson sampleCatalog)).
  vm_compute. repeat split.
Defined.

(** A member name that begins with a colon, after a member whose value
    is a string: the pattern matches from the closing quote of the value
    to the colon inside the name, and the member is written under
    another name. *)
Example formatXcstringsJson_colon_name :
  formatXcstringsJson colonObject
  = [lbrace; lineFeed; space; space]
    ++ quoteJSONString (js "a") ++ js " : " ++ quoteJSONString (js "v")
    ++ [comma; lineFeed; space; space]
    ++ quoteJSONString (js " :b") ++ js ": true" ++ [lineFeed; rbrace].
Proof. by vm_compute. Qed.

(** ** A member name that begins with a colon *)

Lemma replaceAll_body b rest :
  escaped b → colonNext rest = None →
  replaceAll (b ++ dquote :: rest) = b ++ replaceAll (dquote :: rest).
Proof.
  intros Hb Hc. induction Hb as [|c t Hcq Hcb _ IH|d t Hd Ht IH]; simpl.
  - done.
  - rewrite replaceAll_skip by (by apply matchKey_other). by rewrite IH.
  - rewrite replaceAll_skip by (by apply matchKey_other).
    rewrite replaceAll_skip; [by rewrite IH|].
    destruct (N.eqb_spec d dquote) as [->|Hne]; [|by apply matchKey_other].
    simpl. rewrite scanString_escaped by done. by rewrite Hc.
Qed.

Lemma quoteBody_colon b : quoteBody (colon :: b) = colon :: quoteBody b.
Proof. by apply quoteBody_literal; [| | |left]. Qed.

Lemma members_head_xcode level sep k x ms rest :
  ∃ u, join (memberSeparator level) (memberText level sep <$> ((k, x) :: ms)) ++ rest
       = dquote :: quoteBody k ++ dquote :: sep ++ u.
Proof.
  rewrite fmap_cons. destruct ms as [|m2 ms].
  - rewrite fmap_nil, join_single. unfold memberText, quoteJSONString.
    cbn [fst snd app]. rewrite <-!app_assoc. cbn [app]. eauto.
  - rewrite fmap_cons, join_cons. unfold memberText at 1. unfold quoteJSONString.
    cbn [fst snd app]. rewrite <-!app_assoc. cbn [app]. eauto.
Qed.

(** X23. A member name that begins with a colon, right after a member
    whose value is a string, is not written as it is. For every object
    whose first member has a string value and whose second member has a
    name beginning with a colon, the Xcode-style text and the text that
    [formatXcstringsJson] returns agree up to the opening quote of that
    name; there the first has the colon of the name and the second has a
    space and a colon: the member is written under a name that begins
    with a space, and the two texts differ. *)
Theorem formatXcstringsJson_colon_after_string a v b x ms :
  let obj := Store.JObject ((a, Store.JString v) :: (colon :: b, x) :: ms) in
  let upto :=
    [lbrace; lineFeed; space; space]
    ++ quoteJSONString a ++ [space; colon; space] ++ quoteJSONString v
    ++ [comma; lineFeed; space; space; dquote] in
  (∃ rest, serialize [space; colon; space] 0 obj = upto ++ colon :: rest)
  ∧ (∃ rest, formatXcstringsJson obj = upto ++ space :: colon :: rest)
  ∧ formatXcstringsJson obj ≠ serialize [space; colon; space] 0 obj.
Proof.
  intros obj upto.
  assert (∃ rest, serialize [space; colon; space] 0 obj = upto ++ colon :: rest)
    as [r1 H1].
  { subst obj upto. rewrite serialize_object, !fmap_cons, join_cons, <-fmap_cons.
    destruct (members_head_xcode 0 [space; colon; space] (colon :: b) x ms
                ([lineFeed] ++ indentation 0 ++ [rbrace])) as [u Hu].
    rewrite quoteBody_colon in Hu.
    unfold memberText at 1. cbn [fst snd serialize].
    rewrite <-!app_assoc. rewrite Hu.
    change (indentation 1) with [space; space].
    change (memberSeparator 0) with [comma; lineFeed; space; space].
    exists (quoteBody b ++ dquote :: [space; colon; space] ++ u).
    unfold quoteJSONString. by repeat (rewrite <-!app_assoc; cbn [app]). }
  assert (∃ rest, formatXcstringsJson obj = upto ++ space :: colon :: rest)
    as [r2 H2].
  { subst obj upto. unfold formatXcstringsJson, stringify2.
    rewrite serialize_object, !fmap_cons, join_cons, <-fmap_cons.
    destruct (members_head_xcode 0 [colon; space] (colon :: b) x ms
                ([lineFeed] ++ indentation 0 ++ [rbrace])) as [u Hu].
    rewrite quoteBody_colon in Hu.
    unfold memberText at 1. cbn [fst snd serialize].
    rewrite <-!app_assoc. rewrite Hu.
    change (indentation 1) with [space; space].
    change (memberSeparator 0) with [comma; lineFeed; space; space].
    cbn [app].
    do 4 (rewrite replaceAll_skip by (by apply matchKey_other)).
    rewrite replaceAll_name.
    rewrite replaceAll_skip by (by apply matchKey_other).
    unfold quoteJSONString at 2. cbn [app]. rewrite <-!app_assoc. cbn [app].
    rewrite replaceAll_skip.
    2:{ simpl. rewrite scanString_escaped by apply quoteBody_escaped. done. }
    rewrite replaceAll_body by (done || apply quoteBody_escaped).
    erewrite replaceAll_match by (simpl; reflexivity).
    exists (replaceAll (quoteBody b ++ dquote :: [colon; space] ++ u)).
    unfold quoteJSONString. by repeat (rewrite <-!app_assoc; cbn [app]). }
  split; [eauto|]. split; [eauto|].
  rewrite H1, H2. intros Heq. apply app_inv_head in Heq. discriminate.
Qed.
